(** * mcp-storage-server: the storage client (client.ts, types.ts) and the
    upload tool, embedded and checked against the design specification.

    Layout: Part I holds the embedding (JavaScript helpers, the URL
    ingestor [fetchFileFromUrl], the client lifecycle, the path resolver,
    the archive retrieval, the configuration loader [loadConfig] and the
    handler of the upload tool); Part II holds the theorems, stated for an
    arbitrary platform; Part III instantiates them on a small concrete
    one. *)

From Stdlib Require Import ZArith Lia Ascii String List.
From Stdlib.Strings Require Import Byte.
From stdpp Require Import base option list gmap strings pretty.

Local Open Scope string_scope.
Local Open Scope list_scope.
Local Open Scope Z_scope.

(* ===================================================================== *)
(** * Part I. The embedding                                               *)
(* ===================================================================== *)

(** ** JavaScript values and built-ins used by the client

    A JS number is modelled as an integer of [Z]; every number the client
    compares is a byte count or a millisecond count, exact in a double
    below 2^53.  [NaN] appears only as the result of [parseInt], modelled
    as [None]. *)

Module JS.

(** [ToBoolean] on a string: only the empty string is falsy. *)
Definition truthy_string (s : string) : bool :=
  if decide (s = "") then false else true.

(** [ToBoolean] on a number: [0] is falsy. *)
Definition truthy_number (n : Z) : bool := negb (n =? 0).

(** [a || b] where [a] is [string | null | undefined]. *)
Definition or_string (a : option string) (b : option string) : option string :=
  match a with
  | Some s => if truthy_string s then Some s else b
  | None => b
  end.

(** [arr.includes(x)] on an array of strings. *)
Definition includes (arr : list string) (x : string) : bool :=
  existsb (fun y => if decide (y = x) then true else false) arr.

(** [s.slice(0, -1)]: all but the last code unit. *)
Fixpoint slice_0_m1 (s : string) : string :=
  match s with
  | EmptyString => EmptyString
  | String _ EmptyString => EmptyString
  | String c rest => String c (slice_0_m1 rest)
  end.

(** [s.startsWith(p)]. *)
Fixpoint startsWith (s p : string) : bool :=
  match p, s with
  | EmptyString, _ => true
  | String a p', String b s' =>
      if decide (a = b) then startsWith s' p' else false
  | String _ _, EmptyString => false
  end.

(** [s.endsWith(suffix)], decided on the lists of code units. *)
Definition endsWith (s suffix : string) : bool :=
  bool_decide (list_ascii_of_string suffix `suffix_of` list_ascii_of_string s).

(** [arr.join(sep)]. *)
Fixpoint join (sep : string) (arr : list string) : string :=
  match arr with
  | [] => ""
  | [x] => x
  | x :: rest => x +:+ sep +:+ join sep rest
  end.

(** The [type] of a [Blob] or [File] built with the option [{ type }]: the
    string lower-cased, or the empty string when it has a code unit outside
    U+0020..U+007E.  Within that range lower-casing only touches the
    letters [A]..[Z]. *)
Definition printable (c : ascii) : bool :=
  let n := nat_of_ascii c in ((32 <=? n) && (n <=? 126))%nat.

Definition lower_letter (c : ascii) : ascii :=
  let n := nat_of_ascii c in
  if ((65 <=? n) && (n <=? 90))%nat then ascii_of_nat (n + 32) else c.

Fixpoint all_printable (s : string) : bool :=
  match s with
  | EmptyString => true
  | String c rest => printable c && all_printable rest
  end.

Fixpoint lower_letters (s : string) : string :=
  match s with
  | EmptyString => EmptyString
  | String c rest => String (lower_letter c) (lower_letters rest)
  end.

Definition blob_type (type : string) : string :=
  if all_printable type then lower_letters type else "".

Arguments blob_type : simpl never.

(** The schemes for which the platform's [fetch] answers a [HEAD]
    request ([protocol] is [url.protocol]); a request to a URL of any
    other scheme, [ftp] for one, is a network error: [fetch] rejects with
    a [TypeError] and nothing is sent.  ([blob:] is answered for [GET]
    only, and the function sends [HEAD] first.) *)
Definition fetch_handles (protocol : string) : bool :=
  includes ["http:"; "https:"; "data:"] protocol.

(** Template-literal / constructor coercion of a possibly missing
    property to a string. *)
Definition to_string (o : option string) : string := default "undefined" o.

(** [parseInt(s, 10)]: leading white space is skipped, an optional sign
    is read, then the longest run of decimal digits; [None] is [NaN].
    The result here is the integer that the digits denote.  The source's
    is that integer rounded to a double, which is the same number up to
    2^53 and a number of at least 2^53 above; so a comparison of the two
    results with a limit below 2^53 has the same outcome (lemma
    [rounding_keeps_comparison]), and the limits of the client are byte
    and millisecond counts far below. *)
Definition is_white (c : ascii) : bool :=
  let n := nat_of_ascii c in
  ((9 <=? n) && (n <=? 13))%nat || (n =? 32)%nat.

Definition digit_of (c : ascii) : option Z :=
  let n := Z.of_nat (nat_of_ascii c) in
  if (48 <=? n) && (n <=? 57) then Some (n - 48) else None.

Fixpoint skip_white (s : string) : string :=
  match s with
  | String c rest => if is_white c then skip_white rest else s
  | EmptyString => EmptyString
  end.

Fixpoint digits (acc : option Z) (s : string) : option Z :=
  match s with
  | String c rest =>
      match digit_of c with
      | Some d => digits (Some (10 * default 0 acc + d)) rest
      | None => acc
      end
  | EmptyString => acc
  end.

Definition parseInt10 (s : string) : option Z :=
  match skip_white s with
  | String "-"%char rest => Z.opp <$> digits None rest
  | String "+"%char rest => digits None rest
  | t => digits None t
  end.

End JS.

(** ** JavaScript built-ins the client calls

    [new URL(s)] and [new URL(reference, base)] (WHATWG URL parsing and
    resolution) and [String.prototype.toLowerCase] are taken as an
    interface; [None] stands for a constructor that throws. *)

Record URL := mkURL {
  protocol : string;   (* with the trailing colon, as in [url.protocol] *)
  hostname : string;
  href : string
}.

Class Runtime := {
  parseURL : string -> option URL;
  resolveURL : string -> URL -> option URL;
  toLowerCase : string -> string
}.

(** ** types.ts *)

(** [UrlUploadConfig]. *)
Record UrlUploadConfig := mkUrlUploadConfig {
  maxUrlFileSizeBytes : Z;
  allowedUrlSchemes : list string;
  urlFetchTimeoutMs : Z;
  allowAllUrlDomains : bool;
  allowedUrlDomains : option (list string)
}.

(** A [File]: name, content and the [type] option. *)
Record File := mkFile {
  file_name : string;
  file_bytes : list byte;
  file_type : string
}.

(** An upload-from-URL request is a plain JS object; [fetchFileFromUrl]
    destructures the properties [url], [name] and [mimeType] from it. *)
Abbreviation JsObject := (gmap string string).

(** The shape the interface [UploadFileFromUrl] of types.ts declares:
    [name], [url] and the optional override, spelled [mimeTyp] there. *)
Definition UploadFileFromUrl (name url : string) (mimeTyp : option string) : JsObject :=
  let o : JsObject := <["url" := url]> (<["name" := name]> ∅) in
  match mimeTyp with
  | Some m => <["mimeTyp" := m]> o
  | None => o
  end.

(** The object literal the upload tool builds (tools/upload.ts):
    [{ name, url, mimeType }]. *)
Definition urlUploadFile (name url : string) (mimeType : option string) : JsObject :=
  let o : JsObject := <["url" := url]> (<["name" := name]> ∅) in
  match mimeType with
  | Some m => <["mimeType" := m]> o
  | None => o
  end.

(** ** The URL ingestor: [StorachaClient.fetchFileFromUrl]

    The function is asynchronous: it suspends at the HEAD request, at the
    GET request and at every [reader.read()].  While it is suspended the
    event loop may run the timer callback or dispatch [abort] on the
    caller's signal.  The environment is therefore given as a schedule: for
    each suspension point, the events that happen before the awaited
    operation settles, and the way it settles when it is not aborted. *)

Module UrlFetch.

Inductive async_event :=
| TimerFires        (* the [setTimeout] delay has elapsed *)
| ExternalFires.    (* the caller aborts its [AbortSignal] *)

(** The two abort signals the function can hold a reference to. *)
Inductive sigref :=
| External          (* the [signal] argument *)
| Internal.         (* [controller.signal] *)

Inductive timer_state := Unarmed | Armed | Fired | Cleared.

Inductive method := HEAD | GET.

(** Observable effects, in program order. *)
Inductive io :=
| SetTimeout (ms : Z)
| ClearTimeout
| Request (m : method) (target : URL) (listens : sigref)
| ReadChunk (len : Z)      (* [reader.read()] delivered a chunk *)
| Push (len : Z)           (* [chunks.push(value)] *)
| ReleaseLock.

(** A value thrown from outside the function: an instance of [Error] with
    its [name] and [message], or any other value (for which [name] and
    [message] are what its properties of these names read as, the empty
    string when there is none). *)
Inductive thrown :=
| ErrorInstance (name message : string)
| OtherValue (name message : string).

(** The reason of [signal.abort()] and of [controller.abort()], called
    without an argument: a [DOMException] named [AbortError]. *)
Definition default_reason : thrown :=
  ErrorInstance "AbortError" "This operation was aborted".

Record state := mkState {
  ext_aborted : bool;      (* [signal.aborted]; unused when no signal is passed *)
  ctrl_aborted : bool;     (* [controller.signal.aborted] *)
  listener : bool;         (* the ['abort'] listener of line 256 is registered *)
  timer : timer_state;
  trace : list io;
  ext_reason : thrown      (* [signal.reason] once the caller's signal is aborted *)
}.

Definition aborted (r : sigref) (st : state) : bool :=
  match r with
  | External => ext_aborted st
  | Internal => ctrl_aborted st
  end.

Definition log (e : io) (st : state) : state :=
  mkState (ext_aborted st) (ctrl_aborted st) (listener st) (timer st) (trace st ++ [e])
    (ext_reason st).

(** What one event does to the signals.  The timer callback is
    [() => controller.abort()]; the listener on the caller's signal is
    [() => controller.abort()] as well. *)
Definition deliver (st : state) (e : async_event) : state :=
  match e with
  | TimerFires =>
      match timer st with
      | Armed => mkState (ext_aborted st) true (listener st) Fired (trace st) (ext_reason st)
      | _ => st
      end
  | ExternalFires =>
      if ext_aborted st then st
      else mkState true (ctrl_aborted st || listener st) (listener st) (timer st) (trace st)
             (ext_reason st)
  end.

(** What the function rejects with: one constructor per [throw] site, plus
    what comes from outside and is rethrown, an instance of [Error]
    ([Foreign]: a rejection of [fetch] or of the stream reader, or the
    reason of an abort) or a value that is not one ([NonError]: the reason
    of an abort can be any value). *)
Inductive error :=
| InvalidUrl (urlString : string)
| SchemeNotAllowed (scheme : string) (allowed : list string)
| NoDomainsAllowed
| DomainNotAllowed (host : string) (allowed : list string)
| MetadataRequestFailed (status : Z) (statusText : string)
| SizeExceededPredeclared (size max : Z)
| BodyRequestFailed (status : Z) (statusText : string)
| EmptyBody
| SizeExceededStreaming (total max : Z)
| TimeoutOrAborted
| Foreign (name message : string)
| NonError (name message : string).

Definition message (e : error) : string :=
  match e with
  | InvalidUrl u => "Invalid URL: " +:+ u
  | SchemeNotAllowed s allowed =>
      "URL scheme '" +:+ s +:+ "' is not allowed. Allowed schemes: "
        +:+ JS.join ", " allowed
  | NoDomainsAllowed => "No domains are allowed for URL uploads"
  | DomainNotAllowed h allowed =>
      "Domain '" +:+ h +:+ "' is not allowed. Allowed domains: "
        +:+ JS.join ", " allowed
  | MetadataRequestFailed st txt =>
      "Failed to fetch URL headers: " +:+ pretty st +:+ " " +:+ txt
  | SizeExceededPredeclared size max =>
      "File size (" +:+ pretty size
        +:+ " bytes) exceeds maximum allowed size (" +:+ pretty max +:+ " bytes)"
  | BodyRequestFailed st txt =>
      "Failed to fetch URL: " +:+ pretty st +:+ " " +:+ txt
  | EmptyBody => "Response body is empty"
  | SizeExceededStreaming total max =>
      "File size (" +:+ pretty total
        +:+ " bytes) exceeds maximum allowed size (" +:+ pretty max +:+ " bytes)"
  | TimeoutOrAborted => "URL fetch timeout or aborted"
  | Foreign _ m => m
  | NonError _ m => m
  end.

(** [error.name]: every [new Error(..)] has the name ["Error"]. *)
Definition error_name (e : error) : string :=
  match e with
  | Foreign n _ => n
  | NonError n _ => n
  | _ => "Error"
  end.

(** [error instanceof Error]. *)
Definition instanceofError (e : error) : bool :=
  match e with
  | NonError _ _ => false
  | _ => true
  end.

(** A value from outside, as a rejection. *)
Definition raise (t : thrown) : error :=
  match t with
  | ErrorInstance n m => Foreign n m
  | OtherValue n m => NonError n m
  end.

(** The rejection of a [fetch] or [read] aborted by [controller.abort()]. *)
Definition AbortError : error := Foreign "AbortError" "This operation was aborted".

(** What an aborted [fetch] or [read] rejects with: the reason of the
    signal it listens on.  The controller is only ever aborted without an
    argument; the reason of the caller's signal is the caller's choice. *)
Definition rejection (sig : sigref) (st : state) : error :=
  match sig with
  | External => raise (ext_reason st)
  | Internal => AbortError
  end.

(** How the stream reader settles one [read()] that is not aborted. *)
Inductive read_outcome :=
| Chunk (value : list byte)
| ReadFails (name message : string).

(** A body stream: the scheduled reads, then the events that happen
    while the last [read()], the one that answers [done], is pending. *)
Record stream := mkStream {
  reads : list (list async_event * read_outcome);
  done_pending : list async_event
}.

(** A response: [ok] is derived from the status as [fetch] does;
    [headers] is keyed by lower-case header names; the body is [None]
    for a null body. *)
Record Response := mkResponse {
  status : Z;
  statusText : string;
  headers : gmap string string;
  body : option stream
}.

Definition ok (r : Response) : bool := (200 <=? status r) && (status r <=? 299).

Inductive fetch_outcome :=
| Responds (r : Response)
| NetworkFails (name message : string).

(** What the outside does during one call: the events that happen while
    each request is pending, how each request is answered, and the reason
    the caller gives (or gave) when aborting its signal. *)
Record server := mkExchange {
  head_pending : list async_event;
  head_outcome : fetch_outcome;
  get_pending : list async_event;
  get_outcome : fetch_outcome;
  abort_reason : thrown
}.

(** The exchange as the platform's [fetch] lets it happen for requests to
    [url]: when it does not handle the scheme, both requests are rejected
    with its [TypeError], whatever a server would have answered. *)
Definition on_platform (url : URL) (srv : server) : server :=
  if JS.fetch_handles (protocol url) then srv
  else mkExchange (head_pending srv) (NetworkFails "TypeError" "fetch failed")
         (get_pending srv) (NetworkFails "TypeError" "fetch failed") (abort_reason srv).

(** A caller that aborts, if it does, without giving a reason. *)
Definition mkServer (head_pending : list async_event) (head_outcome : fetch_outcome)
    (get_pending : list async_event) (get_outcome : fetch_outcome) : server :=
  mkExchange head_pending head_outcome get_pending get_outcome default_reason.

(** *** The monad of the function body: state and exceptions *)

Definition M (A : Type) : Type := state -> state * (error + A).

Definition ret {A} (a : A) : M A := fun st => (st, inr a).
Definition throw {A} (e : error) : M A := fun st => (st, inl e).
Definition bind {A B} (m : M A) (k : A -> M B) : M B :=
  fun st =>
    match m st with
    | (st', inr a) => k a st'
    | (st', inl e) => (st', inl e)
    end.
Definition effect (f : state -> state) : M unit := fun st => (f st, inr tt).

(** [try { m } catch (e) { h e }] and [try { m } finally { f }]. *)
Definition try_catch {A} (m : M A) (h : error -> M A) : M A :=
  fun st =>
    match m st with
    | (st', inl e) => h e st'
    | r => r
    end.
Definition try_finally {A} (m : M A) (f : state -> state) : M A :=
  fun st => let '(st', r) := m st in (f st', r).

Declare Scope fetch_scope.
Delimit Scope fetch_scope with fetch.
Notation "x <- m ;; k" := (bind m (fun x => k))
  (at level 100, m at next level, right associativity) : fetch_scope.
Notation "m ;;; k" := (bind m (fun _ => k))
  (at level 100, right associativity) : fetch_scope.
Notation "'when' c 'then_throw' e ;;; k" :=
  (bind (if c then throw e else ret tt) (fun _ => k))
  (at level 100, c at next level, e at next level, right associativity) : fetch_scope.

(** An awaited operation that listens on [sig]: it rejects at once when
    the signal is already aborted, otherwise it is started ([started]
    is logged), the scheduled events happen, and it rejects if they
    aborted [sig]; the rejection is the reason of the signal. *)
Definition await {A} (sig : sigref) (started : option io)
    (pending : list async_event) (settle : M A) : M A :=
  fun st =>
    if aborted sig st then (st, inl (rejection sig st))
    else
      let st1 := match started with Some e => log e st | None => st end in
      let st2 := fold_left deliver pending st1 in
      if aborted sig st2 then (st2, inl (rejection sig st2)) else settle st2.

(** [fetch(url, { method, signal })].  The outcome [o] is what the
    platform's [fetch] settles with when it is not aborted: a response, or
    a rejection (a network failure, or a scheme it does not handle, see
    [on_platform]). *)
Definition fetch (url : URL) (m : method) (sig : sigref)
    (pending : list async_event) (o : fetch_outcome) : M Response :=
  await sig (Some (Request m url sig)) pending
    match o with
    | Responds r => ret r
    | NetworkFails n msg => throw (Foreign n msg)
    end.

(** [reader.read()] on a stream with a scheduled read ([read]), and on an
    exhausted one, where it answers [{ done: true }] ([read_done]). *)
Definition read (sig : sigref) (pending : list async_event) (o : read_outcome)
    : M (list byte) :=
  await sig None pending
    match o with
    | Chunk value => bind (effect (log (ReadChunk (Z.of_nat (length value)))))
                          (fun _ => ret value)
    | ReadFails n msg => throw (Foreign n msg)
    end.

Definition read_done (sig : sigref) (pending : list async_event) : M unit :=
  await sig None pending (ret tt).

Definition byteLength (value : list byte) : Z := Z.of_nat (length value).

(** [setTimeout(() => controller.abort(), ms)] and [clearTimeout(id)]. *)
Definition setTimeout (ms : Z) (st : state) : state :=
  log (SetTimeout ms)
    (mkState (ext_aborted st) (ctrl_aborted st) (listener st) Armed (trace st)
       (ext_reason st)).

Definition clearTimeout (st : state) : state :=
  log ClearTimeout
    (mkState (ext_aborted st) (ctrl_aborted st) (listener st)
       (match timer st with Armed => Cleared | t => t end) (trace st) (ext_reason st)).

(** [signal.addEventListener('abort', () => controller.abort())]. *)
Definition addAbortListener (st : state) : state :=
  mkState (ext_aborted st) (ctrl_aborted st) true (timer st) (trace st) (ext_reason st).

Section WithRuntime.
Context `{Runtime}.

(** The callback of [allowedUrlDomains.some(..)], lines 235-238. *)
Definition domainMatches (hostname allowedDomain : string) : bool :=
  (if decide (hostname = toLowerCase allowedDomain) then true else false)
  || JS.endsWith hostname ("." +:+ toLowerCase allowedDomain).

Definition isAllowed (hostname : string) (allowedUrlDomains : list string) : bool :=
  existsb (domainMatches hostname) allowedUrlDomains.

(** Lines 221-226: the scheme check. *)
Definition checkScheme (urlConfig : option UrlUploadConfig) (url : URL) : error + unit :=
  match urlConfig with
  | Some c =>
      let scheme := JS.slice_0_m1 (protocol url) in
      if negb (JS.includes (allowedUrlSchemes c) scheme)
      then inl (SchemeNotAllowed scheme (allowedUrlSchemes c))
      else inr tt
  | None => inr tt
  end.

(** Lines 228-245: the domain check. *)
Definition checkDomain (urlConfig : option UrlUploadConfig) (url : URL) : error + unit :=
  match urlConfig with
  | Some c =>
      if negb (allowAllUrlDomains c) then
        match allowedUrlDomains c with
        | None | Some [] => inl NoDomainsAllowed
        | Some domains =>
            let hostname := toLowerCase (hostname url) in
            if negb (isAllowed hostname domains)
            then inl (DomainNotAllowed hostname domains)
            else inr tt
        end
      else inr tt
  | None => inr tt
  end.

(** Lines 211-245: everything that happens before the controller is
    created; no state is touched and no request is made. *)
Definition validate (fileSpec : JsObject) (urlConfig : option UrlUploadConfig) : error + URL :=
  let urlString := JS.to_string (fileSpec !! "url") in
  match parseURL urlString with
  | None => inl (InvalidUrl urlString)
  | Some url =>
      match checkScheme urlConfig url with
      | inl e => inl e
      | inr _ =>
          match checkDomain urlConfig url with
          | inl e => inl e
          | inr _ => inr url
          end
      end
  end.

(** Line 249: is a timer created ([urlConfig?.urlFetchTimeoutMs] truthy)? *)
Definition armed (urlConfig : option UrlUploadConfig) : bool :=
  match urlConfig with
  | Some c => JS.truthy_number (urlFetchTimeoutMs c)
  | None => false
  end.

(** Line 254: [signal || controller.signal]. *)
Definition combinedSignal (signal : option bool) : sigref :=
  match signal with Some _ => External | None => Internal end.

(** Lines 248-257: the state in which the [try] block is entered. *)
Definition enter (urlConfig : option UrlUploadConfig) (signal : option bool) : state :=
  let st0 := mkState (default false signal) false false Unarmed [] default_reason in
  let st1 := match urlConfig with
             | Some c => if armed urlConfig then setTimeout (urlFetchTimeoutMs c) st0 else st0
             | None => st0
             end in
  match signal with Some _ => addAbortListener st1 | None => st1 end.

(** The caller's signal comes with its reason: [called reason st] is [st]
    with [signal.reason] being [reason] once the signal is aborted. *)
Definition called (reason : thrown) (st : state) : state :=
  mkState (ext_aborted st) (ctrl_aborted st) (listener st) (timer st) (trace st) reason.

(** Lines 270-279: the declared content length against the limit. *)
Definition checkContentLength (urlConfig : option UrlUploadConfig)
    (headResponse : Response) : M unit :=
  match headers headResponse !! "content-length", urlConfig with
  | Some contentLength, Some c =>
      if JS.truthy_string contentLength && JS.truthy_number (maxUrlFileSizeBytes c) then
        match JS.parseInt10 contentLength with
        | Some size =>
            if size >? maxUrlFileSizeBytes c
            then throw (SizeExceededPredeclared size (maxUrlFileSizeBytes c))
            else ret tt
        | None => ret tt       (* [NaN > max] is false *)
        end
      else ret tt
  | _, _ => ret tt
  end.

(** Lines 311-316: the limit against the running total. *)
Definition checkTotalSize (urlConfig : option UrlUploadConfig) (totalSize : Z) : M unit :=
  match urlConfig with
  | Some c =>
      if JS.truthy_number (maxUrlFileSizeBytes c) && (totalSize >? maxUrlFileSizeBytes c)
      then throw (SizeExceededStreaming totalSize (maxUrlFileSizeBytes c))
      else ret tt
  | None => ret tt
  end.

(** Lines 305-319: [while (true) { read; add; check; push }]. *)
Fixpoint readLoop (urlConfig : option UrlUploadConfig) (sig : sigref)
    (rs : list (list async_event * read_outcome)) (done_ev : list async_event)
    (chunks : list (list byte)) (totalSize : Z) : M (list (list byte)) :=
  match rs with
  | [] => bind (read_done sig done_ev) (fun _ => ret chunks)
  | (pending, o) :: rest =>
      (value <- read sig pending o ;;
       let totalSize := totalSize + byteLength value in
       checkTotalSize urlConfig totalSize ;;;
       effect (log (Push (byteLength value))) ;;;
       readLoop urlConfig sig rest done_ev (chunks ++ [value]) totalSize)%fetch
  end.

(** Lines 287-334: from the GET response to the [File]. *)
Definition readBody (name : string) (mimeType : option string)
    (urlConfig : option UrlUploadConfig) (combinedSignal : sigref)
    (response : Response) : M File :=
  (when (negb (ok response))
     then_throw (BodyRequestFailed (status response) (statusText response)) ;;;
   let contentType :=
     default "application/octet-stream"
       (JS.or_string (JS.or_string mimeType (headers response !! "content-type"))
                     (Some "application/octet-stream")) in
   match body response with
   | None => throw EmptyBody
   | Some s =>
       chunks <- try_finally
                   (readLoop urlConfig combinedSignal (reads s) (done_pending s) [] 0)
                   (log ReleaseLock) ;;
       let combined := concat chunks in
       ret (mkFile name combined (JS.blob_type contentType))
   end)%fetch.

(** Lines 259-334: the body of the outer [try]. *)
Definition fetchBody (url : URL) (name : string) (mimeType : option string)
    (urlConfig : option UrlUploadConfig) (combinedSignal : sigref)
    (srv : server) : M File :=
  (headResponse <- fetch url HEAD combinedSignal (head_pending srv) (head_outcome srv) ;;
   when (negb (ok headResponse))
     then_throw (MetadataRequestFailed (status headResponse) (statusText headResponse)) ;;;
   checkContentLength urlConfig headResponse ;;;
   response <- fetch url GET combinedSignal (get_pending srv) (get_outcome srv) ;;
   readBody name mimeType urlConfig combinedSignal response)%fetch.

(** Line 337: [error instanceof Error && error.name === 'AbortError']. *)
Definition isAbortError (e : error) : bool :=
  instanceofError e && bool_decide (error_name e = "AbortError").

(** Lines 336-345: the [catch] and the [finally] of the outer [try]. *)
Definition guarded (urlConfig : option UrlUploadConfig) (m : M File) : M File :=
  try_finally
    (try_catch m
       (fun e =>
          if isAbortError e
          then throw TimeoutOrAborted
          else throw e))
    (fun st => if armed urlConfig then clearTimeout st else st).

(** Lines 206-346. [signal] is [None] when the caller passes no
    [AbortSignal], otherwise its [aborted] flag at the time of the call;
    its reason, if it is or becomes aborted, is [abort_reason srv].
    The result is the final state (signals, timer, trace of effects) and
    the rejection or the [File]. *)
Definition fetchFileFromUrl (fileSpec : JsObject) (urlConfig : option UrlUploadConfig)
    (signal : option bool) (srv : server) : state * (error + File) :=
  let name := JS.to_string (fileSpec !! "name") in
  let mimeType := fileSpec !! "mimeType" in
  match validate fileSpec urlConfig with
  | inl e =>
      (called (abort_reason srv) (mkState (default false signal) false false Unarmed []
                                    default_reason),
       inl e)
  | inr url =>
      guarded urlConfig
        (fetchBody url name mimeType urlConfig (combinedSignal signal) srv)
        (called (abort_reason srv) (enter urlConfig signal))
  end.

End WithRuntime.

End UrlFetch.


(** ** Code the client imports that is outside the sources at hand

    - [base64ToBytes] ([None]: it throws) and [streamToBase64] of ./utils.js;
    - [DEFAULT_GATEWAY_URL] of ./config.js;
    - [CID.parse] of multiformats (a CID is kept as its canonical text, so
      [cid.toString()] is the identity on the parsed value);
    - [CarReader.fromBytes] of @ipld/car, a decoder into a block lookup;
    - [exporter] of ipfs-unixfs-exporter, a pull-based walk: it asks the
      blockstore for blocks by identifier and emits content chunks. *)

Inductive walker :=
| Need (cid : string) (k : list byte -> walker)   (* [await blockstore.get(cid)] *)
| Emit (chunk : list byte) (k : walker)           (* a chunk of [entry.content()] *)
| Stop                                            (* the content is exhausted *)
| Crash (message : string).                       (* the exporter itself throws *)

Class Libraries := {
  base64ToBytes : string -> option (list byte);
  streamToBase64 : list byte -> bool -> string;
  DEFAULT_GATEWAY_URL : URL;
  parseCID : string -> option string;
  decodeCar : list byte -> option (gmap string (list byte));
  exporter : string -> walker
}.

(** ** The path resolver, [parseIpfsPath] *)

Module PathResolver.

(** [Resource] of types.ts. *)
Record Resource := mkResource {
  res_protocol : string;
  cid : string;
  pathname : string
}.

(** [s] cut at its first slash: the text before it and the text after it. *)
Fixpoint cut_at_slash (s : string) : option (string * string) :=
  match s with
  | EmptyString => None
  | String c rest =>
      if decide (c = "/"%char) then Some (EmptyString, rest)
      else match cut_at_slash rest with
           | Some (a, b) => Some (String c a, b)
           | None => None
           end
  end.

(** [s] without the prefix [p], when it starts with it. *)
Fixpoint strip_prefix (p s : string) : option string :=
  match p, s with
  | EmptyString, _ => Some s
  | String a p', String b s' => if decide (a = b) then strip_prefix p' s' else None
  | String _ _, EmptyString => None
  end.

Section WithLibraries.
Context `{Libraries}.

(** Modelled from the spec: the first accepted form of section 4.1,
    [<identifier>/<rest>], where the identifier must be a structurally
    valid content identifier ([CID.parse] accepts it); part of
    [parseIpfsPath], which is not among the sources. *)
Definition bare_form (s : string) : option Resource :=
  match cut_at_slash s with
  | Some (identifier, rest) =>
      match parseCID identifier with
      | Some c => Some (mkResource "ipfs:" c ("/" +:+ rest))
      | None => None
      end
  | None => None
  end.

(** Modelled from the spec: [parseIpfsPath] lives in ./utils.js, which is
    not among the sources.  Section 4.1: the accepted forms, in priority
    order, are [<identifier>/<rest>], [/ipfs/<identifier>/<rest>] and
    [ipfs://<identifier>/<rest>]; the output pathname begins with a slash
    and keeps the remainder verbatim; [None] is the failure [InvalidPath]. *)
Definition parse (path : string) : option Resource :=
  match bare_form path with
  | Some r => Some r
  | None =>
      match strip_prefix "/ipfs/" path with
      | Some s => bare_form s
      | None =>
          match strip_prefix "ipfs://" path with
          | Some s => bare_form s
          | None => None
          end
      end
  end.

End WithLibraries.

End PathResolver.

(** The name under which the client imports the resolver. *)
Abbreviation parseIpfsPath := PathResolver.parse.

(** ** The client: [StorachaClient]

    [initialize] memoises a promise in [this.initialized]; the promise is
    the one of the async arrow function of line 84, which suspends at
    [Storage.create] and at [addSpace].  The client object and the promises
    it created are kept in one store, so that two callers holding the same
    promise see the same settlement.  A call of [initialize] does not
    suspend before it has stored the promise (line 84 runs the arrow
    function up to its first [await], which starts [Storage.create]), so
    concurrent calls are interleavings of whole calls with the backend's
    settlements. *)

Module Client.

(** [StorageConfig]; signer and delegation are opaque tokens. *)
Record StorageConfig := mkConfig {
  signer : option string;
  delegation : option string;
  gatewayUrl : option URL
}.

(** The state of a promise of the line-84 function. *)
Inductive pstate :=
| AwaitingCreate                       (* suspended at [await Storage.create] *)
| AwaitingAddSpace                     (* suspended at [await addSpace] *)
| Fulfilled
| Rejected (message : string).

(** Calls made on the backend, in program order. *)
Inductive backend_call :=
| StorageCreate (principal : string)
| AddSpace (handle : nat) (proof : string)
| UploadDirectory (handle : nat) (files : list File) (retries : Z) (withPieceHasher : bool).

Record client := mkClient {
  config : StorageConfig;
  initialized : option nat;            (* [this.initialized]: a promise of [promises] *)
  storage : option nat;                (* [this.storage]: the backend handle *)
  promises : list pstate;
  calls : list backend_call
}.

(** What the backend does to a suspended initialization.  A rejection
    carries the [message] of the thrown [Error], or [None] when the thrown
    value is not an [Error]. *)
Inductive settlement :=
| CreateResolves (p : nat) (handle : nat)
| CreateRejects (p : nat) (message : option string)
| AddSpaceResolves (p : nat)
| AddSpaceRejects (p : nat) (message : option string).

Inductive action :=
| Initialize                           (* somebody calls [client.initialize()] *)
| Settle (s : settlement).

(** What a call of [initialize] hands back: it throws before any promise
    is made, or it returns the promise [this.initialized]. *)
Inductive init_result :=
| Threw (message : string)
| Shared (p : nat).

Section WithLibraries.
Context `{Runtime} `{Libraries}.

(** The constructor. *)
Definition new_client (cfg : StorageConfig) : client :=
  mkClient
    (mkConfig (signer cfg) (delegation cfg)
              (Some (default DEFAULT_GATEWAY_URL (gatewayUrl cfg))))
    None None [] [].

(** Lines 71-111. *)
Definition initialize (c : client) : client * init_result :=
  match initialized c with
  | Some p => (c, Shared p)
  | None =>
      match signer (config c) with
      | None => (c, Threw "Private key is required")
      | Some principal =>
          match delegation (config c) with
          | None => (c, Threw "Delegation is required")
          | Some _ =>
              let p := length (promises c) in
              (mkClient (config c) (Some p) (storage c)
                        (promises c ++ [AwaitingCreate])
                        (calls c ++ [StorageCreate principal]),
               Shared p)
          end
      end
  end.

(** The [catch] of lines 104-107. *)
Definition init_failure (message : option string) : pstate :=
  Rejected ("Failed to initialize storage client: " +:+ default "Unknown error" message).

Definition set_promise (c : client) (p : nat) (s : pstate) : list pstate :=
  <[p := s]> (promises c).

(** The continuation of the line-84 function when the backend settles. *)
Definition settle (c : client) (s : settlement) : client :=
  match s with
  | CreateResolves p handle =>
      match promises c !! p with
      | Some AwaitingCreate =>
          mkClient (config c) (initialized c) (Some handle)
                   (set_promise c p AwaitingAddSpace)
                   (calls c ++ [AddSpace handle (default "" (delegation (config c)))])
      | _ => c
      end
  | CreateRejects p message =>
      match promises c !! p with
      | Some AwaitingCreate =>
          mkClient (config c) (initialized c) (storage c)
                   (set_promise c p (init_failure message)) (calls c)
      | _ => c
      end
  | AddSpaceResolves p =>
      match promises c !! p with
      | Some AwaitingAddSpace =>
          mkClient (config c) (initialized c) (storage c)
                   (set_promise c p Fulfilled) (calls c)
      | _ => c
      end
  | AddSpaceRejects p message =>
      match promises c !! p with
      | Some AwaitingAddSpace =>
          mkClient (config c) (initialized c) (storage c)
                   (set_promise c p (init_failure message)) (calls c)
      | _ => c
      end
  end.

Definition step (c : client) (a : action) : client * list init_result :=
  match a with
  | Initialize => let '(c', r) := initialize c in (c', [r])
  | Settle s => (settle c s, [])
  end.

(** A run: the client after the actions, and what each [initialize] call
    returned, in call order. *)
Fixpoint run (c : client) (acts : list action) : client * list init_result :=
  match acts with
  | [] => (c, [])
  | a :: rest =>
      let '(c1, r1) := step c a in
      let '(c2, r2) := run c1 rest in
      (c2, (r1 ++ r2)%list)
  end.

(** What a caller awaiting the result of [initialize] observes. *)
Inductive outcome :=
| StillPending
| Succeeded
| Failed (message : string).

Definition observe (c : client) (r : init_result) : outcome :=
  match r with
  | Threw m => Failed m
  | Shared p =>
      match promises c !! p with
      | Some Fulfilled => Succeeded
      | Some (Rejected m) => Failed m
      | _ => StillPending
      end
  end.

(** The state [Ready] of the specification: initialization has completed
    successfully. *)
Definition ready (c : client) : bool :=
  match initialized c with
  | Some p => match promises c !! p with Some Fulfilled => true | _ => false end
  | None => false
  end.

(** [isConnected]. *)
Definition isConnected (c : client) : bool :=
  match initialized c with Some _ => true | None => false end.

(** [getGatewayUrl] ([None]: 'Gateway URL is not set'), [getStorage] and
    [getConfig]. *)
Definition getGatewayUrl (c : client) : option URL := gatewayUrl (config c).
Definition getStorage (c : client) : option nat := storage c.
Definition getConfig (c : client) : StorageConfig := config c.

Fixpoint count_create (l : list backend_call) : nat :=
  match l with
  | [] => 0
  | StorageCreate _ :: rest => S (count_create rest)
  | _ :: rest => count_create rest
  end.

Fixpoint count_addSpace (l : list backend_call) : nat :=
  match l with
  | [] => 0
  | AddSpace _ _ :: rest => S (count_addSpace rest)
  | _ :: rest => count_addSpace rest
  end.

Fixpoint count_upload (l : list backend_call) : nat :=
  match l with
  | [] => 0
  | UploadDirectory _ _ _ _ :: rest => S (count_upload rest)
  | _ :: rest => count_upload rest
  end.

(** [UploadOptions]; [signal] is the [aborted] flag of [options.signal]
    when a signal is given. *)
Record UploadOptions := mkOptions {
  signal : option bool;
  retries : option Z;
  publishToFilecoin : option bool
}.

(** [UploadFile]. *)
Record UploadFile := mkUploadFile {
  upload_name : string;
  content : string
}.

(** [UploadResult]. *)
Record UploadResult := mkUploadResult {
  root : string;
  url : URL;
  files : gmap string string
}.

Inductive upload_error :=
| NotInitialized                         (* 'Client not initialized' *)
| UploadAborted                          (* 'Upload aborted' *)
| InvalidEncoding                        (* [base64ToBytes] throws *)
| FetchError (e : UrlFetch.error)        (* [fetchFileFromUrl] rejects *)
| NullStorage                            (* [this.storage!] on [null] *)
| BackendError (message : string)        (* [uploadDirectory] rejects *)
| GatewayUrlNotSet                       (* 'Gateway URL is not set' *)
| InvalidResultUrl.                      (* [new URL(..)] throws *)

(** The backend's answer to [uploadDirectory]: the entries it reports
    through [onDirectoryEntryLink], then the root or a rejection. *)
Record upload_reply := mkReply {
  entries : list (option string * string);
  result : string + string
}.

(** The callback of lines 359-363, folded over the reported entries. *)
Definition onDirectoryEntryLink (uploadedFiles : gmap string string)
    (entry : option string * string) : gmap string string :=
  match fst entry with
  | Some name => if JS.truthy_string name then <[name := snd entry]> uploadedFiles
                 else uploadedFiles
  | None => uploadedFiles
  end.

(** Lines 351-371. *)
Definition performUpload (c : client) (fileObjects : list File) (options : UploadOptions)
    (reply : upload_reply) : client * (upload_error + UploadResult) :=
  match storage c with
  | None => (c, inl NullStorage)
  | Some handle =>
      let c' := mkClient (config c) (initialized c) (storage c) (promises c)
                  (calls c ++ [UploadDirectory handle fileObjects
                                 (default 3 (retries options))
                                 (if publishToFilecoin options is Some true then true else false)]) in
      let uploadedFiles := fold_left onDirectoryEntryLink (entries reply) ∅ in
      match result reply with
      | inl message => (c', inl (BackendError message))
      | inr root =>
          match getGatewayUrl c with
          | None => (c', inl GatewayUrlNotSet)
          | Some base =>
              match resolveURL ("/ipfs/" +:+ root) base with
              | None => (c', inl InvalidResultUrl)
              | Some u => (c', inr (mkUploadResult root u uploadedFiles))
              end
          end
      end
  end.

(** [files.map(file => new File([base64ToBytes(file.content)], file.name))]. *)
Fixpoint decodeFiles (files : list UploadFile) : option (list File) :=
  match files with
  | [] => Some []
  | f :: rest =>
      match base64ToBytes (content f), decodeFiles rest with
      | Some bytes, Some fs => Some (mkFile (upload_name f) bytes "" :: fs)
      | _, _ => None
      end
  end.

(** Lines 156-171. *)
Definition uploadFiles (c : client) (files : list UploadFile) (options : UploadOptions)
    (reply : upload_reply) : client * (upload_error + UploadResult) :=
  match initialized c, storage c with
  | Some _, Some _ =>
      if default false (signal options) then (c, inl UploadAborted)
      else match decodeFiles files with
           | Some fileObjects => performUpload c fileObjects options reply
           | None => (c, inl InvalidEncoding)
           end
  | _, _ => (c, inl NotInitialized)
  end.

(** [Promise.all(files.map(fileSpec => this.fetchFileFromUrl(..)))]: the
    fetches are independent of each other, [net i] being the schedule of
    the server of the [i]-th file.  All succeed, and the files are in list
    order, or one is rejected and so is the whole.  When several fetches
    are rejected, [Promise.all] rejects with the rejection that happens
    first in time; the schedules do not order the events of different
    fetches, and the rejection taken here is the first in list order, as
    it is when the fetches settle in list order.  What is proved of a
    rejected upload is that its error is the rejection of one of the
    files, which holds for either choice. *)
Fixpoint fetchAll (files : list JsObject) (urlConfig : option UrlUploadConfig)
    (sig : option bool) (net : nat -> UrlFetch.server) (i : nat)
    : UrlFetch.error + list File :=
  match files with
  | [] => inr []
  | fileSpec :: rest =>
      match snd (UrlFetch.fetchFileFromUrl fileSpec urlConfig sig (net i)) with
      | inl e => inl e
      | inr file =>
          match fetchAll rest urlConfig sig net (S i) with
          | inl e => inl e
          | inr fs => inr (file :: fs)
          end
      end
  end.

(** Lines 179-201. *)
Definition uploadFilesFromUrls (c : client) (files : list JsObject) (options : UploadOptions)
    (urlConfig : option UrlUploadConfig) (net : nat -> UrlFetch.server)
    (reply : upload_reply) : client * (upload_error + UploadResult) :=
  match initialized c, storage c with
  | Some _, Some _ =>
      if default false (signal options) then (c, inl UploadAborted)
      else match fetchAll files urlConfig (signal options) net 0 with
           | inr fileObjects => performUpload c fileObjects options reply
           | inl e => (c, inl (FetchError e))
           end
  | _, _ => (c, inl NotInitialized)
  end.

(** *** Retrieval *)

Record RetrieveOptions := mkRetrieveOptions {
  useMultiformatBase64 : option bool
}.

Record RetrieveResult := mkRetrieveResult {
  data : string;
  type : option string
}.

Inductive retrieve_error :=
| InvalidPath (path : string)                      (* [parseIpfsPath] throws *)
| NoGatewayUrl                                     (* 'Gateway URL is not set' *)
| InvalidRequestUrl                                (* [new URL(..)] throws *)
| FetchRejected (name message : string)            (* [fetch] rejects *)
| GatewayError (status : Z) (statusText : string)  (* 'Error fetching file: ..' *)
| BodyRejected                                     (* [arrayBuffer()] rejects *)
| ArchiveMalformed                                 (* [CarReader.fromBytes] throws *)
| BlockNotFound (cid : string)                     (* 'not found: <cid>' *)
| ExporterError (message : string).

(** The gateway's answer to a GET: a response, whose body is what
    [arrayBuffer()] resolves to ([None] when it rejects), or a rejection. *)
Record gateway_response := mkGatewayResponse {
  g_status : Z;
  g_statusText : string;
  g_headers : gmap string string;
  g_body : option (list byte)
}.

Inductive gateway_outcome :=
| GatewayResponds (r : gateway_response)
| GatewayFails (name message : string).

Definition g_ok (r : gateway_response) : bool :=
  (200 <=? g_status r) && (g_status r <=? 299).

(** The blockstore handed to the exporter, lines 396-400. *)
Definition blockstore_get (reader : gmap string (list byte)) (cid : string)
    : retrieve_error + list byte :=
  match reader !! cid with
  | Some block => inr block
  | None => inl (BlockNotFound cid)
  end.

(** The exporter's walk against that blockstore, draining [entry.content()]
    as [streamToBase64] does: [acc] is what has been emitted so far. *)
Fixpoint export (w : walker) (reader : gmap string (list byte)) (acc : list byte)
    : retrieve_error + list byte :=
  match w with
  | Need cid k =>
      match blockstore_get reader cid with
      | inr bytes => export (k bytes) reader acc
      | inl e => inl e
      end
  | Emit chunk k => export k reader (acc ++ chunk)
  | Stop => inr acc
  | Crash m => inl (ExporterError m)
  end.

(** Lines 380-412.  [gateway] answers the request for a URL; the first
    component of the result lists the URLs requested. *)
Definition retrieve (c : client) (filepath : string) (options : option RetrieveOptions)
    (gateway : URL -> gateway_outcome) : list URL * (retrieve_error + RetrieveResult) :=
  match parseIpfsPath filepath with
  | None => ([], inl (InvalidPath filepath))
  | Some resource =>
      let pathWithCid := PathResolver.cid resource +:+ PathResolver.pathname resource in
      match getGatewayUrl c with
      | None => ([], inl NoGatewayUrl)
      | Some base =>
          match resolveURL ("/ipfs/" +:+ pathWithCid +:+ "?format=car") base with
          | None => ([], inl InvalidRequestUrl)
          | Some target =>
              ([target],
               match gateway target with
               | GatewayFails n m => inl (FetchRejected n m)
               | GatewayResponds response =>
                   if negb (g_ok response)
                   then inl (GatewayError (g_status response) (g_statusText response))
                   else
                     match g_body response with
                     | None => inl BodyRejected
                     | Some bytes =>
                         match decodeCar bytes with
                         | None => inl ArchiveMalformed
                         | Some reader =>
                             match export (exporter pathWithCid) reader [] with
                             | inl e => inl e
                             | inr content =>
                                 let useMultiformatBase64 :=
                                   default false (options ≫= useMultiformatBase64) in
                                 let contentType := g_headers response !! "content-type" in
                                 inr (mkRetrieveResult
                                        (streamToBase64 content useMultiformatBase64)
                                        (JS.or_string contentType None))
                             end
                         end
                     end
               end)
          end
      end
  end.

End WithLibraries.

End Client.

(** ** Where the policy comes from: config.ts and the upload tool *)

(** [String.prototype.trim], taken as an interface like [toLowerCase]. *)
Class Trimming := {
  trim : string -> string
}.

Module Config.

(** [loadConfig], lines 16 and 45-47: [MAX_URL_FILE_SIZE] is read with
    [parseInt(.. || '1073741824', 10)] and rejected when it is [NaN] or
    negative; [0] is accepted. *)
Definition loadMaxUrlFileSizeBytes (env : option string) : string + Z :=
  match JS.parseInt10 (default "1073741824" (JS.or_string env (Some "1073741824"))) with
  | None => inl "Invalid max URL file size"
  | Some n => if n <? 0 then inl "Invalid max URL file size" else inr n
  end.

(** [loadConfig], lines 21 and 49-51, for [URL_FETCH_TIMEOUT]. *)
Definition loadUrlFetchTimeoutMs (env : option string) : string + Z :=
  match JS.parseInt10 (default "300000" (JS.or_string env (Some "300000"))) with
  | None => inl "Invalid URL fetch timeout"
  | Some n => if n <? 0 then inl "Invalid URL fetch timeout" else inr n
  end.

(** [McpServerConfig] of types.ts; the last five fields are those the
    upload tool copies. *)
Record McpServerConfig := mkServerConfig {
  connectionTimeoutMs : Z;
  transportMode : string;
  port : Z;
  host : string;
  maxFileSizeBytes : Z;
  endpoint : option string;
  server_maxUrlFileSizeBytes : Z;
  server_allowedUrlSchemes : list string;
  server_urlFetchTimeoutMs : Z;
  server_allowAllUrlDomains : bool;
  server_allowedUrlDomains : option (list string)
}.

(** The upload tool, lines 122-132: the [urlConfig] it passes to
    [uploadFilesFromUrls] is [undefined] unless a server configuration was
    given. *)
Definition toolUrlConfig (serverConfig : option McpServerConfig) : option UrlUploadConfig :=
  match serverConfig with
  | Some s =>
      Some (mkUrlUploadConfig (server_maxUrlFileSizeBytes s) (server_allowedUrlSchemes s)
              (server_urlFetchTimeoutMs s) (server_allowAllUrlDomains s)
              (server_allowedUrlDomains s))
  | None => None
  end.

(** [a || b] where [b] is a string literal. *)
Definition or_else (a : option string) (b : string) : string :=
  match a with
  | Some s => if JS.truthy_string s then s else b
  | None => b
  end.

(** [s.split(sep)] for a separator of one code unit: the pieces between
    the separators, at least one piece. *)
Fixpoint split (sep : ascii) (s : string) : list string :=
  match s with
  | EmptyString => [EmptyString]
  | String c rest =>
      if decide (c = sep) then EmptyString :: split sep rest
      else match split sep rest with
           | piece :: pieces => String c piece :: pieces
           | [] => [String c EmptyString]
           end
  end.

(** [.split(',').map(s => s.trim()).filter(s => s.length > 0)]. *)
Definition list_of `{Trimming} (s : string) : list string :=
  List.filter JS.truthy_string (map trim (split "," s)).

(** [validSchemes], line 58. *)
Definition validSchemes : list string := ["http"; "https"; "ftp"; "ftps"].

(** The loop of lines 59-63: the first scheme that is not valid, if any. *)
Fixpoint invalidScheme (schemes : list string) : option string :=
  match schemes with
  | [] => None
  | scheme :: rest =>
      if JS.includes validSchemes scheme then invalidScheme rest else Some scheme
  end.

(** A number read with [parseInt] and validated: [isNaN(n) || bad n]
    throws [message], otherwise the rest of the function runs with [n]. *)
Definition checked {A} (n : option Z) (bad : Z -> bool) (message : string)
    (k : Z -> string + A) : string + A :=
  match n with
  | Some z => if bad z then inl message else k z
  | None => inl message
  end.

(** [loadConfig], lines 6-79.  [params] stands for [getParamValue] of the
    SDK and [env] for [process.env]; the result is the thrown message or the
    configuration.  The numbers are exact integers: above 2^53 [parseInt]
    rounds, which changes none of the comparisons made here. *)
Definition loadConfig `{Runtime} `{Trimming} (params : string -> option string)
    (env : gmap string string) : string + McpServerConfig :=
  let port :=
    JS.parseInt10 (or_else (params "port") (or_else (env !! "MCP_SERVER_PORT") "3001")) in
  let host := or_else (trim <$> env !! "MCP_SERVER_HOST") "0.0.0.0" in
  let connectionTimeoutMs :=
    JS.parseInt10 (or_else (env !! "MCP_CONNECTION_TIMEOUT") "30000") in
  let transportMode :=
    or_else (params "transportMode")
      (or_else (trim <$> env !! "MCP_TRANSPORT_MODE") "stdio") in
  let maxFileSizeBytes := JS.parseInt10 (or_else (env !! "MAX_FILE_SIZE") "104857600") in
  let endpoint :=
    or_else (params "endpoint") (or_else (trim <$> env !! "MCP_ENDPOINT") "/rest") in
  let maxUrlFileSizeBytes :=
    JS.parseInt10 (or_else (env !! "MAX_URL_FILE_SIZE") "1073741824") in
  let allowedUrlSchemes := list_of (or_else (env !! "ALLOWED_URL_SCHEMES") "https,http") in
  let urlFetchTimeoutMs := JS.parseInt10 (or_else (env !! "URL_FETCH_TIMEOUT") "300000") in
  let allowAllUrlDomains :=
    match env !! "ALLOW_ALL_URL_DOMAINS" with
    | Some v => bool_decide (toLowerCase v = "true")
    | None => false
    end in
  let allowedUrlDomains :=
    match env !! "ALLOWED_URL_DOMAINS" with
    | Some v => if JS.truthy_string v then Some (list_of v) else None
    | None => None
    end in
  checked port (fun n => (n <? 0) || (n >? 65535)) "Invalid port number" (fun port =>
  checked connectionTimeoutMs (fun n => n <? 0) "Invalid connection timeout"
    (fun connectionTimeoutMs =>
  if negb (bool_decide (transportMode = "stdio")
           || bool_decide (transportMode = "sse")
           || bool_decide (transportMode = "rest"))
  then inl "Invalid transport mode"
  else
  checked maxFileSizeBytes (fun n => n <? 0) "Invalid max file size" (fun maxFileSizeBytes =>
  checked maxUrlFileSizeBytes (fun n => n <? 0) "Invalid max URL file size"
    (fun maxUrlFileSizeBytes =>
  checked urlFetchTimeoutMs (fun n => n <? 0) "Invalid URL fetch timeout"
    (fun urlFetchTimeoutMs =>
  if bool_decide (allowedUrlSchemes = [])
  then inl "At least one URL scheme must be allowed"
  else
    match invalidScheme allowedUrlSchemes with
    | Some scheme =>
        inl ("Invalid URL scheme: " +:+ scheme +:+ ". Allowed schemes: "
             +:+ JS.join ", " validSchemes)
    | None =>
        inr (mkServerConfig connectionTimeoutMs transportMode port host
               maxFileSizeBytes (Some (or_else (Some endpoint) "/"))
               maxUrlFileSizeBytes allowedUrlSchemes urlFetchTimeoutMs
               allowAllUrlDomains allowedUrlDomains)
    end))))).

End Config.

(** ** The upload tool: [uploadTool(storageConfig, serverConfig).handler]

    [parseDelegation] of ./utils.js is taken as an interface ([None]: it
    throws).  The handler's result is kept as a value: the rendering of the
    upload result with [dagJSON.stringify] and of the caught error with
    [JSON.stringify] is not modelled. *)

Class Delegations := {
  parseDelegation : string -> option string
}.

Module UploadTool.

(** The input the schema infers. *)
Record input := mkInput {
  file : option string;
  url : option string;
  name : string;
  delegation : option string;
  gatewayUrl : option string;
  publishToFilecoin : option bool;
  mimeType : option string
}.

(** [!!x] for an optional string. *)
Definition given (x : option string) : bool :=
  match x with Some s => JS.truthy_string s | None => false end.

(** The refinement of the schema, lines 62-73: [hasFile !== hasUrl]. *)
Definition exactlyOne (i : input) : bool := negb (eqb (given (file i)) (given (url i))).

(** How the backend answers the calls of one handler run: [Storage.create]
    resolves to a handle or rejects; [addSpace] resolves ([None]) or
    rejects; the servers of the URL fetches; the answer to
    [uploadDirectory]. *)
Record backend := mkBackend {
  create_outcome : option string + nat;
  addSpace_outcome : option (option string);
  net : nat -> UrlFetch.server;
  reply : Client.upload_reply
}.

Inductive tool_error :=
| DelegationRequired                       (* line 84 *)
| DelegationInvalid                        (* [parseDelegation] throws *)
| GatewayUrlInvalid                        (* [new URL(input.gatewayUrl)] throws *)
| InitializeFailed (message : string)      (* [client.initialize()] rejects *)
| UploadFailed (e : Client.upload_error)   (* the upload method rejects *)
| NothingToUpload.                         (* line 144 *)

Inductive result :=
| Returned (r : Client.UploadResult)       (* the [return] of line 147 *)
| Caught (e : tool_error)                  (* the [catch] of line 159 *)
| Suspended.                               (* an awaited promise never settles *)

Section WithLibraries.
Context `{Runtime} `{Libraries} `{Delegations}.

(** The checks of the schema on [file], lines 10-27: when it is present it
    is not empty and [base64ToBytes] does not throw on it. *)
Definition fileAccepted (file : option string) : bool :=
  match file with
  | Some s => negb (bool_decide (s = "")) && bool_decide (is_Some (base64ToBytes s))
  | None => true
  end.

(** What the schema checks of an input, but for the format of [url]
    ([z.string().url()] is not modelled). *)
Definition accepted (i : input) : bool := fileAccepted (file i) && exactlyOne i.

(** [await client.initialize()] on a client, with the backend's answers
    delivered in order. *)
Definition awaitInitialize (c : Client.client) (b : backend)
    : Client.client * Client.outcome :=
  match Client.initialize c with
  | (c1, Client.Threw m) => (c1, Client.Failed m)
  | (c1, Client.Shared p) =>
      let c2 :=
        match create_outcome b with
        | inr handle =>
            Client.settle (Client.settle c1 (Client.CreateResolves p handle))
              match addSpace_outcome b with
              | None => Client.AddSpaceResolves p
              | Some m => Client.AddSpaceRejects p m
              end
        | inl m => Client.settle c1 (Client.CreateRejects p m)
        end in
      (c2, Client.observe c2 (Client.Shared p))
  end.

(** Lines 98-145: the upload proper, on the initialized client. *)
Definition upload (c : Client.client) (serverConfig : option Config.McpServerConfig)
    (i : input) (b : backend) : Client.client * result :=
  let options :=
    Client.mkOptions None (Some 3) (Some (default false (publishToFilecoin i))) in
  if given (file i) then
    match Client.uploadFiles c [Client.mkUploadFile (name i) (default "" (file i))]
            options (reply b) with
    | (c', inr r) => (c', Returned r)
    | (c', inl e) => (c', Caught (UploadFailed e))
    end
  else if given (url i) then
    match Client.uploadFilesFromUrls c
            [urlUploadFile (name i) (default "" (url i)) (mimeType i)]
            options (Config.toolUrlConfig serverConfig) (net b) (reply b) with
    | (c', inr r) => (c', Returned r)
    | (c', inl e) => (c', Caught (UploadFailed e))
    end
  else (c, Caught NothingToUpload).

(** Lines 89-158: the client is built, initialized and used.  The first
    component lists the calls made on the backend. *)
Definition session (config : Client.StorageConfig)
    (serverConfig : option Config.McpServerConfig) (i : input) (b : backend)
    : list Client.backend_call * result :=
  match awaitInitialize (Client.new_client config) b with
  | (c, Client.Failed m) => (Client.calls c, Caught (InitializeFailed m))
  | (c, Client.StillPending) => (Client.calls c, Suspended)
  | (c, Client.Succeeded) =>
      let '(c', r) := upload c serverConfig i b in (Client.calls c', r)
  end.

(** Lines 80-194. *)
Definition handler (storageConfig : Client.StorageConfig)
    (serverConfig : option Config.McpServerConfig) (i : input) (b : backend)
    : list Client.backend_call * result :=
  if negb (given (delegation i)) && negb (bool_decide (is_Some (Client.delegation storageConfig)))
  then ([], Caught DelegationRequired)
  else
    match (if given (delegation i) then
             match parseDelegation (default "" (delegation i)) with
             | Some d => inr (Some d)
             | None => inl DelegationInvalid
             end
           else inr (Client.delegation storageConfig)) with
    | inl e => ([], Caught e)
    | inr proof =>
        match (if given (gatewayUrl i) then
                 match parseURL (default "" (gatewayUrl i)) with
                 | Some u => inr (Some u)
                 | None => inl GatewayUrlInvalid
                 end
               else inr (Client.gatewayUrl storageConfig)) with
        | inl e => ([], Caught e)
        | inr gateway =>
            session (Client.mkConfig (Client.signer storageConfig) proof gateway)
              serverConfig i b
        end
    end.

End WithLibraries.

End UploadTool.

(** ** A small concrete platform, for running the embedding on examples

    [Example.runtime] parses URLs of the form [scheme://host[:port][/...]]
    and folds ASCII case; [Example.libraries] has base-64, a CID check on
    the text, a toy archive framing (records [id:payload] separated by
    semicolons) and a two-level exporter (the root block lists one-letter
    links, each link is a leaf).  Every theorem of Part II is stated for an
    arbitrary platform; this one only instantiates them. *)

Module Example.

Definition lower_ascii (c : ascii) : ascii :=
  let n := nat_of_ascii c in
  if ((65 <=? n) && (n <=? 90))%nat then ascii_of_nat (n + 32) else c.

Fixpoint lower (s : string) : string :=
  match s with
  | EmptyString => EmptyString
  | String c rest => String (lower_ascii c) (lower rest)
  end.

(** [s] cut at the first character satisfying [stop]. *)
Fixpoint span (stop : ascii -> bool) (s : string) : string * string :=
  match s with
  | EmptyString => (EmptyString, EmptyString)
  | String c rest =>
      if stop c then (EmptyString, s)
      else let '(a, b) := span stop rest in (String c a, b)
  end.

Definition is_char (x : ascii) (c : ascii) : bool :=
  if decide (c = x) then true else false.

Definition ends_authority (c : ascii) : bool :=
  is_char "/" c || is_char "?" c || is_char "#" c.

(** Scheme, authority and the rest of [scheme://authority/rest]. *)
Definition url_parts (s : string) : option (string * string * string) :=
  match span (is_char ":") s with
  | (EmptyString, _) => None
  | (scheme, String _ after) =>
      match PathResolver.strip_prefix "//" after with
      | Some t =>
          match span ends_authority t with
          | (EmptyString, _) => None
          | (authority, rest) => Some (scheme, authority, rest)
          end
      | None => None
      end
  | (_, EmptyString) => None
  end.

(** The part of an authority after its user information: what follows
    the last [@], if there is one. *)
Fixpoint after_at (s : string) : option string :=
  match s with
  | EmptyString => None
  | String c rest =>
      match after_at rest with
      | Some t => Some t
      | None => if is_char "@" c then Some rest else None
      end
  end.

Definition parse_url (s : string) : option URL :=
  match url_parts s with
  | Some (scheme, authority, _) =>
      match span (is_char ":") (default authority (after_at authority)) with
      | (EmptyString, _) => None
      | (host, _) => Some (mkURL (lower scheme +:+ ":") (lower host) s)
      end
  | None => None
  end.

(** Resolution of a reference that starts with a slash: the base's origin
    followed by the reference. *)
Definition resolve_url (reference : string) (base : URL) : option URL :=
  match url_parts (href base) with
  | Some (scheme, authority, _) =>
      if JS.startsWith reference "/"
      then parse_url (lower scheme +:+ "://" +:+ authority +:+ reference)
      else None
  | None => None
  end.

#[export] Instance runtime : Runtime := {|
  parseURL := parse_url;
  resolveURL := resolve_url;
  toLowerCase := lower
|}.

(** Base-64 (RFC 4648 alphabet, [=] padding). *)
Definition sextet (c : ascii) : option Z :=
  let n := Z.of_nat (nat_of_ascii c) in
  if (65 <=? n) && (n <=? 90) then Some (n - 65)
  else if (97 <=? n) && (n <=? 122) then Some (n - 71)
  else if (48 <=? n) && (n <=? 57) then Some (n + 4)
  else if n =? 43 then Some 62
  else if n =? 47 then Some 63
  else None.

Definition byte_of_Z (z : Z) : byte :=
  default x00 (Byte.of_N (Z.to_N (z mod 256))).

Fixpoint decode64 (s : string) (acc nbits : Z) : option (list byte) :=
  match s with
  | EmptyString => Some []
  | String c rest =>
      if is_char "=" c then Some []
      else
        match sextet c with
        | None => None
        | Some v =>
            let acc := acc * 64 + v in
            let nbits := nbits + 6 in
            if 8 <=? nbits then
              cons (byte_of_Z (Z.shiftr acc (nbits - 8)))
                <$> decode64 rest (Z.land acc (Z.ones (nbits - 8))) (nbits - 8)
            else decode64 rest acc nbits
        end
  end.

Definition alphabet (v : Z) : ascii :=
  ascii_of_nat (Z.to_nat
    (if v <? 26 then v + 65 else if v <? 52 then v + 71 else if v <? 62 then v - 4
     else if v =? 62 then 43 else 47)).

Definition Z_of_byte (b : byte) : Z := Z.of_N (Byte.to_N b).

Fixpoint encode64 (pad : bool) (bytes : list byte) : string :=
  match bytes with
  | [] => ""
  | [a] =>
      let n := Z_of_byte a in
      String (alphabet (Z.shiftr n 2))
        (String (alphabet (Z.land (Z.shiftl n 4) 63)) (if pad then "==" else ""))
  | [a; b] =>
      let n := Z_of_byte a * 256 + Z_of_byte b in
      String (alphabet (Z.shiftr n 10))
        (String (alphabet (Z.land (Z.shiftr n 4) 63))
           (String (alphabet (Z.land (Z.shiftl n 2) 63)) (if pad then "=" else "")))
  | a :: b :: c :: rest =>
      let n := (Z_of_byte a * 256 + Z_of_byte b) * 256 + Z_of_byte c in
      String (alphabet (Z.shiftr n 18))
        (String (alphabet (Z.land (Z.shiftr n 12) 63))
           (String (alphabet (Z.land (Z.shiftr n 6) 63))
              (String (alphabet (Z.land n 63)) (encode64 pad rest))))
  end.

Definition is_alnum (c : ascii) : bool :=
  let n := nat_of_ascii c in
  (((48 <=? n) && (n <=? 57)) || ((65 <=? n) && (n <=? 90)) || ((97 <=? n) && (n <=? 122)))%nat.

Fixpoint all_chars (p : ascii -> bool) (s : string) : bool :=
  match s with
  | EmptyString => true
  | String c rest => p c && all_chars p rest
  end.

Definition parse_cid (s : string) : option string :=
  if (JS.startsWith s "bafy" || JS.startsWith s "Qm") && all_chars is_alnum s
  then Some s else None.

(** The toy archive: [id:payload;id:payload;...]. *)
Fixpoint records (fuel : nat) (s : string) : option (gmap string (list byte)) :=
  match fuel with
  | O => None
  | S fuel' =>
      match s with
      | EmptyString => Some ∅
      | _ =>
          let '(record, rest) := span (is_char ";") s in
          match span (is_char ":") record with
          | (id, String _ payload) =>
              let rest' := match rest with String _ r => r | EmptyString => EmptyString end in
              (fun m => <[id := list_byte_of_string payload]> m) <$> records fuel' rest'
          | (_, EmptyString) => None
          end
      end
  end.

Definition decode_car (bytes : list byte) : option (gmap string (list byte)) :=
  records (S (length bytes)) (string_of_list_byte bytes).

(** The toy DAG: the root block is a list of one-letter links to leaves. *)
Fixpoint read_links (links : list byte) : walker :=
  match links with
  | [] => Stop
  | l :: rest =>
      Need (string_of_list_byte [l]) (fun leaf => Emit leaf (read_links rest))
  end.

Definition toy_exporter (path : string) : walker :=
  Need (fst (span (is_char "/") path)) read_links.

#[export] Instance libraries : Libraries := {|
  base64ToBytes := fun s => decode64 s 0 0;
  streamToBase64 := fun bytes multiformat =>
    if multiformat then "m" +:+ encode64 false bytes else encode64 true bytes;
  DEFAULT_GATEWAY_URL := mkURL "https:" "storacha.link" "https://storacha.link";
  parseCID := parse_cid;
  decodeCar := decode_car;
  exporter := toy_exporter
|}.

(** Sample data: a successful response with the given headers whose body
    arrives in the given chunks, a server that answers both requests at
    once, and a policy for [https] from any domain. *)
Definition response (hdrs : list (string * string)) (chunks : list string)
    : UrlFetch.Response :=
  UrlFetch.mkResponse 200 "OK" (list_to_map hdrs)
    (Some (UrlFetch.mkStream
             (map (λ chunk, ([], UrlFetch.Chunk (list_byte_of_string chunk))) chunks) [])).

Definition server (head get : UrlFetch.Response) : UrlFetch.server :=
  UrlFetch.mkServer [] (UrlFetch.Responds head) [] (UrlFetch.Responds get).

Definition policy (maxBytes timeoutMs : Z) : UrlUploadConfig :=
  mkUrlUploadConfig maxBytes ["https"] timeoutMs true None.

Definition example_url : URL :=
  mkURL "https:" "example.com" "https://example.com/a.bin".

(** ASCII white space removed at both ends, and the identity as the
    delegation parser. *)
Fixpoint trim_left (s : string) : string :=
  match s with
  | String c rest => if JS.is_white c then trim_left rest else s
  | EmptyString => EmptyString
  end.

Definition trim_both (s : string) : string :=
  String.rev (trim_left (String.rev (trim_left s))).

#[export] Instance trimming : Trimming := {| trim := trim_both |}.

#[export] Instance delegations : Delegations := {|
  parseDelegation := fun s => if JS.startsWith s "proof:" then Some s else None
|}.

End Example.

(** ** Vocabulary of the statements of Part II *)

Module Spec.

Import Client.

(** What every call of [initialize] returns on a client built from [cfg]:
    the missing-credential error, or the one shared promise. *)
Definition expected (cfg : StorageConfig) : init_result :=
  match signer cfg with
  | None => Threw "Private key is required"
  | Some _ =>
      match delegation cfg with
      | None => Threw "Delegation is required"
      | Some _ => Shared 0
      end
  end.

(** The invariant of a client built from [cfg]: either nothing has been
    committed, or exactly one promise exists, one connection was made, and
    the space delegation was set up at most once, according to the stage. *)
Definition init_inv (cfg : StorageConfig) (c : client) : Prop :=
  signer (config c) = signer cfg ∧ delegation (config c) = delegation cfg ∧
  match initialized c with
  | None => promises c = [] ∧ calls c = [] ∧ storage c = None
  | Some p =>
      p = 0%nat ∧ is_Some (signer cfg) ∧ is_Some (delegation cfg) ∧
      count_create (calls c) = 1%nat ∧ count_upload (calls c) = 0%nat ∧
      ∃ s, promises c = [s] ∧
           match s with
           | AwaitingCreate => count_addSpace (calls c) = 0%nat ∧ storage c = None
           | AwaitingAddSpace | Fulfilled =>
               count_addSpace (calls c) = 1%nat ∧ is_Some (storage c)
           | Rejected _ => (count_addSpace (calls c) ≤ 1)%nat
           end
  end.

(** The stages of the line-84 function, by the backend calls made so far.
    [connecting]: [Storage.create] was called with the signer and has not
    resolved, so that no handle is stored and no delegation was set up.
    [connected_by h]: [Storage.create] resolved with the handle [h], which
    is stored, and [addSpace] was called on it with the delegation; these
    are the two calls made, in this order. *)
Definition connecting (cfg : StorageConfig) (c : client) : Prop :=
  ∃ principal, signer cfg = Some principal ∧ is_Some (delegation cfg) ∧
    storage c = None ∧ calls c = [StorageCreate principal].

Definition connected_by (cfg : StorageConfig) (c : client) (h : nat) : Prop :=
  ∃ principal proof, signer cfg = Some principal ∧ delegation cfg = Some proof ∧
    storage c = Some h ∧ calls c = [StorageCreate principal; AddSpace h proof].

(** The invariant [init_inv] with the calls themselves in place of their
    counts. *)
Definition setup_inv (cfg : StorageConfig) (c : client) : Prop :=
  signer (config c) = signer cfg ∧ delegation (config c) = delegation cfg ∧
  match initialized c with
  | None => promises c = [] ∧ calls c = [] ∧ storage c = None
  | Some p =>
      p = 0%nat ∧
      ∃ s, promises c = [s] ∧
           match s with
           | AwaitingCreate => connecting cfg c
           | AwaitingAddSpace | Fulfilled => ∃ h, connected_by cfg c h
           | Rejected _ => connecting cfg c ∨ ∃ h, connected_by cfg c h
           end
  end.

(** The message with which the promise of [initialize] is rejected when
    the backend rejects with [reason] (lines 104-107). *)
Definition failure_message (reason : option string) : string :=
  "Failed to initialize storage client: " +:+ default "Unknown error" reason.

(** The allow-list rule of the specification: the list contains, up to
    case, the host itself or a domain of which the host is a subdomain,
    i.e. the host ends with a dot followed by that domain. *)
Definition host_allowed `{Runtime} (host : string) (domains : list string) : Prop :=
  ∃ d, d ∈ domains ∧
       (toLowerCase host = toLowerCase d ∨
        ∃ sub, toLowerCase host = sub +:+ "." +:+ toLowerCase d).

Import UrlFetch.

(** Does the event [e] abort the signal the requests listen on?  With a
    caller's signal the requests listen on that signal only; without one
    they listen on the controller, which only an armed timer aborts. *)
Definition cancels (urlConfig : option UrlUploadConfig) (signal : option bool)
    (e : async_event) : bool :=
  match signal, e with
  | Some _, ExternalFires => true
  | None, TimerFires => armed urlConfig
  | _, _ => false
  end.

(** No event of [evs] aborts the requests. *)
Definition calm (urlConfig : option UrlUploadConfig) (signal : option bool)
    (evs : list async_event) : Prop :=
  Forall (λ e, cancels urlConfig signal e = false) evs.

(** The events scheduled while the body of a response is read. *)
Definition body_events (o : fetch_outcome) : list async_event :=
  match o with
  | Responds r =>
      match body r with
      | Some s => (concat (map fst (reads s)) ++ done_pending s)%list
      | None => []
      end
  | NetworkFails _ _ => []
  end.

(** All the events of a server's schedule. *)
Definition schedule (srv : server) : list async_event :=
  (head_pending srv ++ get_pending srv ++ body_events (get_outcome srv))%list.

(** The chunks a stream delivers, when every read delivers one. *)
Fixpoint payload (rs : list (list async_event * read_outcome)) : option (list (list byte)) :=
  match rs with
  | [] => Some []
  | (_, Chunk value) :: rest => cons value <$> payload rest
  | (_, ReadFails _ _) :: _ => None
  end.

(** Bytes delivered by the reader, bytes kept in [chunks], and the size of
    the chunk delivered last, as recorded in a trace. *)
Fixpoint received (tr : list io) : Z :=
  match tr with
  | [] => 0
  | ReadChunk len :: rest => len + received rest
  | _ :: rest => received rest
  end.

Fixpoint pushed (tr : list io) : Z :=
  match tr with
  | [] => 0
  | Push len :: rest => len + pushed rest
  | _ :: rest => pushed rest
  end.

Definition last_read (tr : list io) : Z :=
  fold_left (λ acc e, match e with ReadChunk len => len | _ => acc end) tr 0.

(** The bound of the specification on what is held at a point of the
    execution: the kept chunks fit in [max]; together with the chunk in
    flight they exceed it by at most that chunk. *)
Definition within (max : Z) (tr : list io) : Prop :=
  pushed tr ≤ max ∧ received tr ≤ max + last_read tr.

(** The precedence of the specification for the MIME type: the override
    when there is a non-empty one, else the declared content type when
    there is a non-empty one, else the default. *)
Definition effective_type (override declared : option string) : string :=
  match override with
  | Some m => if decide (m = "") then
                match declared with
                | Some t => if decide (t = "") then "application/octet-stream" else t
                | None => "application/octet-stream"
                end
              else m
  | None =>
      match declared with
      | Some t => if decide (t = "") then "application/octet-stream" else t
      | None => "application/octet-stream"
      end
  end.

(** The size limit in force: none without a configuration, none when
    [maxUrlFileSizeBytes] is [0]. *)
Definition limit (urlConfig : option UrlUploadConfig) : option Z :=
  match urlConfig with
  | Some c => if JS.truthy_number (maxUrlFileSizeBytes c)
              then Some (maxUrlFileSizeBytes c) else None
  | None => None
  end.

(** The requests are alive: the signal they listen on is not aborted,
    and nothing that is still to come without a cancelling event can abort
    it (no listener ties the controller to a missing signal, no timer is
    armed unless the configuration arms one). *)
Definition live (urlConfig : option UrlUploadConfig) (signal : option bool)
    (st : state) : Prop :=
  aborted (combinedSignal signal) st = false ∧
  (signal = None → listener st = false) ∧
  (armed urlConfig = false → timer st ≠ Armed).

(** What the [catch] of lines 336-340 makes of a rejection: an instance
    of [Error] named [AbortError] becomes the timeout-or-aborted error,
    anything else is rethrown as it is. *)
Definition reported (e : error) : error :=
  if isAbortError e then TimeoutOrAborted else e.

(** A triple over the monad of the function body: from a state
    satisfying [P], the computation ends in a state and with a result
    (a value or a thrown error) related by [Q]. *)
Definition triple {A} (P : state → Prop) (m : M A) (Q : state → error + A → Prop) : Prop :=
  ∀ st, P st → Q (m st).1 (m st).2.

(** The sum of the sizes of the kept chunks. *)
Definition total_length (chunks : list (list byte)) : Z :=
  Z.of_nat (length (concat chunks)).

(** Every prefix of a trace satisfies [P]: [P] held at every point of the
    execution the trace records. *)
Definition always (P : list io → Prop) (tr : list io) : Prop :=
  ∀ tr1 tr2, tr = (tr1 ++ tr2)%list → P tr1.

(** Between two iterations of the read loop everything delivered has been
    kept, and it fits in [max]; the bound held at every earlier point. *)
Definition balanced (max : Z) (st : state) : Prop :=
  always (within max) (trace st) ∧
  received (trace st) = pushed (trace st) ∧
  pushed (trace st) ≤ max ∧
  0 ≤ last_read (trace st).

(** When the function throws: the bound held at every point; the streaming
    error is thrown exactly when what was delivered exceeds [max], and it
    reports all that was delivered; any other error leaves nothing in
    flight. *)
Definition bounded_failure (max : Z) (st : state) (e : error) : Prop :=
  always (within max) (trace st) ∧
  pushed (trace st) ≤ max ∧
  match e with
  | SizeExceededStreaming total m =>
      m = max ∧ total = received (trace st) ∧ total > max
  | _ => received (trace st) = pushed (trace st)
  end.

Definition bounded {A} (max : Z) (size : A → Z) (st : state) (r : error + A) : Prop :=
  match r with
  | inr a => balanced max st ∧ size a = pushed (trace st)
  | inl e => bounded_failure max st e
  end.

(** Effects other than the delivery and the keeping of a chunk. *)
Definition neutral (e : io) : Prop :=
  match e with
  | ReadChunk _ | Push _ => False
  | _ => True
  end.

(** After one [reader.read()] from a balanced state the delivered chunk
    is in flight; a failed read leaves the state balanced. *)
Definition in_flight (max : Z) (st : state) (r : error + list byte) : Prop :=
  match r with
  | inr value =>
      always (within max) (trace st) ∧
      received (trace st) = pushed (trace st) + byteLength value ∧
      pushed (trace st) ≤ max ∧
      last_read (trace st) = byteLength value
  | inl e => balanced max st ∧ ∀ t m, e ≠ SizeExceededStreaming t m
  end.

(** A step that keeps [P] when it returns and respects the bound when it
    throws. *)
Definition carry {A} (max : Z) (P : state → Prop) (st : state) (r : error + A) : Prop :=
  match r with
  | inr _ => P st
  | inl e => bounded_failure max st e
  end.

(** The size of a [File]. *)
Definition file_size (f : File) : Z := Z.of_nat (length (file_bytes f)).

(** A property of the state that no event and no effect of the [try]
    block breaks (the timer calls are outside of it). *)
Definition stable (Φ : state → Prop) : Prop :=
  (∀ st e, Φ st → Φ (deliver st e)) ∧
  (∀ st e, (∀ ms, e ≠ SetTimeout ms) → e ≠ ClearTimeout → Φ st → Φ (log e st)).

(** What the function returns when it returns a [File]. *)
Definition typed_from (fileSpec : JsObject) (srv : server) (r : error + File) : Prop :=
  ∀ file, r = inr file →
    ∃ response, get_outcome srv = Responds response ∧
      file_type file
        = JS.blob_type
            (effective_type (fileSpec !! "mimeType") (headers response !! "content-type")) ∧
      file_name file = JS.to_string (fileSpec !! "name").

(** ** Vocabulary for the path resolver and the retrieval *)

Definition slash_free (s : string) : Prop := "/"%char ∉ list_ascii_of_string s.

(** [path] is in one of the three accepted forms, with an identifier that
    parses to [c] and the remainder [rest]. *)
Definition has_form `{Libraries} (path c rest : string) : Prop :=
  ∃ pre identifier,
    (pre = "" ∨ pre = "/ipfs/" ∨ pre = "ipfs://") ∧
    slash_free identifier ∧
    parseCID identifier = Some c ∧
    path = pre +:+ identifier +:+ "/" +:+ rest.

(** The identifiers the exporter asks the blockstore for, in order, up to
    and including the first one that is missing. *)
Fixpoint requested (w : walker) (reader : gmap string (list byte)) : list string :=
  match w with
  | Need cid k =>
      cid :: match reader !! cid with
             | Some block => requested (k block) reader
             | None => []
             end
  | Emit _ k => requested k reader
  | Stop | Crash _ => []
  end.

(** ** Vocabulary for the uploads *)

(** The [File] that [uploadFiles] builds from an [UploadFile]: the decoded
    content under the same name, with no type. *)
Definition decoded `{Libraries} (f : UploadFile) (o : File) : Prop :=
  base64ToBytes (content f) = Some (file_bytes o) ∧
  file_name o = upload_name f ∧ file_type o = "".

(** [fs] are the files fetched for [specs], one per request and in the
    same order, the [j]-th from the server [net j]. *)
Definition fetched `{Runtime} (urlConfig : option UrlUploadConfig) (sig : option bool)
    (net : nat → server) (specs : list JsObject) (fs : list File) : Prop :=
  length fs = length specs ∧
  ∀ j spec, specs !! j = Some spec →
    ∃ f, fs !! j = Some f ∧ (fetchFileFromUrl spec urlConfig sig (net j)).2 = inr f.

(** The client after one [uploadDirectory] call on the handle [h]. *)
Definition delegated (c : client) (h : nat) (fs : list File) (options : UploadOptions)
    : client :=
  mkClient (config c) (initialized c) (storage c) (promises c)
    (calls c ++ [UploadDirectory h fs (default 3 (retries options))
                   (bool_decide (publishToFilecoin options = Some true))]).

(** What the policy stage lets through: any URL without a configuration;
    with one, a URL whose scheme is listed and whose host is allowed. *)
Definition permitted `{Runtime} (urlConfig : option UrlUploadConfig) (url : URL) : Prop :=
  match urlConfig with
  | None => True
  | Some c =>
      JS.slice_0_m1 (protocol url) ∈ allowedUrlSchemes c ∧
      (allowAllUrlDomains c = true ∨
       ∃ D, allowedUrlDomains c = Some D ∧ host_allowed (hostname url) D)
  end.

(** ** Vocabulary for a fetch that returns *)

(** What one delivered chunk leaves in the trace: it is read, then kept. *)
Definition chunk_io (value : list byte) : list io :=
  [ReadChunk (byteLength value); Push (byteLength value)].

(** The effects of a fetch that returns a [File] built from the chunks
    [vs]: the timer (when one is configured) is set first and cleared
    last; in between, one HEAD and one GET request on the same URL and
    signal, every chunk read and kept, and the reader's lock released. *)
Definition timer_set `{Runtime} (urlConfig : option UrlUploadConfig) : list io :=
  match urlConfig with
  | Some c => if armed urlConfig then [SetTimeout (urlFetchTimeoutMs c)] else []
  | None => []
  end.

Definition timer_cleared `{Runtime} (urlConfig : option UrlUploadConfig) : list io :=
  if armed urlConfig then [ClearTimeout] else [].

Definition success_trace `{Runtime} (urlConfig : option UrlUploadConfig) (url : URL)
    (sig : sigref) (vs : list (list byte)) : list io :=
  (timer_set urlConfig
   ++ [Request HEAD url sig; Request GET url sig]
   ++ flat_map chunk_io vs
   ++ [ReleaseLock]
   ++ timer_cleared urlConfig)%list.

(** The effects of the [try] block of any call, returning or not: nothing;
    or the HEAD request alone; or the HEAD and the GET request; or both
    requests, then chunks read and kept one after the other, possibly a
    last chunk that was read and not kept, and the release of the reader's
    lock. *)
Definition body_effects (url : URL) (sig : sigref) (tr : list io) : Prop :=
  tr = [] ∨
  tr = [Request HEAD url sig] ∨
  tr = [Request HEAD url sig; Request GET url sig] ∨
  ∃ vs rest,
    tr = ([Request HEAD url sig; Request GET url sig]
          ++ flat_map chunk_io vs ++ rest ++ [ReleaseLock])%list ∧
    (rest = [] ∨ ∃ value, rest = [ReadChunk (byteLength value)]).

(** The content length a HEAD response declares, if it declares one that
    parses, is within the limit in force, if there is one. *)
Definition declared_within (urlConfig : option UrlUploadConfig) (headResponse : Response)
    : Prop :=
  ∀ max contentLength size,
    limit urlConfig = Some max →
    headers headResponse !! "content-length" = Some contentLength →
    JS.parseInt10 contentLength = Some size → size ≤ max.

(** The requests are alive and the timer, when it is the one that can
    abort them, is still running. *)
Definition alive `{Runtime} (urlConfig : option UrlUploadConfig) (signal : option bool)
    (st : state) : Prop :=
  live urlConfig signal st ∧
  (signal = None → armed urlConfig = true → timer st = Armed).

(** ** Vocabulary for the configuration *)

(** The environment variables [loadConfig] reads. *)
Definition config_variables : list string :=
  ["MCP_SERVER_PORT"; "MCP_SERVER_HOST"; "MCP_CONNECTION_TIMEOUT"; "MCP_TRANSPORT_MODE";
   "MAX_FILE_SIZE"; "MCP_ENDPOINT"; "MAX_URL_FILE_SIZE"; "ALLOWED_URL_SCHEMES";
   "URL_FETCH_TIMEOUT"; "ALLOW_ALL_URL_DOMAINS"; "ALLOWED_URL_DOMAINS"].

(** The configuration of a server started with no parameter and none of
    these variables. *)
Definition default_config : Config.McpServerConfig :=
  Config.mkServerConfig 30000 "stdio" 3001 "0.0.0.0" 104857600 (Some "/rest")
    1073741824 ["https"; "http"] 300000 false None.

(** ** Vocabulary for the upload tool *)

(** The delegation the tool's client is built with: the one of the
    request, parsed, when the request has one; otherwise the configured
    one. *)
Definition chosen_delegation `{Delegations} (storageConfig : StorageConfig)
    (i : UploadTool.input) (proof : string) : Prop :=
  if UploadTool.given (UploadTool.delegation i)
  then parseDelegation (default "" (UploadTool.delegation i)) = Some proof
  else Client.delegation storageConfig = Some proof.

(** The tool's client once [await client.initialize()] has returned. *)
Definition ready_client (principal proof : string) (gateway : URL) (h : nat) : client :=
  mkClient (mkConfig (Some principal) (Some proof) (Some gateway)) (Some 0%nat) (Some h)
    [Fulfilled] [StorageCreate principal; AddSpace h proof].

(** The options the tool passes to both upload methods. *)
Definition tool_options (i : UploadTool.input) : UploadOptions :=
  mkOptions None (Some 3) (Some (default false (UploadTool.publishToFilecoin i))).

(** The handler has failed before the upload proper: what it caught, and
    the calls it had made on the backend by then. *)
Definition failed_early `{Runtime} `{Delegations} (storageConfig : StorageConfig)
    (i : UploadTool.input) (b : UploadTool.backend)
    (r : list backend_call * UploadTool.result) : Prop :=
  ∃ e, r.2 = UploadTool.Caught e ∧
    match e with
    | UploadTool.DelegationRequired =>
        UploadTool.given (UploadTool.delegation i) = false ∧
        Client.delegation storageConfig = None ∧ r.1 = []
    | UploadTool.DelegationInvalid =>
        UploadTool.given (UploadTool.delegation i) = true ∧
        parseDelegation (default "" (UploadTool.delegation i)) = None ∧ r.1 = []
    | UploadTool.GatewayUrlInvalid =>
        UploadTool.given (UploadTool.gatewayUrl i) = true ∧
        parseURL (default "" (UploadTool.gatewayUrl i)) = None ∧ r.1 = []
    | UploadTool.InitializeFailed m =>
        (Client.signer storageConfig = None ∧ r.1 = []) ∨
        ∃ principal proof,
          Client.signer storageConfig = Some principal ∧
          chosen_delegation storageConfig i proof ∧
          ((∃ m', UploadTool.create_outcome b = inl m' ∧ r.1 = [StorageCreate principal]) ∨
           (∃ h m', UploadTool.create_outcome b = inr h ∧
                    UploadTool.addSpace_outcome b = Some m' ∧
                    r.1 = [StorageCreate principal; AddSpace h proof]))
    | UploadTool.UploadFailed _ | UploadTool.NothingToUpload => False
    end.

(** The fetch the tool's URL branch makes: one request object, the policy
    derived from the server configuration, no caller's signal. *)
Definition tool_fetch `{Runtime} (serverConfig : option Config.McpServerConfig)
    (i : UploadTool.input) (b : UploadTool.backend) : state * (error + File) :=
  fetchFileFromUrl
    (urlUploadFile (UploadTool.name i) (default "" (UploadTool.url i)) (UploadTool.mimeType i))
    (Config.toolUrlConfig serverConfig) None (UploadTool.net b 0%nat).

(** The ready client made no upload call: what the handler caught. *)
Definition nothing_uploaded `{Runtime} `{Libraries}
    (serverConfig : option Config.McpServerConfig)
    (i : UploadTool.input) (b : UploadTool.backend) (x : UploadTool.result) : Prop :=
  (UploadTool.given (UploadTool.file i) = false ∧
   UploadTool.given (UploadTool.url i) = false ∧
   x = UploadTool.Caught UploadTool.NothingToUpload) ∨
  (UploadTool.given (UploadTool.file i) = true ∧
   base64ToBytes (default "" (UploadTool.file i)) = None ∧
   x = UploadTool.Caught (UploadTool.UploadFailed InvalidEncoding)) ∨
  (UploadTool.given (UploadTool.file i) = false ∧
   UploadTool.given (UploadTool.url i) = true ∧
   ∃ e, (tool_fetch serverConfig i b).2 = inl e ∧
        x = UploadTool.Caught (UploadTool.UploadFailed (FetchError e))).

(** The files of the upload call the ready client made: the decoded
    content when the request has one, otherwise the fetched file. *)
Definition handed_over `{Runtime} `{Libraries}
    (serverConfig : option Config.McpServerConfig)
    (i : UploadTool.input) (b : UploadTool.backend) (fs : list File) : Prop :=
  (UploadTool.given (UploadTool.file i) = true ∧
   ∃ bytes, base64ToBytes (default "" (UploadTool.file i)) = Some bytes ∧
            fs = [mkFile (UploadTool.name i) bytes ""]) ∨
  (UploadTool.given (UploadTool.file i) = false ∧
   UploadTool.given (UploadTool.url i) = true ∧
   ∃ f, (tool_fetch serverConfig i b).2 = inr f ∧ fs = [f]).

(** The handler's result after the upload call: the backend's root, or
    the failure of the upload. *)
Definition upload_settled (b : UploadTool.backend) (x : UploadTool.result) : Prop :=
  (∃ u, x = UploadTool.Returned u ∧ result (UploadTool.reply b) = inr (root u)) ∨
  (∃ m, result (UploadTool.reply b) = inl m ∧
        x = UploadTool.Caught (UploadTool.UploadFailed (BackendError m))) ∨
  x = UploadTool.Caught (UploadTool.UploadFailed InvalidResultUrl).

(** The piece hasher is passed exactly when the request asks for Filecoin. *)
Definition to_filecoin (i : UploadTool.input) : bool :=
  bool_decide (UploadTool.publishToFilecoin i = Some true).

End Spec.

(** Membership in a list that is written out: one case per element. *)
Ltac elem_cases H :=
  repeat match type of H with
         | _ ∈ [] => by apply elem_of_nil in H
         | _ ∈ _ :: _ => apply elem_of_cons in H as [H|H]; [try discriminate H|]
         end.

(* ===================================================================== *)
(** * Part II. Theorems                                                   *)
(* ===================================================================== *)

(** ** The client lifecycle *)

Section Lifecycle.
Context `{Runtime} `{Libraries}.
Import Client Spec.

Lemma count_create_app (l1 l2 : list backend_call) :
  count_create (l1 ++ l2) = (count_create l1 + count_create l2)%nat.
Proof. induction l1 as [|[] l1 IH]; simpl; auto; lia. Qed.

Lemma count_addSpace_app (l1 l2 : list backend_call) :
  count_addSpace (l1 ++ l2) = (count_addSpace l1 + count_addSpace l2)%nat.
Proof. induction l1 as [|[] l1 IH]; simpl; auto; lia. Qed.

Lemma count_upload_app (l1 l2 : list backend_call) :
  count_upload (l1 ++ l2) = (count_upload l1 + count_upload l2)%nat.
Proof. induction l1 as [|[] l1 IH]; simpl; auto; lia. Qed.

Lemma new_client_inv (cfg : StorageConfig) : init_inv cfg (new_client cfg).
Proof. repeat split. Qed.

Lemma initialize_inv (cfg : StorageConfig) (c : client) :
  init_inv cfg c →
  init_inv cfg (initialize c).1 ∧ (initialize c).2 = expected cfg.
Proof.
  intros Hinv. pose proof Hinv as (Hs & Hd & Hi).
  unfold initialize, expected.
  destruct (initialized c) as [p|] eqn:Ep.
  - destruct Hi as (-> & [sg Hsg] & [dg Hdg] & Hrest).
    rewrite Hsg, Hdg. done.
  - destruct Hi as (Hp & Hc & Hst).
    rewrite Hs, Hd.
    destruct (signer cfg) as [sg|] eqn:Esg; [|done].
    destruct (delegation cfg) as [dg|] eqn:Edg; [|done].
    simpl. split; [|by rewrite Hp].
    unfold init_inv; simpl. rewrite Hp, Hc, Hst, Esg, Edg. simpl.
    repeat split; eauto. exists AwaitingCreate. done.
Qed.

Lemma settle_inv (cfg : StorageConfig) (c : client) (s : settlement) :
  init_inv cfg c → init_inv cfg (settle c s).
Proof.
  intros Hinv. pose proof Hinv as (Hs & Hd & Hi).
  destruct (initialized c) as [p0|] eqn:Ep.
  - destruct Hi as (-> & Hsg & Hdg & Hc & Hu & st & Hp & Hst).
    destruct s as [p h|p m|p|p m]; simpl; rewrite Hp;
      (destruct p as [|p]; [|done]); simpl;
      (destruct st; try done);
      unfold init_inv, set_promise; simpl; rewrite Ep, Hp; simpl;
      rewrite ?count_create_app, ?count_upload_app, ?count_addSpace_app; simpl;
      destruct Hst as [Ha Hb]; rewrite ?Ha;
      (repeat split; [done || lia ..|]); eexists; (split; [done|]); simpl;
      (done || lia || (split; [lia|eauto])).
  - destruct Hi as (Hp & Hc & Hst).
    destruct s; simpl; rewrite Hp; done.
Qed.

Lemma run_inv (cfg : StorageConfig) (acts : list action) (c : client) :
  init_inv cfg c →
  init_inv cfg (run c acts).1 ∧ Forall (λ r, r = expected cfg) (run c acts).2.
Proof.
  revert c. induction acts as [|a acts IH]; intros c Hc; simpl.
  - split; [done|constructor].
  - destruct a as [|s]; simpl.
    + destruct (initialize_inv cfg c Hc) as [Hc1 Hr].
      destruct (initialize c) as [c1 r]. simpl in *.
      destruct (IH c1 Hc1) as [Hc2 Hrs].
      destruct (run c1 acts) as [c2 rs]. simpl in *.
      split; [done|]. constructor; done.
    + pose proof (settle_inv cfg c s Hc) as Hc1.
      destruct (IH _ Hc1) as [Hc2 Hrs].
      destruct (run (settle c s) acts) as [c2 rs]. simpl in *. done.
Qed.

Lemma initialized_monotone (acts : list action) (c : client) (p : nat) :
  initialized c = Some p → initialized (run c acts).1 = Some p.
Proof.
  revert c. induction acts as [|a acts IH]; intros c Hp; simpl; [done|].
  destruct a as [|s]; simpl.
  - unfold initialize. rewrite Hp.
    specialize (IH c Hp). destruct (run c acts). done.
  - assert (initialized (settle c s) = Some p) as Hs.
    { destruct s; simpl; destruct (promises c !! _) as [[]|]; done. }
    specialize (IH _ Hs). destruct (run (settle c s) acts). done.
Qed.

Lemma run_commits (cfg : StorageConfig) (acts : list action) (c : client) :
  init_inv cfg c → is_Some (signer cfg) → is_Some (delegation cfg) →
  (run c acts).2 ≠ [] → initialized (run c acts).1 = Some 0%nat.
Proof.
  revert c. induction acts as [|a acts IH]; intros c Hc Hsg Hdg Hne; simpl in *; [done|].
  destruct a as [|s]; simpl in *.
  - destruct (initialize_inv cfg c Hc) as [Hc1 Hr].
    assert (initialized (initialize c).1 = Some 0%nat) as Hi.
    { destruct Hc as (Hs & Hd & Hi). unfold initialize.
      destruct (initialized c) as [p|] eqn:Ep.
      - destruct Hi as [-> _]. done.
      - rewrite Hs, Hd. destruct Hsg as [? ->], Hdg as [? ->]. simpl.
        destruct Hi as [-> _]. done. }
    pose proof (initialized_monotone acts _ _ Hi) as Hm.
    destruct (initialize c) as [c1 r]. simpl in *.
    destruct (run c1 acts). done.
  - pose proof (settle_inv cfg c s Hc) as Hc1.
    specialize (IH _ Hc1 Hsg Hdg).
    destruct (run (settle c s) acts). simpl in *. auto.
Qed.

Lemma run_after_failure (acts : list action) (c : client) (m : string) :
  initialized c = Some 0%nat → promises c = [Rejected m] →
  (run c acts).1 = c.
Proof.
  intros Hi Hp. induction acts as [|a acts IH]; simpl; [done|].
  destruct a as [|s]; simpl.
  - unfold initialize. rewrite Hi. destruct (run c acts). done.
  - assert (settle c s = c) as ->.
    { destruct s as [p ?|p ?|p|p ?]; simpl; rewrite Hp; by destruct p as [|[|p]]. }
    destruct (run c acts). done.
Qed.

Lemma new_client_setup (cfg : StorageConfig) : setup_inv cfg (new_client cfg).
Proof. repeat split. Qed.

Lemma initialize_setup (cfg : StorageConfig) (c : client) :
  setup_inv cfg c → setup_inv cfg (initialize c).1.
Proof.
  intros (Hs & Hd & Hi). unfold initialize.
  destruct (initialized c) as [p|] eqn:Ep.
  - unfold setup_inv. simpl. by rewrite Ep.
  - rewrite Hs, Hd.
    destruct (signer cfg) as [sg|] eqn:Esg;
      [|unfold setup_inv; simpl; rewrite Ep; intuition congruence].
    destruct (delegation cfg) as [dg|] eqn:Edg;
      [|unfold setup_inv; simpl; rewrite Ep; intuition congruence].
    destruct Hi as (Hp & Hc & Hst).
    unfold setup_inv. simpl. rewrite Hp, Hc. simpl.
    split; [congruence|]. split; [congruence|]. split; [done|].
    exists AwaitingCreate. split; [done|].
    exists sg. simpl. rewrite Edg. eauto.
Qed.

Lemma settle_setup (cfg : StorageConfig) (c : client) (s : settlement) :
  setup_inv cfg c → setup_inv cfg (settle c s).
Proof.
  intros Hinv. pose proof Hinv as (Hs & Hd & Hi).
  destruct (initialized c) as [p0|] eqn:Ep.
  - destruct Hi as (-> & st & Hp & Hst).
    destruct s as [p h|p m|p|p m]; simpl; rewrite Hp;
      (destruct p as [|p]; [|done]); simpl;
      (destruct st; try done);
      unfold setup_inv, set_promise; simpl; rewrite Ep, Hp; simpl;
      (repeat split; [done..|]); eexists; (split; [done|]); simpl.
    + destruct Hst as (sg & Hsg & [dg Hdg] & Hno & Hcalls).
      exists h, sg, dg. simpl. rewrite Hcalls, Hd, Hdg. done.
    + by left.
    + done.
    + by right.
  - destruct Hi as (Hp & Hc & Hst).
    destruct s; simpl; rewrite Hp; done.
Qed.

Lemma run_setup (cfg : StorageConfig) (acts : list action) (c : client) :
  setup_inv cfg c → setup_inv cfg (run c acts).1.
Proof.
  revert c. induction acts as [|a acts IH]; intros c Hc; simpl; [done|].
  destruct a as [|s]; simpl.
  - pose proof (initialize_setup cfg c Hc) as Hc1.
    destruct (initialize c) as [c1 r]. simpl in *.
    specialize (IH c1 Hc1). destruct (run c1 acts). done.
  - specialize (IH _ (settle_setup cfg c s Hc)).
    destruct (run (settle c s) acts). done.
Qed.

(** A handle, once stored, is the handle of the two calls made. *)
Lemma setup_stored (cfg : StorageConfig) (c : client) (h : nat) :
  setup_inv cfg c → storage c = Some h → connected_by cfg c h.
Proof.
  intros (_ & _ & Hi) Hh.
  destruct (initialized c) as [p|].
  - destruct Hi as (_ & s & _ & Hst).
    assert (connecting cfg c → connected_by cfg c h) as Hno.
    { intros (? & _ & _ & Hnone & _). congruence. }
    assert ((∃ h', connected_by cfg c h') → connected_by cfg c h) as Hyes.
    { intros (h' & sg & dg & Hsg & Hdg & Hst' & Hcalls).
      assert (h' = h) as -> by congruence. by exists sg, dg. }
    destruct s; auto. destruct Hst; auto.
  - destruct Hi as (_ & _ & Hnone). congruence.
Qed.

Lemma storage_stable (cfg : StorageConfig) (acts : list action) (c : client) (h : nat) :
  setup_inv cfg c → storage c = Some h → storage (run c acts).1 = Some h.
Proof.
  revert c. induction acts as [|a acts IH]; intros c Hc Hh; simpl; [done|].
  destruct a as [|s]; simpl.
  - pose proof (initialize_setup cfg c Hc) as Hc1.
    assert (storage (initialize c).1 = Some h) as Hh1.
    { unfold initialize. destruct (initialized c); [done|].
      destruct (signer (config c)); [|done]. by destruct (delegation (config c)). }
    destruct (initialize c) as [c1 r]. simpl in *.
    specialize (IH c1 Hc1 Hh1). destruct (run c1 acts). done.
  - assert (storage (settle c s) = Some h) as Hh1.
    { destruct Hc as (_ & _ & Hi).
      destruct s as [p h'|p m|p|p m]; simpl;
        destruct (promises c !! p) as [[]|] eqn:Ep; try done.
      exfalso. destruct (initialized c).
      - destruct Hi as (_ & s & Hp & Hst). rewrite Hp in Ep.
        destruct p as [|p]; [|done]. simpl in Ep. injection Ep as ->.
        destruct Hst as (? & _ & _ & Hnone & _). congruence.
      - destruct Hi as (Hp & _). by rewrite Hp in Ep. }
    specialize (IH _ (settle_setup cfg c s Hc) Hh1).
    destruct (run (settle c s) acts). done.
Qed.

Lemma run_after_success (acts : list action) (c : client) :
  initialized c = Some 0%nat → promises c = [Fulfilled] →
  (run c acts).1 = c.
Proof.
  intros Hi Hp. induction acts as [|a acts IH]; simpl; [done|].
  destruct a as [|s]; simpl.
  - unfold initialize. rewrite Hi. destruct (run c acts). done.
  - assert (settle c s = c) as ->.
    { destruct s as [p ?|p ?|p|p ?]; simpl; rewrite Hp; by destruct p as [|[|p]]. }
    destruct (run c acts). done.
Qed.

Lemma run_only_calls (acts : list action) (c : client) :
  is_Some (initialized c) → Forall (λ a, a = Initialize) acts →
  (run c acts).1 = c.
Proof.
  intros [p Hp] Hall. induction Hall as [|a acts -> _ IH]; simpl; [done|].
  unfold initialize. rewrite Hp. destruct (run c acts). done.
Qed.

Lemma setup_committed (cfg : StorageConfig) (c : client) (s : pstate) :
  setup_inv cfg c → promises c = [s] →
  initialized c = Some 0%nat ∧ expected cfg = Shared 0.
Proof.
  intros (_ & _ & Hi) Hp. destruct (initialized c) as [p|].
  - destruct Hi as (-> & s' & _ & Hst). split; [done|].
    assert (is_Some (signer cfg) ∧ is_Some (delegation cfg)) as [[? Hsg] [? Hdg]].
    { assert (connecting cfg c → is_Some (signer cfg) ∧ is_Some (delegation cfg)) as Hno.
      { intros (? & -> & ? & _). eauto. }
      assert ((∃ h, connected_by cfg c h) → is_Some (signer cfg) ∧ is_Some (delegation cfg)) as Hyes.
      { intros (? & ? & ? & -> & -> & _). eauto. }
      destruct s'; auto. destruct Hst; auto. }
    unfold expected. by rewrite Hsg, Hdg.
  - destruct Hi as (Hnil & _). congruence.
Qed.

Lemma run_settle (c c' : client) (s : settlement) (rest : list action)
    (rets' : list init_result) :
  run c (Settle s :: rest) = (c', rets') → c' = (run (settle c s) rest).1.
Proof. simpl. destruct (run (settle c s) rest). by intros [= <- _]. Qed.

(** C1. [initialize] is idempotent and its failure is terminal.  Take any
    interleaving [acts] of [initialize] calls and backend settlements on a
    fresh client, followed by any further interleaving [more].  Then the
    backend connection ([Storage.create]) and the space-delegation setup
    ([addSpace]) were each performed at most once; once a call has been
    made with both credentials present, the connection was made exactly
    once and the promise is committed; a client that became ready has
    made one connection and one space-delegation setup; all calls,
    concurrent or later,
    return the same thing and observe the same outcome; and once the shared
    promise is rejected, later calls perform no backend call at all and
    observe that same failure.

    The stages of the one initialization are passed as lines 84-108 have
    them.  After calls only, with both credentials, the connection has
    been requested with the signer, nothing else has been called, and the
    promise awaits it.  When the connection then resolves with a handle,
    the handle is stored and the space-delegation setup is performed on it
    with the delegation, exactly once, whatever follows; the two calls are
    then all the calls made.  When the setup then resolves, the client is
    ready, no further call is made, and every caller observes success.
    When the connection or the setup is rejected, no further call is made,
    the client is not ready, and every caller observes the failure with
    the message of lines 105-106.  At any time a stored handle is the one
    of these two calls, and a ready client has made exactly them. *)
Theorem initialize_idempotent (cfg : StorageConfig) (acts more : list action)
    (c c' : client) (rets rets' : list init_result) :
  run (new_client cfg) acts = (c, rets) →
  run c more = (c', rets') →
  (count_create (calls c') ≤ 1)%nat ∧ (count_addSpace (calls c') ≤ 1)%nat ∧
  (is_Some (signer cfg) → is_Some (delegation cfg) → rets ≠ [] →
     count_create (calls c) = 1%nat ∧ initialized c = Some 0%nat
     ∧ count_create (calls c') = 1%nat) ∧
  (ready c' = true →
     count_create (calls c') = 1%nat ∧ count_addSpace (calls c') = 1%nat) ∧
  (∀ r r', r ∈ (rets ++ rets')%list → r' ∈ (rets ++ rets')%list →
     r = r' ∧ observe c' r = observe c' r') ∧
  (∀ p m, initialized c = Some p → promises c !! p = Some (Rejected m) →
     calls c' = calls c ∧ promises c' !! p = Some (Rejected m) ∧
     ∀ r, r ∈ rets' → r = Shared p ∧ observe c' r = Failed m) ∧
  (is_Some (signer cfg) → is_Some (delegation cfg) → rets ≠ [] →
     Forall (λ a, a = Initialize) acts →
     promises c = [AwaitingCreate] ∧ connecting cfg c) ∧
  (∀ h rest, promises c = [AwaitingCreate] →
     more = Settle (CreateResolves 0 h) :: rest →
     connected_by cfg c' h ∧ count_addSpace (calls c') = 1%nat ∧
     (rest = [] → promises c' = [AwaitingAddSpace])) ∧
  (∀ rest, promises c = [AwaitingAddSpace] →
     more = Settle (AddSpaceResolves 0) :: rest →
     ready c' = true ∧ calls c' = calls c ∧ storage c' = storage c ∧
     ∀ r, r ∈ (rets ++ rets')%list → observe c' r = Succeeded) ∧
  (∀ s reason rest,
     (promises c = [AwaitingCreate] ∧ s = CreateRejects 0 reason) ∨
     (promises c = [AwaitingAddSpace] ∧ s = AddSpaceRejects 0 reason) →
     more = Settle s :: rest →
     ready c' = false ∧ calls c' = calls c ∧ storage c' = storage c ∧
     ∀ r, r ∈ (rets ++ rets')%list → observe c' r = Failed (failure_message reason)) ∧
  (∀ h, storage c' = Some h → connected_by cfg c' h) ∧
  (ready c' = true → ∃ h, connected_by cfg c' h).
Proof.
  intros Hrun Hmore.
  pose proof (run_inv cfg acts _ (new_client_inv cfg)) as [Hc Hrets].
  rewrite Hrun in Hc, Hrets. simpl in Hc, Hrets.
  pose proof (run_inv cfg more _ Hc) as [Hc' Hrets'].
  rewrite Hmore in Hc', Hrets'. simpl in Hc', Hrets'.
  pose proof (run_setup cfg acts _ (new_client_setup cfg)) as Hu.
  rewrite Hrun in Hu. simpl in Hu.
  pose proof (run_setup cfg more _ Hu) as Hu'.
  rewrite Hmore in Hu'. simpl in Hu'.
  assert (Forall (λ r, r = expected cfg) (rets ++ rets')%list) as Hall
    by (apply Forall_app; done).
  rewrite Forall_forall in Hall.
  assert (∀ c1, init_inv cfg c1 →
            (count_create (calls c1) ≤ 1)%nat ∧ (count_addSpace (calls c1) ≤ 1)%nat) as Hcount.
  { intros c1 (_ & _ & Hi). destruct (initialized c1).
    - destruct Hi as (_ & _ & _ & -> & _ & s & _ & Hst). split; [lia|].
      destruct s; try lia; destruct Hst; lia.
    - destruct Hi as (_ & -> & _). simpl. lia. }
  destruct (Hcount c' Hc') as [Hcc Hca].
  split; [done|]. split; [done|].
  split; [|split; [|split; [|split; [|split; [|split; [|split; [|split; [|split]]]]]]]].
  - intros Hsg Hdg Hne.
    pose proof (run_commits cfg acts _ (new_client_inv cfg) Hsg Hdg) as Hcommit.
    rewrite Hrun in Hcommit. simpl in Hcommit. specialize (Hcommit Hne).
    pose proof (initialized_monotone more _ _ Hcommit) as Hm.
    rewrite Hmore in Hm. simpl in Hm.
    destruct Hc as (_ & _ & Hi). rewrite Hcommit in Hi.
    destruct Hc' as (_ & _ & Hi'). rewrite Hm in Hi'.
    destruct Hi as (_ & _ & _ & -> & _), Hi' as (_ & _ & _ & -> & _). done.
  - intros Hready. unfold ready in Hready.
    destruct Hc' as (_ & _ & Hi').
    destruct (initialized c') as [p|]; [|done].
    destruct Hi' as (-> & _ & _ & Hcr & _ & s & Hs & Hst).
    rewrite Hs in Hready. simpl in Hready.
    destruct s; try done. by destruct Hst.
  - intros r r' Hr Hr'.
    rewrite (Hall r Hr), (Hall r' Hr'). done.
  - intros p m Hp Hm.
    destruct Hc as (_ & _ & Hi). rewrite Hp in Hi.
    destruct Hi as (-> & _ & _ & _ & _ & s & Hs & _).
    rewrite Hs in Hm. simpl in Hm. injection Hm as ->.
    pose proof (run_after_failure more c m Hp Hs) as Hsame.
    rewrite Hmore in Hsame. simpl in Hsame. subst c'.
    split; [done|]. split; [by rewrite Hs|].
    intros r Hr. rewrite Forall_forall in Hrets'.
    assert (expected cfg = Shared 0) as He.
    { destruct Hc' as (_ & _ & Hi'). rewrite Hp in Hi'.
      destruct Hi' as (_ & [? Hsg] & [? Hdg] & _).
      unfold expected. by rewrite Hsg, Hdg. }
    rewrite (Hrets' r Hr), He. simpl. by rewrite Hs.
  - intros [sg Hsg] [dg Hdg] Hne Hcalls.
    destruct Hcalls as [|a acts -> Hcalls]; [simpl in Hrun; by injection Hrun as <- <-|].
    simpl in Hrun. unfold initialize in Hrun. simpl in Hrun.
    rewrite Hsg, Hdg in Hrun. simpl in Hrun.
    match type of Hrun with context [run ?c1 acts] =>
      pose proof (run_only_calls acts c1 (mk_is_Some _ _ eq_refl) Hcalls) as Hsame;
      destruct (run c1 acts) as [c2 r2]; simpl in Hsame; subst c2 end.
    injection Hrun as <- _. simpl. split; [done|].
    exists sg. simpl. rewrite Hsg, Hdg. eauto.
  - intros h rest Hp ->.
    pose proof (run_settle _ _ _ _ _ Hmore) as ->.
    assert (storage (settle c (CreateResolves 0 h)) = Some h) as Hh
      by (simpl; by rewrite Hp).
    pose proof (storage_stable cfg rest _ h (settle_setup cfg c _ Hu) Hh) as Hh'.
    pose proof (setup_stored cfg _ h Hu' Hh') as Hby.
    split; [done|]. split.
    + destruct Hby as (? & ? & _ & _ & _ & ->). done.
    + intros ->. simpl. rewrite Hp. simpl. unfold set_promise. by rewrite Hp.
  - intros rest Hp ->.
    pose proof (run_settle _ _ _ _ _ Hmore) as ->.
    destruct (setup_committed cfg c _ Hu Hp) as [Hi He].
    assert (settle c (AddSpaceResolves 0)
            = mkClient (config c) (initialized c) (storage c) [Fulfilled] (calls c)) as ->
      by (simpl; rewrite Hp; simpl; unfold set_promise; by rewrite Hp).
    rewrite run_after_success; [|simpl; auto..].
    unfold ready. simpl. rewrite Hi. simpl.
    repeat split. intros r Hr. by rewrite (Hall r Hr), He.
  - intros s reason rest Hcase ->.
    pose proof (run_settle _ _ _ _ _ Hmore) as ->.
    assert (settle c s
            = mkClient (config c) (initialized c) (storage c)
                [Rejected (failure_message reason)] (calls c)) as ->
      by (destruct Hcase as [[Hp ->]|[Hp ->]];
          simpl; rewrite Hp; simpl; unfold set_promise; by rewrite Hp).
    assert (initialized c = Some 0%nat ∧ expected cfg = Shared 0) as [Hi He]
      by (destruct Hcase as [[Hp _]|[Hp _]]; eapply setup_committed; eauto).
    rewrite (run_after_failure rest _ (failure_message reason)); [|simpl; auto..].
    unfold ready. simpl. rewrite Hi. simpl.
    repeat split. intros r Hr. by rewrite (Hall r Hr), He.
  - intros h Hh. by apply setup_stored.
  - intros Hready. unfold ready in Hready.
    destruct Hu' as (_ & _ & Hi').
    destruct (initialized c') as [p|]; [|done].
    destruct Hi' as (-> & s & Hs & Hst).
    rewrite Hs in Hready. simpl in Hready.
    destruct s; done.
Qed.

End Lifecycle.

Section UploadGuard.
Context `{Runtime} `{Libraries}.
Import Client.

(** The guard of both upload methods, where it does fire: a client whose
    [initialize] was never committed, or whose backend handle is not set,
    rejects with 'Client not initialized' and the backend is not called. *)
Lemma upload_guard (c : client) (files : list UploadFile) (specs : list JsObject)
    (options : UploadOptions) (urlConfig : option UrlUploadConfig)
    (net : nat → UrlFetch.server) (reply : upload_reply) :
  initialized c = None ∨ storage c = None →
  uploadFiles c files options reply = (c, inl NotInitialized) ∧
  uploadFilesFromUrls c specs options urlConfig net reply = (c, inl NotInitialized).
Proof.
  unfold uploadFiles, uploadFilesFromUrls.
  intros [-> | ->]; [done|]. by destruct (initialized c).
Qed.

End UploadGuard.


(** ** Numbers *)

(** [parseInt] rounds to a double; [JS.parseInt10] does not.  For a
    rounding that keeps order and is exact up to 2^53, comparing the
    rounded number with a limit below 2^53 is comparing the number. *)
Lemma rounding_keeps_comparison (round : Z → Z) (s : string) (n limit : Z) :
  (∀ a b, a ≤ b → round a ≤ round b) →
  (∀ a, 0 ≤ a ≤ 2 ^ 53 → round a = a) →
  JS.parseInt10 s = Some n → 0 ≤ n → 0 ≤ limit < 2 ^ 53 →
  (round n >? limit) = (n >? limit).
Proof.
  intros Hmono Hexact _ Hn Hlimit.
  destruct (Z_le_gt_dec n (2 ^ 53)) as [Hle|Hgt].
  - rewrite Hexact; [done|lia].
  - pose proof (Hmono (2 ^ 53) n ltac:(lia)) as Hr.
    rewrite Hexact in Hr; [|lia]. lia.
Qed.

(** ** Strings *)

Lemma list_ascii_of_string_app (s t : string) :
  list_ascii_of_string (s +:+ t) = (list_ascii_of_string s ++ list_ascii_of_string t)%list.
Proof. induction s as [|a s IH]; simpl; [done|]. by rewrite <- IH. Qed.

Lemma string_of_list_ascii_app (k l : list ascii) :
  string_of_list_ascii (k ++ l) = string_of_list_ascii k +:+ string_of_list_ascii l.
Proof. induction k as [|a k IH]; simpl; [done|]. by rewrite IH. Qed.

Lemma endsWith_spec (s suffix : string) :
  JS.endsWith s suffix = true ↔ ∃ p, s = p +:+ suffix.
Proof.
  unfold JS.endsWith. rewrite bool_decide_eq_true. split.
  - intros [k Hk]. exists (string_of_list_ascii k).
    rewrite <- (string_of_list_ascii_of_string s), Hk, string_of_list_ascii_app.
    by rewrite string_of_list_ascii_of_string.
  - intros [p ->]. exists (list_ascii_of_string p). apply list_ascii_of_string_app.
Qed.

(** ** The URL ingestor: policy checks *)

Section Policy.
Context `{Runtime}.
Import UrlFetch Spec.

Lemma domainMatches_spec (host d : string) :
  domainMatches host d = true ↔
  host = toLowerCase d ∨ ∃ sub, host = sub +:+ "." +:+ toLowerCase d.
Proof.
  unfold domainMatches. rewrite orb_true_iff, endsWith_spec.
  destruct (decide (host = toLowerCase d)); split; intros [?|?]; auto; done.
Qed.

Lemma isAllowed_spec (host : string) (domains : list string) :
  isAllowed (toLowerCase host) domains = true ↔ host_allowed host domains.
Proof.
  unfold isAllowed, host_allowed. rewrite existsb_exists. split.
  - intros (d & Hin & Hm). exists d. rewrite list_elem_of_In.
    by apply domainMatches_spec in Hm.
  - intros (d & Hin & Hm). exists d. rewrite <- list_elem_of_In.
    by apply domainMatches_spec in Hm.
Qed.

Lemma checkDomain_spec (c : UrlUploadConfig) (url : URL) :
  allowAllUrlDomains c = false →
  checkDomain (Some c) url = inr tt ↔
  ∃ D, allowedUrlDomains c = Some D ∧ host_allowed (hostname url) D.
Proof.
  intros Hall. unfold checkDomain. rewrite Hall. simpl.
  destruct (allowedUrlDomains c) as [[|d D]|] eqn:ED.
  - split; [done|]. intros (D & [= <-] & d & Hd & _). by apply elem_of_nil in Hd.
  - destruct (isAllowed _ _) eqn:Ea; simpl.
    + apply isAllowed_spec in Ea. split; eauto.
    + split; [done|]. intros (D' & [= <-] & Hd). apply isAllowed_spec in Hd. congruence.
  - split; [done|]. by intros (D & ? & _).
Qed.

(** C6. With [allowAllUrlDomains] false, for a URL that parses and passes
    the scheme check: the policy stage accepts the URL if and only if the
    allow-list exists and contains, up to case, the host itself or a domain
    [d] such that the host ends with a dot followed by [d] (so a sibling
    such as [x.b.com] never admits [a.b.com]); otherwise the call is
    rejected with the domain error before any request is made or any timer
    armed; an absent or empty allow-list rejects every host. *)
Theorem domain_allow_list (fileSpec : JsObject) (c : UrlUploadConfig) (url : URL)
    (signal : option bool) (srv : server) :
  allowAllUrlDomains c = false →
  parseURL (JS.to_string (fileSpec !! "url")) = Some url →
  checkScheme (Some c) url = inr tt →
  let allowed := ∃ D, allowedUrlDomains c = Some D ∧ host_allowed (hostname url) D in
  let r := fetchFileFromUrl fileSpec (Some c) signal srv in
  (validate fileSpec (Some c) = inr url ↔ allowed) ∧
  (¬ allowed →
     trace r.1 = [] ∧ timer r.1 = Unarmed ∧
     (r.2 = inl NoDomainsAllowed ∨
      ∃ D, allowedUrlDomains c = Some D ∧
           r.2 = inl (DomainNotAllowed (toLowerCase (hostname url)) D))) ∧
  (allowedUrlDomains c = None ∨ allowedUrlDomains c = Some [] →
     ¬ allowed ∧ r.2 = inl NoDomainsAllowed).
Proof.
  intros Hall Hparse Hscheme allowed r.
  pose proof (checkDomain_spec c url Hall) as Hspec.
  assert (validate fileSpec (Some c) =
          match checkDomain (Some c) url with inl e => inl e | inr _ => inr url end) as Hv.
  { unfold validate. by rewrite Hparse, Hscheme. }
  split; [|split].
  - rewrite Hv. subst allowed. rewrite <- Hspec.
    destruct (checkDomain (Some c) url) as [e|[]]; split; done.
  - intros Hno. subst r. unfold fetchFileFromUrl. rewrite Hv.
    destruct (checkDomain (Some c) url) as [e|[]] eqn:Ec.
    + simpl. split; [done|]. split; [done|].
      unfold checkDomain in Ec. rewrite Hall in Ec. simpl in Ec.
      destruct (allowedUrlDomains c) as [[|d D]|]; simplify_eq; auto.
      destruct (isAllowed _ _); simpl in Ec; simplify_eq. right. eauto.
    + exfalso. apply Hno, Hspec. done.
  - intros Hempty.
    assert (checkDomain (Some c) url = inl NoDomainsAllowed) as Ec.
    { unfold checkDomain. rewrite Hall. simpl. by destruct Hempty as [-> | ->]. }
    split.
    + intros Ha. apply Hspec in Ha. congruence.
    + subst r. unfold fetchFileFromUrl. by rewrite Hv, Ec.
Qed.

End Policy.

(** ** The URL ingestor: cancellation, the timer, the trace *)

Section Signals.
Import UrlFetch Spec.

Lemma trace_deliver (st : state) (e : async_event) : trace (deliver st e) = trace st.
Proof. destruct e; simpl; [destruct (timer st)|destruct (ext_aborted st)]; done. Qed.

Lemma trace_delivers (evs : list async_event) (st : state) :
  trace (fold_left deliver evs st) = trace st.
Proof.
  revert st. induction evs as [|e evs IH]; intros st; simpl; [done|].
  by rewrite IH, trace_deliver.
Qed.

Lemma reason_deliver (st : state) (e : async_event) :
  ext_reason (deliver st e) = ext_reason st.
Proof. destruct e; simpl; [destruct (timer st)|destruct (ext_aborted st)]; done. Qed.

Lemma reason_delivers (evs : list async_event) (st : state) :
  ext_reason (fold_left deliver evs st) = ext_reason st.
Proof.
  revert st. induction evs as [|e evs IH]; intros st; simpl; [done|].
  by rewrite IH, reason_deliver.
Qed.

Lemma called_aborted (sig : sigref) (reason : thrown) (st : state) :
  aborted sig (called reason st) = aborted sig st.
Proof. by destruct sig. Qed.

Lemma timer_deliver (st : state) (e : async_event) :
  timer (deliver st e) = Armed → timer st = Armed.
Proof.
  destruct e; simpl; [destruct (timer st) eqn:Et|destruct (ext_aborted st)];
    simpl; congruence.
Qed.

Lemma timer_delivers (evs : list async_event) (st : state) :
  timer (fold_left deliver evs st) = Armed → timer st = Armed.
Proof.
  revert st. induction evs as [|e evs IH]; intros st; simpl; [done|].
  intros Ha. apply IH in Ha. by apply timer_deliver in Ha.
Qed.

Lemma live_deliver urlConfig signal (st : state) (e : async_event) :
  live urlConfig signal st → cancels urlConfig signal e = false →
  live urlConfig signal (deliver st e).
Proof.
  intros (Ha & Hl & Ht) Hc. unfold live.
  destruct signal as [b|], e; simpl in *; try done.
  - destruct (timer st) eqn:Et; simpl; rewrite ?Et; repeat split; auto; done.
  - destruct (timer st) eqn:Et; simpl; rewrite ?Et; repeat split; auto; try done.
    exfalso. by apply Ht.
  - destruct (ext_aborted st) eqn:Ee; simpl; [done|].
    rewrite Ha, (Hl eq_refl). done.
Qed.

Lemma live_delivers urlConfig signal (evs : list async_event) (st : state) :
  live urlConfig signal st → calm urlConfig signal evs →
  live urlConfig signal (fold_left deliver evs st).
Proof.
  revert st. induction evs as [|e evs IH]; intros st Hl Hc; simpl; [done|].
  inversion Hc; subst. apply IH; [|done]. by apply live_deliver.
Qed.

Lemma live_log urlConfig signal (st : state) (e : io) :
  live urlConfig signal st → live urlConfig signal (log e st).
Proof. unfold live. by destruct signal. Qed.

Lemma live_enter urlConfig (signal : option bool) :
  signal ≠ Some true → live urlConfig signal (enter urlConfig signal).
Proof.
  intros Hs. unfold live, enter.
  destruct urlConfig as [c|], signal as [[|]|]; simpl; try done;
    destruct (JS.truthy_number (urlFetchTimeoutMs c)); simpl; done.
Qed.

(** An awaited operation that no scheduled event cancels settles. *)
Lemma await_live {A} urlConfig signal started pending (settle : M A) (st : state) :
  live urlConfig signal st → calm urlConfig signal pending →
  let st' := fold_left deliver pending
               (match started with Some e => log e st | None => st end) in
  await (combinedSignal signal) started pending settle st = settle st' ∧
  live urlConfig signal st'.
Proof.
  intros Hl Hc st'.
  assert (live urlConfig signal st') as Hl'.
  { apply live_delivers; [|done]. destruct started; [by apply live_log|done]. }
  split; [|done]. unfold await.
  destruct Hl as [-> _]. fold st'. destruct Hl' as [-> _]. done.
Qed.

(** The rejection of an aborted operation comes from outside: it is none
    of the function's own errors. *)
Lemma rejection_outside (sig : sigref) (st : state) :
  match rejection sig st with
  | Foreign _ _ | NonError _ _ => True
  | _ => False
  end.
Proof. destruct sig; simpl; [by destruct (ext_reason st)|done]. Qed.

Lemma isAbortError_spec (e : error) :
  isAbortError e = true ↔ instanceofError e = true ∧ error_name e = "AbortError".
Proof.
  unfold isAbortError. rewrite andb_true_iff, bool_decide_eq_true. done.
Qed.

Lemma rejection_not_streaming (sig : sigref) (st : state) (t m : Z) :
  rejection sig st ≠ SizeExceededStreaming t m.
Proof. intros He. pose proof (rejection_outside sig st) as Ho. by rewrite He in Ho. Qed.

Lemma received_app (a b : list io) : received (a ++ b) = received a + received b.
Proof. induction a as [|[] a IH]; simpl; lia. Qed.

Lemma pushed_app (a b : list io) : pushed (a ++ b) = pushed a + pushed b.
Proof. induction a as [|[] a IH]; simpl; lia. Qed.

Lemma last_read_snoc (a : list io) (e : io) :
  last_read (a ++ [e]) = match e with ReadChunk len => len | _ => last_read a end.
Proof. unfold last_read. by rewrite fold_left_app. Qed.

End Signals.

(** ** Rules for triples *)

Section Triples.
Import UrlFetch Spec.

Lemma triple_ret {A} (P : state → Prop) (a : A) Q :
  (∀ st, P st → Q st (inr a)) → triple P (ret a) Q.
Proof. intros HQ st HP. by apply HQ. Qed.

Lemma triple_throw {A} (P : state → Prop) (e : error) (Q : state → error + A → Prop) :
  (∀ st, P st → Q st (inl e)) → triple P (throw e) Q.
Proof. intros HQ st HP. by apply HQ. Qed.

Lemma triple_effect (P : state → Prop) (f : state → state) Q :
  (∀ st, P st → Q (f st) (inr tt)) → triple P (effect f) Q.
Proof. intros HQ st HP. by apply HQ. Qed.

Lemma triple_bind {A B} (P : state → Prop) (m : M A) (k : A → M B)
    (R : state → error + A → Prop) (Q : state → error + B → Prop) :
  triple P m R →
  (∀ st e, R st (inl e) → Q st (inl e)) →
  (∀ a, triple (λ st, R st (inr a)) (k a) Q) →
  triple P (bind m k) Q.
Proof.
  intros Hm He Hk st HP. specialize (Hm st HP). unfold bind.
  destruct (m st) as [st' [e|a]]; simpl in *; [by apply He|by apply Hk].
Qed.

Lemma triple_conseq {A} (P P' : state → Prop) (m : M A) (Q Q' : state → error + A → Prop) :
  triple P' m Q' → (∀ st, P st → P' st) → (∀ st r, Q' st r → Q st r) → triple P m Q.
Proof. intros Hm HP HQ st Hst. apply HQ, Hm, HP, Hst. Qed.

Lemma triple_try_finally {A} (P : state → Prop) (m : M A) (f : state → state)
    (R Q : state → error + A → Prop) :
  triple P m R → (∀ st r, R st r → Q (f st) r) → triple P (try_finally m f) Q.
Proof.
  intros Hm Hf st HP. specialize (Hm st HP). unfold try_finally.
  destruct (m st) as [st' r]. by apply Hf.
Qed.

Lemma triple_try_catch {A} (P : state → Prop) (m : M A) (h : error → M A)
    (R Q : state → error + A → Prop) :
  triple P m R →
  (∀ st a, R st (inr a) → Q st (inr a)) →
  (∀ e, triple (λ st, R st (inl e)) (h e) Q) →
  triple P (try_catch m h) Q.
Proof.
  intros Hm Ha Hh st HP. specialize (Hm st HP). unfold try_catch.
  destruct (m st) as [st' [e|a]]; simpl in *; [by apply Hh|by apply Ha].
Qed.

Lemma triple_const {A} (C : Prop) (m : M A) : triple (λ _, C) m (λ _ _, C).
Proof. by intros st HC. Qed.

(** An awaited operation: [P] must survive the start of the operation and
    every event; whenever it holds, an abort must be acceptable. *)
Lemma triple_await {A} (P : state → Prop) sig started pending (settle : M A) Q :
  (∀ st e, P st → P (deliver st e)) →
  (∀ st, P st → match started with Some e => P (log e st) | None => True end) →
  (∀ st, P st → Q st (inl (rejection sig st))) →
  triple P settle Q →
  triple P (await sig started pending settle) Q.
Proof.
  intros Hd Hs Ha Hset st HP. unfold await.
  destruct (aborted sig st); [by apply Ha|].
  assert (P (match started with Some e => log e st | None => st end)) as HP1.
  { specialize (Hs st HP). by destruct started. }
  assert (∀ evs st1, P st1 → P (fold_left deliver evs st1)) as Hfold.
  { induction evs as [|e evs IH]; intros st1 H1; simpl; [done|]. apply IH, Hd, H1. }
  specialize (Hfold pending _ HP1).
  destruct (aborted sig _); [by apply Ha|by apply Hset].
Qed.

End Triples.

(** ** The URL ingestor: what the [try] block cannot break *)

Section Frame.
Context `{Runtime}.
Import UrlFetch Spec.

Lemma frame_await {A} (Φ : state → Prop) sig started pending (settle : M A) :
  stable Φ →
  match started with
  | Some e => (∀ ms, e ≠ SetTimeout ms) ∧ e ≠ ClearTimeout
  | None => True
  end →
  triple Φ settle (λ st _, Φ st) →
  triple Φ (await sig started pending settle) (λ st _, Φ st).
Proof.
  intros [Hd Hl] Hs Hset. apply triple_await; try done.
  intros st HΦ. destruct started as [e|]; [|done]. destruct Hs. by apply Hl.
Qed.

Lemma frame_bind {A B} (Φ : state → Prop) (m : M A) (k : A → M B) :
  triple Φ m (λ st _, Φ st) → (∀ a, triple Φ (k a) (λ st _, Φ st)) →
  triple Φ (bind m k) (λ st _, Φ st).
Proof. intros Hm Hk. eapply triple_bind; [apply Hm|done|apply Hk]. Qed.

Lemma frame_pure {A} (Φ : state → Prop) (r : error + A) :
  triple Φ (match r with inl e => throw e | inr a => ret a end) (λ st _, Φ st).
Proof. destruct r; [by apply triple_throw|by apply triple_ret]. Qed.

Lemma frame_guard (Φ : state → Prop) (cond : bool) (e : error) :
  triple Φ (if cond then throw e else ret tt) (λ st _, Φ st).
Proof. destruct cond; [by apply triple_throw|by apply triple_ret]. Qed.

Lemma frame_fetch (Φ : state → Prop) url m sig pending o :
  stable Φ → triple Φ (fetch url m sig pending o) (λ st _, Φ st).
Proof.
  intros HΦ. apply frame_await; [done|done|].
  destruct o; [by apply triple_ret|by apply triple_throw].
Qed.

Lemma frame_read (Φ : state → Prop) sig pending o :
  stable Φ → triple Φ (read sig pending o) (λ st _, Φ st).
Proof.
  intros HΦ. apply frame_await; [done|done|].
  destruct o; [|by apply triple_throw].
  apply frame_bind; [|intros; by apply triple_ret].
  apply triple_effect. intros st Hst. by apply HΦ.
Qed.

Lemma frame_checkContentLength (Φ : state → Prop) urlConfig headResponse :
  triple Φ (checkContentLength urlConfig headResponse) (λ st _, Φ st).
Proof.
  unfold checkContentLength.
  destruct (headers headResponse !! "content-length") as [cl|]; [|by apply triple_ret].
  destruct urlConfig as [c|]; [|by apply triple_ret].
  destruct (_ && _); [|by apply triple_ret].
  destruct (JS.parseInt10 cl) as [size|]; [|by apply triple_ret].
  apply frame_guard.
Qed.

Lemma frame_checkTotalSize (Φ : state → Prop) urlConfig total :
  triple Φ (checkTotalSize urlConfig total) (λ st _, Φ st).
Proof.
  unfold checkTotalSize. destruct urlConfig as [c|]; [|by apply triple_ret].
  apply frame_guard.
Qed.

Lemma frame_readLoop (Φ : state → Prop) urlConfig sig rs done_ev chunks total :
  stable Φ →
  triple Φ (readLoop urlConfig sig rs done_ev chunks total) (λ st _, Φ st).
Proof.
  intros HΦ. revert chunks total.
  induction rs as [|[pending o] rest IH]; intros chunks total; simpl.
  - apply frame_bind; [|intros; by apply triple_ret].
    apply frame_await; [done|done|by apply triple_ret].
  - apply frame_bind; [by apply frame_read|]. intros value.
    apply frame_bind; [by apply frame_checkTotalSize|]. intros _.
    apply frame_bind; [|intros _; apply IH].
    apply triple_effect. intros st Hst. by apply HΦ.
Qed.

(** From the GET response to the end of the [try] block. *)
Lemma frame_readBody (Φ : state → Prop) name mimeType urlConfig sig response :
  stable Φ →
  triple Φ (readBody name mimeType urlConfig sig response) (λ st _, Φ st).
Proof.
  intros HΦ. unfold readBody.
  apply frame_bind; [by apply frame_guard|]. intros _.
  destruct (body response) as [s|]; [|by apply triple_throw].
  apply frame_bind; [|intros; by apply triple_ret].
  eapply triple_try_finally; [by apply frame_readLoop|].
  intros st r Hst. by apply HΦ.
Qed.

Lemma frame_fetchBody (Φ : state → Prop) url name mimeType urlConfig sig srv :
  stable Φ →
  triple Φ (fetchBody url name mimeType urlConfig sig srv) (λ st _, Φ st).
Proof.
  intros HΦ. unfold fetchBody.
  apply frame_bind; [by apply frame_fetch|]. intros headResponse.
  apply frame_bind; [by apply frame_guard|]. intros _.
  apply frame_bind; [by apply frame_checkContentLength|]. intros _.
  apply frame_bind; [by apply frame_fetch|]. intros response.
  by apply frame_readBody.
Qed.

Lemma frame_try_catch (Φ : state → Prop) (m : M File) :
  triple Φ m (λ st _, Φ st) →
  triple Φ (try_catch m
              (fun e => if isAbortError e
                        then throw TimeoutOrAborted else throw e))
         (λ st _, Φ st).
Proof.
  intros Hm. eapply triple_try_catch; [apply Hm|done|].
  intros e. destruct (isAbortError e); by apply triple_throw.
Qed.

End Frame.

(** ** The URL ingestor: the streaming bound *)

Section Streaming.
Context `{Runtime}.
Import UrlFetch Spec.

Lemma always_snoc (P : list io → Prop) (tr : list io) (e : io) :
  always P tr → P (tr ++ [e]) → always P (tr ++ [e]).
Proof.
  intros Ha HP tr1 tr2 Heq.
  destruct tr2 as [|x tr2 _] using rev_ind.
  - rewrite app_nil_r in Heq. by subst.
  - rewrite app_assoc in Heq. apply app_inj_tail in Heq as [Heq _].
    by apply (Ha tr1 tr2).
Qed.

Lemma always_here (P : list io → Prop) (tr : list io) : always P tr → P tr.
Proof. intros Ha. apply (Ha tr []). by rewrite app_nil_r. Qed.

Lemma balanced_deliver (max : Z) (st : state) (e : async_event) :
  balanced max st → balanced max (deliver st e).
Proof. unfold balanced. by rewrite trace_deliver. Qed.

Lemma balanced_log (max : Z) (st : state) (e : io) :
  neutral e → balanced max st → balanced max (log e st).
Proof.
  intros Hn (Ha & Hrp & Hp & Hl). unfold balanced. simpl.
  assert (received [e] = 0 ∧ pushed [e] = 0 ∧
          last_read (trace st ++ [e]) = last_read (trace st)) as (Hr0 & Hp0 & Hl0).
  { rewrite last_read_snoc. destruct e; simpl in *; done. }
  rewrite received_app, pushed_app, Hr0, Hp0, Hl0, !Z.add_0_r.
  split; [|done].
  apply always_snoc; [done|]. unfold within.
  rewrite received_app, pushed_app, Hr0, Hp0, Hl0. lia.
Qed.

Lemma balanced_failure (max : Z) (st : state) (e : error) :
  balanced max st → (∀ t m, e ≠ SizeExceededStreaming t m) → bounded_failure max st e.
Proof.
  intros (Ha & Hrp & Hp & Hl) Hne. split; [done|]. split; [done|].
  destruct e; try done. exfalso. by eapply Hne.
Qed.

Lemma bounded_failure_snoc (max : Z) (st st' : state) (x : io) (e : error) :
  trace st' = trace st ++ [x] → neutral x →
  bounded_failure max st e → bounded_failure max st' e.
Proof.
  intros Ht Hn (Ha & Hp & He). unfold bounded_failure. rewrite Ht.
  assert (received [x] = 0 ∧ pushed [x] = 0 ∧
          last_read (trace st ++ [x]) = last_read (trace st)) as (Hr0 & Hp0 & Hl0).
  { rewrite last_read_snoc. destruct x; simpl in *; done. }
  rewrite received_app, pushed_app, Hr0, Hp0, !Z.add_0_r.
  split; [|done].
  apply always_snoc; [done|]. unfold within.
  rewrite received_app, pushed_app, Hr0, Hp0, Hl0, !Z.add_0_r.
  apply (always_here _ _ Ha).
Qed.

Lemma balanced_snoc (max : Z) (st st' : state) (x : io) :
  trace st' = trace st ++ [x] → neutral x → balanced max st → balanced max st'.
Proof.
  intros Ht Hn Hb. pose proof (balanced_log max st x Hn Hb) as Hb'.
  unfold balanced in *. simpl in Hb'. by rewrite Ht.
Qed.

Lemma bounded_snoc {A} (max : Z) (size : A → Z) (st st' : state) (x : io) (r : error + A) :
  trace st' = trace st ++ [x] → neutral x →
  bounded max size st r → bounded max size st' r.
Proof.
  intros Ht Hn. destruct r as [e|a]; simpl.
  - by apply bounded_failure_snoc with x.
  - intros [Hb Hs]. split; [by apply balanced_snoc with st x|].
    rewrite Ht, pushed_app. destruct x; simpl in *; try done; lia.
Qed.

Lemma read_in_flight (max p : Z) sig pending o :
  triple (λ st, balanced max st ∧ pushed (trace st) = p)
         (read sig pending o)
         (λ st r, in_flight max st r ∧ pushed (trace st) = p).
Proof.
  unfold read. apply triple_await.
  - intros st e [Hb Hp]. split; [by apply balanced_deliver|by rewrite trace_deliver].
  - done.
  - intros st [Hb Hp]. split; [|done]. split; [done|].
    intros t m. apply rejection_not_streaming.
  - destruct o as [value|n msg].
    + eapply triple_bind with
        (R := λ st r, r = inr tt ∧ in_flight max st (inr value) ∧ pushed (trace st) = p).
      * apply triple_effect. intros st [(Ha & Hrp & Hp & Hl) Hpp]. split; [done|].
        simpl. rewrite received_app, pushed_app, last_read_snoc. simpl.
        unfold byteLength.
        split; [|lia].
        split; [|split; [lia|split; [lia|done]]].
        apply always_snoc; [done|]. unfold within.
        rewrite received_app, pushed_app, last_read_snoc. simpl. lia.
      * intros st e [? _]. done.
      * intros []. apply triple_ret. intros st [_ Hf]. done.
    + apply triple_throw. intros st [Hb Hp]. split; [|done]. split; [done|]. done.
Qed.

Lemma total_length_snoc (chunks : list (list byte)) (value : list byte) :
  total_length (chunks ++ [value]) = total_length chunks + byteLength value.
Proof.
  unfold total_length, byteLength.
  rewrite concat_app, length_app. simpl. rewrite app_nil_r. lia.
Qed.

(** The read loop under a limit. *)
Lemma readLoop_bounded (c : UrlUploadConfig) (max : Z) sig done_ev rs :
  limit (Some c) = Some max →
  ∀ chunks total,
    triple (λ st, balanced max st ∧ pushed (trace st) = total ∧ total_length chunks = total)
           (readLoop (Some c) sig rs done_ev chunks total)
           (bounded max total_length).
Proof.
  intros Hlim. simpl in Hlim.
  destruct (JS.truthy_number (maxUrlFileSizeBytes c)) eqn:Etruthy; [|done].
  injection Hlim as Hmax.
  induction rs as [|[pending o] rest IH]; intros chunks total; simpl.
  - eapply triple_bind with
      (R := λ st r, match r with
                    | inr _ => balanced max st ∧ pushed (trace st) = total
                               ∧ total_length chunks = total
                    | inl e => bounded_failure max st e
                    end).
    + unfold read_done. apply triple_await.
      * intros st e (Hb & Hp & Hc). rewrite trace_deliver.
        split; [by apply balanced_deliver|done].
      * done.
      * intros st (Hb & _). apply balanced_failure; [done|].
        intros t m. apply rejection_not_streaming.
      * apply triple_ret. done.
    + done.
    + intros []. apply triple_ret. intros st (Hb & Hp & Hc). simpl. split; [done|lia].
  - eapply triple_bind with
      (R := λ st r, (in_flight max st r ∧ pushed (trace st) = total)
                    ∧ total_length chunks = total).
    + intros st (Hb & Hp & Hc). split; [|done].
      by apply (read_in_flight max total sig pending o st).
    + intros st e [[[Hb Hne] _] _]. by apply balanced_failure.
    + intros value.
      eapply triple_bind with
        (R := λ st r, match r with
                      | inr _ => (in_flight max st (inr value) ∧ pushed (trace st) = total)
                                 ∧ total_length chunks = total
                                 ∧ total + byteLength value ≤ max
                      | inl e => bounded_failure max st e
                      end).
      * unfold checkTotalSize. rewrite Etruthy. simpl.
        destruct (Z.gtb_spec (total + byteLength value) (maxUrlFileSizeBytes c)) as [Hgt|Hngt].
        -- apply triple_throw. intros st [[(Ha & Hrp & Hp & Hl) Hpp] Hc].
           split; [done|]. split; [done|]. rewrite Hmax. split; [done|].
           split; lia.
        -- apply triple_ret. intros st [? ?]. split; [done|]. split; [done|]. lia.
      * done.
      * intros _.
        eapply triple_bind with
          (R := λ st r, r = inr tt ∧ balanced max st
                        ∧ pushed (trace st) = total + byteLength value
                        ∧ total_length (chunks ++ [value]) = total + byteLength value).
        -- apply triple_effect.
           intros st ([(Ha & Hrp & Hp & Hl) Hpp] & Hc & Hle). split; [done|].
           rewrite total_length_snoc. unfold balanced. simpl.
           rewrite !pushed_app, !received_app, last_read_snoc. simpl.
           pose proof (Nat2Z.is_nonneg (length value)) as Hnn. unfold byteLength in *.
           split; [|lia].
           split; [|lia].
           apply always_snoc; [done|]. unfold within.
           rewrite received_app, pushed_app, last_read_snoc. simpl. lia.
        -- intros st e [? _]. done.
        -- intros []. eapply triple_conseq; [apply IH| |done].
           intros st (_ & Hb & Hp & Hc). done.
Qed.

Lemma fetch_carry (max : Z) url m sig pending o :
  triple (λ st, balanced max st ∧ pushed (trace st) = 0)
         (fetch url m sig pending o)
         (carry max (λ st, balanced max st ∧ pushed (trace st) = 0)).
Proof.
  unfold fetch. apply triple_await.
  - intros st e [Hb Hp]. rewrite trace_deliver. split; [by apply balanced_deliver|done].
  - intros st [Hb Hp]. split; [by apply balanced_log|].
    simpl. rewrite pushed_app. simpl. lia.
  - intros st [Hb _]. apply balanced_failure; [done|].
    intros t m'. apply rejection_not_streaming.
  - destruct o as [r|n msg].
    + by apply triple_ret.
    + apply triple_throw. intros st [Hb _]. by apply balanced_failure.
Qed.

Lemma guard_carry (max : Z) (P : state → Prop) (cond : bool) (e : error) :
  (∀ st, P st → balanced max st) → (∀ t m, e ≠ SizeExceededStreaming t m) →
  triple P (if cond then throw e else ret tt) (carry max P).
Proof.
  intros HP He. destruct cond.
  - apply triple_throw. intros st Hst. apply balanced_failure; auto.
  - by apply triple_ret.
Qed.

Lemma checkContentLength_carry (max : Z) (P : state → Prop) urlConfig headResponse :
  (∀ st, P st → balanced max st) →
  triple P (checkContentLength urlConfig headResponse) (carry max P).
Proof.
  intros HP. unfold checkContentLength.
  destruct (headers headResponse !! "content-length") as [cl|]; [|by apply triple_ret].
  destruct urlConfig as [c|]; [|by apply triple_ret].
  destruct (_ && _); [|by apply triple_ret].
  destruct (JS.parseInt10 cl) as [size|]; [|by apply triple_ret].
  by apply guard_carry.
Qed.

(** The body of the [try] under a limit. *)
Lemma fetchBody_bounded (c : UrlUploadConfig) (max : Z) url name mimeType sig srv :
  limit (Some c) = Some max →
  triple (λ st, balanced max st ∧ pushed (trace st) = 0)
         (fetchBody url name mimeType (Some c) sig srv)
         (bounded max file_size).
Proof.
  intros Hlim. unfold fetchBody, readBody.
  set (P := λ st, balanced max st ∧ pushed (trace st) = 0).
  assert (∀ st, P st → balanced max st) as HP by (by intros st [? _]).
  eapply triple_bind; [apply fetch_carry|done|]. intros headResponse.
  eapply triple_bind; [by apply (guard_carry max P)|done|]. intros [].
  eapply triple_bind; [by apply (checkContentLength_carry max P)|done|]. intros [].
  eapply triple_bind; [apply fetch_carry|done|]. intros response.
  eapply triple_bind; [by apply (guard_carry max P)|done|]. intros [].
  destruct (body response) as [s|].
  - eapply triple_bind with (R := bounded max total_length).
    + eapply triple_try_finally.
      * eapply triple_conseq; [by apply (readLoop_bounded c max)| |done].
        intros st [Hb Hp]. simpl. done.
      * intros st r Hr. by apply bounded_snoc with st ReleaseLock.
    + done.
    + intros chunks. apply triple_ret. intros st [Hb Hs]. split; [done|].
      unfold file_size. simpl. done.
  - apply triple_throw. intros st [Hb _]. by apply balanced_failure.
Qed.

(** The [catch] and the [finally] keep the bound. *)
Lemma guarded_bounded (max : Z) (P : state → Prop) urlConfig (m : M File) :
  triple P m (bounded max file_size) →
  triple P (guarded urlConfig m) (bounded max file_size).
Proof.
  intros Hm. unfold guarded.
  eapply triple_try_finally with (R := bounded max file_size).
  - eapply triple_try_catch; [apply Hm|done|].
    intros e. destruct (isAbortError e) eqn:Hn.
    + apply isAbortError_spec in Hn as [_ Hn].
      apply triple_throw. intros st (Ha & Hp & He). split; [done|]. split; [done|].
      destruct e; simpl in *; done.
    + by apply triple_throw.
  - intros st r Hr. destruct (armed urlConfig); [|done].
    by apply bounded_snoc with st ClearTimeout.
Qed.

Lemma validate_error (fileSpec : JsObject) urlConfig (e : error) :
  validate fileSpec urlConfig = inl e → ∀ t m, e ≠ SizeExceededStreaming t m.
Proof.
  unfold validate. intros Hv t m ->.
  destruct (parseURL _) as [url|]; [|done].
  destruct (checkScheme urlConfig url) as [e1|[]] eqn:Es.
  { injection Hv as ->. unfold checkScheme in Es.
    destruct urlConfig; [|done]. by destruct (negb _). }
  destruct (checkDomain urlConfig url) as [e2|[]] eqn:Ed; [|done].
  injection Hv as ->. unfold checkDomain in Ed.
  destruct urlConfig as [c|]; [|done].
  destruct (negb (allowAllUrlDomains c)); [|done].
  destruct (allowedUrlDomains c) as [[|d D]|]; try done.
  by destruct (negb _).
Qed.

Lemma balanced_nil (max : Z) (st : state) :
  0 ≤ max → trace st = [] → balanced max st.
Proof.
  intros Hmax Ht. unfold balanced. rewrite Ht. split; [|done].
  intros tr1 tr2 Heq. symmetry in Heq.
  apply app_eq_nil in Heq as [-> _]. unfold within, last_read. simpl. lia.
Qed.

Lemma balanced_enter (max : Z) urlConfig signal :
  0 ≤ max →
  balanced max (enter urlConfig signal) ∧ pushed (trace (enter urlConfig signal)) = 0.
Proof.
  intros Hmax.
  pose proof (balanced_nil max (mkState (default false signal) false false Unarmed [] default_reason)
                Hmax eq_refl) as Hb0.
  unfold enter.
  destruct urlConfig as [c|]; simpl.
  - destruct (JS.truthy_number (urlFetchTimeoutMs c)).
    + assert (balanced max (setTimeout (urlFetchTimeoutMs c)
                              (mkState (default false signal) false false Unarmed [] default_reason))) as Hb1.
      { apply (balanced_snoc max _ _ (SetTimeout (urlFetchTimeoutMs c))) with (2 := I) (3 := Hb0).
        done. }
      destruct signal; done.
    + destruct signal; done.
  - destruct signal; done.
Qed.

(** The whole function under a limit. *)
Lemma fetch_bounded (fileSpec : JsObject) (c : UrlUploadConfig) (max : Z) signal srv :
  limit (Some c) = Some max → 0 ≤ max →
  let r := fetchFileFromUrl fileSpec (Some c) signal srv in
  bounded max file_size r.1 r.2.
Proof.
  intros Hlim Hmax. unfold fetchFileFromUrl.
  destruct (validate fileSpec (Some c)) as [e|url] eqn:Ev.
  - simpl. apply balanced_failure; [|by eapply validate_error].
    by apply balanced_nil.
  - apply (guarded_bounded max (λ st, balanced max st ∧ pushed (trace st) = 0)).
    + by apply fetchBody_bounded.
    + by apply balanced_enter.
Qed.

(** C5, as amended.  Under a policy whose [maxUrlFileSizeBytes] is
    positive, whatever the server declares, omits or streams and whatever
    is cancelled: at every point of the execution the kept chunks fit in
    the limit and, together with the chunk in flight, exceed it by at most
    that chunk; the call fails with the streaming size error exactly when
    the bytes delivered exceed the limit, and the error reports all the
    bytes delivered (nothing is read after the excess); a [File] is only
    produced with at most [maxUrlFileSizeBytes] bytes, all that was
    delivered. *)
Theorem streaming_limit (fileSpec : JsObject) (c : UrlUploadConfig)
    (signal : option bool) (srv : server) :
  0 < maxUrlFileSizeBytes c →
  let max := maxUrlFileSizeBytes c in
  let r := fetchFileFromUrl fileSpec (Some c) signal srv in
  always (within max) (trace r.1) ∧
  (received (trace r.1) > max ↔ ∃ total, r.2 = inl (SizeExceededStreaming total max)) ∧
  (∀ total m, r.2 = inl (SizeExceededStreaming total m) →
     m = max ∧ total = received (trace r.1)) ∧
  (∀ file, r.2 = inr file →
     file_size file ≤ max ∧ file_size file = received (trace r.1)).
Proof.
  intros Hpos max r.
  assert (limit (Some c) = Some max) as Hlim.
  { simpl. unfold JS.truthy_number.
    destruct (Z.eqb_spec (maxUrlFileSizeBytes c) 0); [lia|done]. }
  pose proof (fetch_bounded fileSpec c max signal srv Hlim ltac:(lia)) as Hb.
  simpl in Hb. fold r in Hb.
  destruct (r.2) as [e|file] eqn:Er; simpl in Hb.
  - destruct Hb as (Ha & Hp & He). split; [done|]. split; [|split].
    + split.
      * intros Hgt. destruct e; try lia. destruct He as (-> & -> & _). eauto.
      * intros [total [= ->]]. destruct He as (_ & <- & Hgt). done.
    + intros total m [= ->]. destruct He as (-> & -> & _). done.
    + done.
  - destruct Hb as [(Ha & Hrp & Hp & Hl) Hs]. split; [done|]. split; [|split].
    + split; [lia|]. by intros [total ?].
    + done.
    + intros file' [= <-]. lia.
Qed.

End Streaming.

(** ** The URL ingestor: the timer and the MIME type *)

Section TimerAndType.
Context `{Runtime}.
Import UrlFetch Spec.

Lemma stable_not_armed : stable (λ st, timer st ≠ Armed).
Proof.
  split.
  - intros st e Hst Ha. by apply timer_deliver in Ha.
  - intros st e _ _ Hst. done.
Qed.

(** The timer is disarmed on every exit path: whatever the inputs, the
    function never returns with its timer still armed. *)
Lemma timer_disarmed (fileSpec : JsObject) urlConfig signal srv :
  timer (fetchFileFromUrl fileSpec urlConfig signal srv).1 ≠ Armed.
Proof.
  unfold fetchFileFromUrl. destruct (validate fileSpec urlConfig) as [e|url]; [done|].
  unfold guarded, try_finally.
  destruct (try_catch _ _ (called (abort_reason srv) (enter urlConfig signal))) as [st1 r1] eqn:Et. simpl.
  destruct (armed urlConfig) eqn:Ea.
  - simpl. by destruct (timer st1).
  - pose proof (frame_try_catch _ _
                  (frame_fetchBody _ url (JS.to_string (fileSpec !! "name"))
                     (fileSpec !! "mimeType") urlConfig (combinedSignal signal) srv
                     stable_not_armed) (called (abort_reason srv) (enter urlConfig signal))) as Hf.
    rewrite Et in Hf. apply Hf.
    unfold enter. destruct urlConfig as [c|]; simpl in *.
    + rewrite Ea. by destruct signal.
    + by destruct signal.
Qed.

Lemma stable_no_timer :
  stable (λ st, timer st = Unarmed ∧ ∀ ms, SetTimeout ms ∉ trace st).
Proof.
  split.
  - intros st e [Ht Hn]. rewrite trace_deliver. split; [|done].
    destruct e; simpl; [by rewrite Ht|by destruct (ext_aborted st)].
  - intros st e He _ [Ht Hn]. split; [done|]. simpl. intros ms Hin.
    apply elem_of_app in Hin as [Hin|Hin]; [by apply (Hn ms)|].
    apply list_elem_of_singleton in Hin. by apply (He ms).
Qed.

(** Without a configuration no timer is ever created. *)
Lemma no_timer_without_config (fileSpec : JsObject) signal srv :
  let r := fetchFileFromUrl fileSpec None signal srv in
  timer r.1 = Unarmed ∧ ∀ ms, SetTimeout ms ∉ trace r.1.
Proof.
  unfold fetchFileFromUrl. destruct (validate fileSpec None) as [e|url].
  { simpl. split; [done|]. intros ms Hin. by apply elem_of_nil in Hin. }
  unfold guarded, try_finally.
  destruct (try_catch _ _ (called (abort_reason srv) (enter None signal))) as [st1 r1] eqn:Et. simpl.
  pose proof (frame_try_catch _ _
                (frame_fetchBody _ url (JS.to_string (fileSpec !! "name"))
                   (fileSpec !! "mimeType") None (combinedSignal signal) srv
                   stable_no_timer) (called (abort_reason srv) (enter None signal))) as Hf.
  rewrite Et in Hf. apply Hf.
  unfold enter. destruct signal; simpl; (split; [done|]);
    intros ms Hin; by apply elem_of_nil in Hin.
Qed.

(** The override as the interface of types.ts spells it, [mimeTyp], is not
    the property the function reads. *)
Lemma declared_override_not_read (name url m : string) :
  UploadFileFromUrl name url (Some m) !! "mimeType" = None ∧
  urlUploadFile name url (Some m) !! "mimeType" = Some m.
Proof.
  unfold UploadFileFromUrl, urlUploadFile. split.
  - by rewrite !lookup_insert_ne.
  - by rewrite lookup_insert_eq.
Qed.

Lemma contentType_effective (mimeType declared : option string) :
  default "application/octet-stream"
    (JS.or_string (JS.or_string mimeType declared) (Some "application/octet-stream"))
  = effective_type mimeType declared.
Proof.
  unfold JS.or_string, JS.truthy_string, effective_type.
  destruct mimeType as [m|], declared as [t|]; simpl;
    repeat (case_decide; simpl); done.
Qed.

(** C7, as amended.  Whenever the fetch returns a [File], its MIME type is
    the type that [new File] makes ([JS.blob_type]: lower-cased, and empty
    if it has a character outside U+0020..U+007E) of the [mimeType]
    property of the request object when that is a non-empty string,
    otherwise of the [content-type] header of the GET response when that
    is a non-empty string, otherwise of ["application/octet-stream"]. *)
Theorem mime_type_precedence (fileSpec : JsObject) urlConfig signal srv (file : File) :
  (fetchFileFromUrl fileSpec urlConfig signal srv).2 = inr file →
  ∃ response,
    get_outcome srv = Responds response ∧
    file_type file
      = JS.blob_type
          (effective_type (fileSpec !! "mimeType") (headers response !! "content-type")) ∧
    file_name file = JS.to_string (fileSpec !! "name").
Proof.
  revert file. fold (typed_from fileSpec srv (fetchFileFromUrl fileSpec urlConfig signal srv).2).
  unfold fetchFileFromUrl. destruct (validate fileSpec urlConfig) as [e|url]; [done|].
  set (Q := λ (_ : state) r, typed_from fileSpec srv r).
  assert (triple (λ _, True)
            (guarded urlConfig
               (fetchBody url (JS.to_string (fileSpec !! "name")) (fileSpec !! "mimeType")
                  urlConfig (combinedSignal signal) srv)) Q) as Ht.
  { unfold guarded.
    eapply triple_try_finally with (R := Q); [|done].
    eapply triple_try_catch with (R := Q); [|done|].
    2:{ intros e. destruct (isAbortError e); by apply triple_throw. }
    unfold fetchBody.
    eapply triple_bind; [apply (triple_const True)|done|]. intros headResponse.
    eapply triple_bind; [apply (triple_const True)|done|]. intros [].
    eapply triple_bind; [apply (triple_const True)|done|]. intros [].
    eapply triple_bind with
      (R := λ _ r, match r with
                   | inr response => get_outcome srv = Responds response
                   | inl _ => True
                   end).
    - unfold fetch. apply triple_await; try done.
      destruct (get_outcome srv); [by apply triple_ret|by apply triple_throw].
    - done.
    - intros response. unfold readBody.
      eapply triple_bind; [apply (triple_const (get_outcome srv = Responds response))|done|].
      intros []. destruct (body response) as [s|]; [|by apply triple_throw].
      eapply triple_bind; [apply (triple_const (get_outcome srv = Responds response))|done|].
      intros chunks. apply triple_ret. intros st Hst file [= <-].
      exists response. simpl. by rewrite contentType_effective. }
  apply (Ht (called (abort_reason srv) (enter urlConfig signal)) I).
Qed.

End TimerAndType.

(** ** The URL ingestor: runs that nothing cancels *)

Section Calm.
Context `{Runtime}.
Import UrlFetch Spec.

Lemma bind_await_live {A B} urlConfig signal started pending (settle : M A)
    (k : A → M B) (st : state) :
  live urlConfig signal st → calm urlConfig signal pending →
  let st' := fold_left deliver pending
               (match started with Some e => log e st | None => st end) in
  bind (await (combinedSignal signal) started pending settle) k st = bind settle k st' ∧
  live urlConfig signal st'.
Proof.
  intros Hl Hc st'.
  destruct (await_live urlConfig signal started pending settle st Hl Hc) as [Heq Hl'].
  split; [|done]. unfold bind. by rewrite Heq.
Qed.

Lemma checkTotalSize_unlimited urlConfig (total : Z) :
  limit urlConfig = None → checkTotalSize urlConfig total = ret tt.
Proof.
  unfold limit, checkTotalSize. destruct urlConfig as [c|]; [|done].
  by destruct (JS.truthy_number (maxUrlFileSizeBytes c)).
Qed.

Lemma checkContentLength_unlimited urlConfig (headResponse : Response) :
  limit urlConfig = None → checkContentLength urlConfig headResponse = ret tt.
Proof.
  unfold limit, checkContentLength.
  destruct (headers headResponse !! "content-length") as [cl|]; [|done].
  destruct urlConfig as [c|]; [|done].
  destruct (JS.truthy_number (maxUrlFileSizeBytes c)); [done|].
  by rewrite andb_false_r.
Qed.

(** The read loop without a limit, when nothing cancels it and every read
    delivers a chunk: all the chunks are kept. *)
Lemma readLoop_unlimited urlConfig signal rs done_ev :
  limit urlConfig = None →
  ∀ vs chunks total st,
    payload rs = Some vs →
    calm urlConfig signal (concat (map fst rs) ++ done_ev) →
    live urlConfig signal st →
    let r := readLoop urlConfig (combinedSignal signal) rs done_ev chunks total st in
    r.2 = inr (chunks ++ vs) ∧ live urlConfig signal r.1.
Proof.
  intros Hlim. induction rs as [|[pending o] rest IH]; intros vs chunks total st Hp Hc Hl.
  - simpl in *. injection Hp as <-. unfold read_done.
    destruct (bind_await_live urlConfig signal None done_ev (ret tt)
                (λ _, ret chunks) st Hl Hc) as [-> Hl'].
    simpl. by rewrite app_nil_r.
  - simpl in Hp. destruct o as [value|]; [|done].
    destruct (payload rest) as [vs'|] eqn:Ep; [|done]. injection Hp as <-.
    simpl in Hc. rewrite <- app_assoc in Hc. apply Forall_app in Hc as [Hc1 Hc2].
    simpl. unfold read.
    destruct (bind_await_live urlConfig signal None pending
                (bind (effect (log (ReadChunk (Z.of_nat (length value)))))
                      (λ _, ret value))
                (λ value0,
                   bind (checkTotalSize urlConfig (total + byteLength value0))
                     (λ _, bind (effect (log (Push (byteLength value0))))
                        (λ _, readLoop urlConfig (combinedSignal signal) rest done_ev
                                (chunks ++ [value0]) (total + byteLength value0))))
                st Hl Hc1) as [-> Hl'].
    unfold bind, effect, ret. simpl.
    rewrite checkTotalSize_unlimited by done. unfold ret. simpl.
    set (st2 := log (Push (byteLength value)) (log (ReadChunk (Z.of_nat (length value))) _)).
    assert (live urlConfig signal st2) as Hl2 by (by repeat apply live_log).
    destruct (IH vs' (chunks ++ [value]) (total + byteLength value) st2 eq_refl Hc2 Hl2)
      as [Hr Hl3].
    rewrite <- app_assoc in Hr. done.
Qed.

(** The whole function without a limit in force, on a URL that passes the
    policy stage, when nothing cancels the call, both responses are
    successful and every read delivers a chunk: the full body is buffered
    and returned. *)
Lemma fetch_unlimited (fileSpec : JsObject) urlConfig signal srv url r1 r2 s vs :
  limit urlConfig = None →
  validate fileSpec urlConfig = inr url →
  signal ≠ Some true →
  calm urlConfig signal (schedule srv) →
  head_outcome srv = Responds r1 → ok r1 = true →
  get_outcome srv = Responds r2 → ok r2 = true →
  body r2 = Some s → payload (reads s) = Some vs →
  (fetchFileFromUrl fileSpec urlConfig signal srv).2
  = inr (mkFile (JS.to_string (fileSpec !! "name")) (concat vs)
           (JS.blob_type
              (effective_type (fileSpec !! "mimeType") (headers r2 !! "content-type")))).
Proof.
  intros Hlim Hv Hs Hc Hh Hok1 Hg Hok2 Hb Hp.
  unfold schedule, body_events in Hc. rewrite Hg, Hb in Hc.
  apply Forall_app in Hc as [Hc1 Hc]. apply Forall_app in Hc as [Hc2 Hc3].
  unfold fetchFileFromUrl. rewrite Hv.
  unfold guarded, try_finally, try_catch, fetchBody, fetch.
  destruct (bind_await_live urlConfig signal
              (Some (Request HEAD url (combinedSignal signal))) (head_pending srv)
              (match head_outcome srv with
               | Responds r => ret r
               | NetworkFails n msg => throw (Foreign n msg)
               end)
              (λ headResponse,
                 bind (if negb (ok headResponse)
                       then throw (MetadataRequestFailed (status headResponse)
                                     (statusText headResponse))
                       else ret tt)
                   (λ _, bind (checkContentLength urlConfig headResponse)
                      (λ _, bind (await (combinedSignal signal)
                                    (Some (Request GET url (combinedSignal signal)))
                                    (get_pending srv)
                                    (match get_outcome srv with
                                     | Responds r => ret r
                                     | NetworkFails n msg => throw (Foreign n msg)
                                     end))
                              (λ response,
                                 readBody (JS.to_string (fileSpec !! "name"))
                                   (fileSpec !! "mimeType") urlConfig
                                   (combinedSignal signal) response))))
              (called (abort_reason srv) (enter urlConfig signal)) (live_enter urlConfig signal Hs) Hc1) as [-> Hl1].
  rewrite Hh. unfold bind at 1. simpl. rewrite Hok1. unfold bind at 1. simpl.
  rewrite checkContentLength_unlimited by done. unfold bind at 1. simpl.
  match goal with |- context [fold_left deliver (head_pending srv) ?x] =>
    set (st1 := fold_left deliver (head_pending srv) x) in * end.
  destruct (bind_await_live urlConfig signal
              (Some (Request GET url (combinedSignal signal))) (get_pending srv)
              (match get_outcome srv with
               | Responds r => ret r
               | NetworkFails n msg => throw (Foreign n msg)
               end)
              (λ response,
                 readBody (JS.to_string (fileSpec !! "name"))
                   (fileSpec !! "mimeType") urlConfig
                   (combinedSignal signal) response)
              st1 Hl1 Hc2) as [-> Hl2].
  rewrite Hg. unfold bind at 1. simpl.
  unfold readBody. rewrite Hok2, Hb. unfold bind at 1. simpl.
  match goal with |- context [fold_left deliver (get_pending srv) ?x] =>
    set (st2 := fold_left deliver (get_pending srv) x) in * end.
  destruct (readLoop_unlimited urlConfig signal (reads s) (done_pending s) Hlim
              vs [] 0 st2 Hp Hc3 Hl2) as [Hr _].
  unfold bind, try_finally.
  destruct (readLoop urlConfig (combinedSignal signal) (reads s) (done_pending s) [] 0 st2)
    as [st3 r3].
  simpl in Hr. subst r3. simpl. by rewrite contentType_effective.
Qed.

Lemma aborted_sticky (sig : sigref) (evs : list async_event) (st : state) :
  aborted sig st = true → aborted sig (fold_left deliver evs st) = true.
Proof.
  revert st. induction evs as [|e evs IH]; intros st Ha; simpl; [done|].
  apply IH. destruct sig, e; simpl in *.
  - by destruct (timer st).
  - by rewrite Ha.
  - by destruct (timer st).
  - destruct (ext_aborted st); simpl; [done|]. by rewrite Ha.
Qed.

Lemma external_fires_aborts (evs : list async_event) (st : state) :
  ExternalFires ∈ evs → aborted External (fold_left deliver evs st) = true.
Proof.
  revert st. induction evs as [|e evs IH]; intros st Hin; [by apply elem_of_nil in Hin|].
  apply elem_of_cons in Hin as [<-|Hin]; [|by apply IH].
  change (aborted External (fold_left deliver evs (deliver st ExternalFires)) = true).
  apply aborted_sticky. simpl. by destruct (ext_aborted st) eqn:E.
Qed.

Lemma timer_fires_aborts (evs : list async_event) (st : state) :
  TimerFires ∈ evs → timer st = Armed → aborted Internal (fold_left deliver evs st) = true.
Proof.
  revert st. induction evs as [|e evs IH]; intros st Hin Ht; [by apply elem_of_nil in Hin|].
  change (aborted Internal (fold_left deliver evs (deliver st e)) = true).
  apply elem_of_cons in Hin as [<-|Hin].
  - apply aborted_sticky. simpl. by rewrite Ht.
  - destruct e.
    + apply aborted_sticky. simpl. by rewrite Ht.
    + apply IH; [done|]. simpl. by destruct (ext_aborted st).
Qed.

(** The part of the merge of the two cancellation sources that the code
    has: while the HEAD request is pending, the caller's signal firing
    aborts the call, and so does the timer when the caller passed no
    signal.  The call then fails with what the [catch] makes of the
    reason of the abort: the timeout-or-aborted error for the timer and
    for a caller that gave no reason, the caller's reason otherwise. *)
Lemma cancellation_during_head (fileSpec : JsObject) urlConfig signal srv url :
  validate fileSpec urlConfig = inr url →
  signal ≠ Some true →
  match signal with
  | Some _ => ExternalFires ∈ head_pending srv
  | None => armed urlConfig = true ∧ TimerFires ∈ head_pending srv
  end →
  (fetchFileFromUrl fileSpec urlConfig signal srv).2
  = inl match signal with
        | Some _ => reported (raise (abort_reason srv))
        | None => TimeoutOrAborted
        end.
Proof.
  intros Hv Hs Hfire. unfold fetchFileFromUrl. rewrite Hv.
  pose proof (live_enter urlConfig signal Hs) as (Ha & _ & _).
  set (st0 := called (abort_reason srv) (enter urlConfig signal)).
  assert (timer st0 = timer (enter urlConfig signal)) as Htimer by done.
  assert (ext_reason st0 = abort_reason srv) as Hreason by done.
  change (aborted (combinedSignal signal) st0 = false) in Ha.
  clearbody st0.
  unfold guarded, try_finally, try_catch, fetchBody, bind, fetch, await.
  rewrite Ha.
  set (st2 := fold_left deliver (head_pending srv)
                (log (Request HEAD url (combinedSignal signal)) st0)).
  assert (aborted (combinedSignal signal) st2 = true) as ->.
  { unfold st2. destruct signal as [b|]; simpl.
    - by apply external_fires_aborts.
    - destruct Hfire as [Harm Hin]. apply timer_fires_aborts; [done|].
      simpl. rewrite Htimer.
      unfold enter. destruct urlConfig as [c|]; [|done]. simpl in *. by rewrite Harm. }
  assert (rejection (combinedSignal signal) st2
          = match signal with
            | Some _ => raise (abort_reason srv)
            | None => AbortError
            end) as ->.
  { unfold st2. destruct signal; simpl; [|done].
    rewrite reason_delivers. simpl. by rewrite Hreason. }
  destruct signal as [b|].
  - unfold reported. destruct (isAbortError (raise (abort_reason srv))); simpl;
      by destruct (armed urlConfig).
  - simpl. by destruct (armed urlConfig).
Qed.

(** The part it lacks: with a caller's signal present, no firing of the
    timer aborts the signal the requests listen on. *)
Lemma timer_cannot_abort_with_signal (evs : list async_event) (st : state) (b : bool) :
  ExternalFires ∉ evs →
  aborted (combinedSignal (Some b)) (fold_left deliver evs st)
  = aborted (combinedSignal (Some b)) st.
Proof.
  revert st. induction evs as [|e evs IH]; intros st Hnot; simpl; [done|].
  apply not_elem_of_cons in Hnot as [Hne Hnot]. rewrite IH by done.
  destruct e; [|done]. simpl. by destruct (timer st).
Qed.

Lemma calm_without_signal_or_timer (evs : list async_event) : calm None None evs.
Proof. apply Forall_forall. by intros []. Qed.

(** A network failure of the HEAD request that nothing cancelled is
    rethrown as it is, unless it is named [AbortError]. *)
Lemma head_failure_rethrown (fileSpec : JsObject) urlConfig signal srv (url : URL)
    (name message : string) :
  validate fileSpec urlConfig = inr url → signal ≠ Some true →
  calm urlConfig signal (head_pending srv) →
  head_outcome srv = NetworkFails name message → name ≠ "AbortError" →
  (fetchFileFromUrl fileSpec urlConfig signal srv).2 = inl (Foreign name message).
Proof.
  intros Hv Hs Hc Hh Hn. unfold fetchFileFromUrl. rewrite Hv.
  unfold guarded, try_finally, try_catch, fetchBody, fetch.
  match goal with |- context [bind (await ?sg ?started ?pending ?settle) ?k ?st] =>
    destruct (bind_await_live urlConfig signal started pending settle k st
                (live_enter urlConfig signal Hs) Hc) as [-> _]
  end.
  rewrite Hh. unfold bind, throw. simpl.
  unfold isAbortError. simpl. rewrite bool_decide_eq_false_2 by done. simpl.
  by destruct (armed urlConfig).
Qed.

(** C10, as amended.  With the [urlConfig] argument absent the function
    makes no check of its own: every URL that parses passes the policy
    stage whatever its scheme and host, and no timer is ever created,
    whatever happens next.  Whenever both requests are then answered with
    a successful status, every read delivers a chunk and the caller does
    not abort, the body is buffered in full and returned whatever its size
    and whatever content length was declared.  The body is returned in
    full in the same way under a configuration whose [maxUrlFileSizeBytes]
    is [0], for a URL that passes its scheme and domain checks, when
    nothing cancels the call.  Whether the requests are answered is the
    platform's business, and for a scheme that its [fetch] does not handle
    they are not: the URL passes the policy stage all the same, and the
    call, if the caller does not abort it, fails with the [TypeError] of
    [fetch]. *)
Theorem no_config_no_policy (fileSpec : JsObject) (signal : option bool) (srv : server)
    (url : URL) (c : UrlUploadConfig) :
  (parseURL (JS.to_string (fileSpec !! "url")) = Some url →
   let r := fetchFileFromUrl fileSpec None signal srv in
   validate fileSpec None = inr url ∧
   timer r.1 = Unarmed ∧ (∀ ms, SetTimeout ms ∉ trace r.1)) ∧
  (∀ r1 r2 s vs,
     signal ≠ Some true →
     head_outcome srv = Responds r1 → ok r1 = true →
     get_outcome srv = Responds r2 → ok r2 = true →
     body r2 = Some s → payload (reads s) = Some vs →
     let full := mkFile (JS.to_string (fileSpec !! "name")) (concat vs)
                   (JS.blob_type
                      (effective_type (fileSpec !! "mimeType")
                         (headers r2 !! "content-type"))) in
     (parseURL (JS.to_string (fileSpec !! "url")) = Some url →
      calm None signal (schedule srv) →
      (fetchFileFromUrl fileSpec None signal srv).2 = inr full) ∧
     (maxUrlFileSizeBytes c = 0 →
      validate fileSpec (Some c) = inr url →
      calm (Some c) signal (schedule srv) →
      (fetchFileFromUrl fileSpec (Some c) signal srv).2 = inr full)) ∧
  (parseURL (JS.to_string (fileSpec !! "url")) = Some url →
   JS.fetch_handles (protocol url) = false →
   signal ≠ Some true → calm None signal (head_pending srv) →
   (fetchFileFromUrl fileSpec None signal (on_platform url srv)).2
   = inl (Foreign "TypeError" "fetch failed")).
Proof.
  split; [|split].
  3:{ intros Hparse Hno Hs Hc.
      apply (head_failure_rethrown fileSpec None signal (on_platform url srv) url);
        unfold on_platform; rewrite ?Hno; try done.
      unfold validate. by rewrite Hparse. }
  - intros Hparse r. split; [unfold validate; by rewrite Hparse|].
    apply no_timer_without_config.
  - intros r1 r2 s vs Hs Hh Hok1 Hg Hok2 Hb Hp full. split.
    + intros Hparse Hc.
      apply (fetch_unlimited fileSpec None signal srv url r1 r2 s vs); try done.
      unfold validate. by rewrite Hparse.
    + intros Hzero Hv Hc.
      apply (fetch_unlimited fileSpec (Some c) signal srv url r1 r2 s vs); try done.
      simpl. by rewrite Hzero.
Qed.

Lemma trace_enter urlConfig signal :
  trace (enter urlConfig signal)
  = match urlConfig with
    | Some c => if armed urlConfig then [SetTimeout (urlFetchTimeoutMs c)] else []
    | None => []
    end.
Proof.
  unfold enter. destruct urlConfig as [c|]; simpl.
  - destruct (JS.truthy_number (urlFetchTimeoutMs c)); by destruct signal.
  - by destruct signal.
Qed.

Lemma stable_issued (e : io) : stable (λ st, e ∈ trace st).
Proof.
  split.
  - intros st ev Hin. by rewrite trace_deliver.
  - intros st x _ _ Hin. simpl. apply elem_of_app. by left.
Qed.

(** Once the GET request is started it stays in the trace, whatever
    happens afterwards. *)
Lemma get_issued url name mimeType urlConfig sig srv (st : state) :
  aborted sig st = false →
  Request GET url sig
    ∈ trace (bind (fetch url GET sig (get_pending srv) (get_outcome srv))
               (readBody name mimeType urlConfig sig) st).1.
Proof.
  intros Ha. unfold bind, fetch, await. rewrite Ha.
  set (st2 := fold_left deliver (get_pending srv) (log (Request GET url sig) st)).
  assert (Request GET url sig ∈ trace st2) as Hin.
  { unfold st2. rewrite trace_delivers. simpl. apply elem_of_app. right.
    by apply list_elem_of_singleton. }
  destruct (aborted sig st2); [done|].
  destruct (get_outcome srv) as [response|n msg]; simpl; [|done].
  by apply (frame_readBody _ name mimeType urlConfig sig response
              (stable_issued (Request GET url sig)) st2).
Qed.

Lemma guarded_keeps urlConfig (m : M File) (st : state) (e : io) :
  e ∈ trace (m st).1 → e ∈ trace (guarded urlConfig m st).1.
Proof.
  intros Hin. unfold guarded, try_finally, try_catch.
  destruct (m st) as [st1 [err|file]]; simpl in *.
  - destruct (isAbortError err); simpl;
      (destruct (armed urlConfig); simpl; [apply elem_of_app; by left|done]).
  - destruct (armed urlConfig); simpl; [apply elem_of_app; by left|done].
Qed.

(** C4, as amended.  Under a policy whose [maxUrlFileSizeBytes] is
    positive, for a URL that passes the policy stage and a HEAD request
    that is answered (not cancelled) with a successful status: when the
    [content-length] header parses to a number strictly greater than the
    limit, the call fails with the predeclared size error, the GET request
    is never made and no body byte is received; when there is no
    [content-length] header, the check is skipped and the GET request is
    made. *)
Theorem predeclared_size_check (fileSpec : JsObject) (c : UrlUploadConfig)
    (signal : option bool) (srv : server) (url : URL) (headResponse : Response) :
  0 < maxUrlFileSizeBytes c →
  validate fileSpec (Some c) = inr url →
  signal ≠ Some true →
  calm (Some c) signal (head_pending srv) →
  head_outcome srv = Responds headResponse →
  ok headResponse = true →
  let max := maxUrlFileSizeBytes c in
  let r := fetchFileFromUrl fileSpec (Some c) signal srv in
  (∀ contentLength size,
     headers headResponse !! "content-length" = Some contentLength →
     JS.parseInt10 contentLength = Some size →
     size > max →
     r.2 = inl (SizeExceededPredeclared size max) ∧
     (∀ u sg, Request GET u sg ∉ trace r.1) ∧
     received (trace r.1) = 0) ∧
  (headers headResponse !! "content-length" = None →
   Request GET url (combinedSignal signal) ∈ trace r.1).
Proof.
  intros Hpos Hv Hs Hc Hh Hok max r.
  assert (∀ K : Response → M File,
            bind (fetch url HEAD (combinedSignal signal) (head_pending srv) (head_outcome srv))
                 K (called (abort_reason srv) (enter (Some c) signal))
            = K headResponse
                (fold_left deliver (head_pending srv)
                   (log (Request HEAD url (combinedSignal signal)) (called (abort_reason srv) (enter (Some c) signal))))
            ∧ live (Some c) signal
                (fold_left deliver (head_pending srv)
                   (log (Request HEAD url (combinedSignal signal)) (called (abort_reason srv) (enter (Some c) signal)))))
    as Hhead.
  { intros K. unfold fetch.
    destruct (bind_await_live (Some c) signal
                (Some (Request HEAD url (combinedSignal signal))) (head_pending srv)
                (match head_outcome srv with
                 | Responds r => ret r
                 | NetworkFails n msg => throw (Foreign n msg)
                 end) K (called (abort_reason srv) (enter (Some c) signal)) (live_enter _ _ Hs) Hc) as [-> Hl].
    split; [|done]. by rewrite Hh. }
  set (st1 := fold_left deliver (head_pending srv)
                (log (Request HEAD url (combinedSignal signal)) (called (abort_reason srv) (enter (Some c) signal)))) in *.
  assert (trace st1 = trace (enter (Some c) signal)
                        ++ [Request HEAD url (combinedSignal signal)]) as Ht1.
  { unfold st1. by rewrite trace_delivers. }
  split.
  - intros contentLength size Hcl Hparse Hgt.
    assert (r = (if armed (Some c) then clearTimeout st1 else st1,
                 inl (SizeExceededPredeclared size max))) as ->.
    { subst r. unfold fetchFileFromUrl. rewrite Hv.
      unfold guarded, try_finally, try_catch, fetchBody.
      destruct (Hhead (λ headResponse0,
                  bind (if negb (ok headResponse0)
                        then throw (MetadataRequestFailed (status headResponse0)
                                      (statusText headResponse0))
                        else ret tt)
                    (λ _, bind (checkContentLength (Some c) headResponse0)
                       (λ _, bind (fetch url GET (combinedSignal signal)
                                     (get_pending srv) (get_outcome srv))
                               (λ response,
                                  readBody (JS.to_string (fileSpec !! "name"))
                                    (fileSpec !! "mimeType") (Some c)
                                    (combinedSignal signal) response))))) as [-> _].
      rewrite Hok. unfold bind at 1. simpl.
      unfold checkContentLength. rewrite Hcl, Hparse.
      assert (JS.truthy_string contentLength = true) as ->.
      { unfold JS.truthy_string. destruct (decide (contentLength = "")) as [->|]; done. }
      assert (JS.truthy_number (maxUrlFileSizeBytes c) = true) as ->.
      { unfold JS.truthy_number. destruct (Z.eqb_spec (maxUrlFileSizeBytes c) 0); [lia|done]. }
      simpl.
      assert ((size >? maxUrlFileSizeBytes c) = true) as ->.
      { destruct (Z.gtb_spec size (maxUrlFileSizeBytes c)); [done|]. unfold max in Hgt. lia. }
      unfold bind, throw. simpl. done. }
    split; [done|]. cbn [fst].
    assert (trace (if armed (Some c) then clearTimeout st1 else st1)
            = trace (enter (Some c) signal)
                ++ [Request HEAD url (combinedSignal signal)]
                ++ (if armed (Some c) then [ClearTimeout] else [])) as ->.
    { destruct (armed (Some c)); simpl; rewrite Ht1; [by rewrite <- app_assoc|done]. }
    rewrite trace_enter. split.
    + intros u sg Hin.
      destruct (armed (Some c)); simpl in Hin;
        repeat (apply elem_of_cons in Hin as [Hin|Hin]; [done|]);
        by apply elem_of_nil in Hin.
    + by destruct (armed (Some c)).
  - intros Hnone. subst r. unfold fetchFileFromUrl. rewrite Hv.
    apply guarded_keeps. unfold fetchBody.
    destruct (Hhead (λ headResponse0,
                bind (if negb (ok headResponse0)
                      then throw (MetadataRequestFailed (status headResponse0)
                                    (statusText headResponse0))
                      else ret tt)
                  (λ _, bind (checkContentLength (Some c) headResponse0)
                     (λ _, bind (fetch url GET (combinedSignal signal)
                                   (get_pending srv) (get_outcome srv))
                             (λ response,
                                readBody (JS.to_string (fileSpec !! "name"))
                                  (fileSpec !! "mimeType") (Some c)
                                  (combinedSignal signal) response))))) as [-> Hl].
    rewrite Hok. unfold bind at 1. simpl.
    unfold checkContentLength. rewrite Hnone. unfold bind at 1. simpl.
    apply get_issued. by destruct Hl.
Qed.

End Calm.

(** ** The path resolver *)

Section Paths.
Context `{Libraries}.
Import PathResolver Spec.

Lemma cut_at_slash_app (identifier rest : string) :
  slash_free identifier →
  cut_at_slash (identifier +:+ "/" +:+ rest) = Some (identifier, rest).
Proof.
  unfold slash_free. induction identifier as [|a s IH]; simpl; intros Hfree.
  - done.
  - apply not_elem_of_cons in Hfree as [Hne Hfree].
    destruct (decide (a = "/"%char)); [congruence|]. by rewrite IH.
Qed.

Lemma cut_at_slash_spec (s a b : string) :
  cut_at_slash s = Some (a, b) → s = a +:+ "/" +:+ b ∧ slash_free a.
Proof.
  unfold slash_free. revert a. induction s as [|c s IH]; simpl; intros a Hcut; [done|].
  destruct (decide (c = "/"%char)) as [->|Hne].
  - injection Hcut as <- <-. split; [done|]. apply not_elem_of_nil.
  - destruct (cut_at_slash s) as [[a' b']|]; [|done]. injection Hcut as <- <-.
    destruct (IH a' eq_refl) as [-> Hfree]. split; [done|].
    simpl. apply not_elem_of_cons. split; [congruence|done].
Qed.

Lemma strip_prefix_app (p s : string) : strip_prefix p (p +:+ s) = Some s.
Proof.
  induction p as [|a p IH]; simpl; [by destruct s|].
  destruct (decide (a = a)); [done|congruence].
Qed.

Lemma strip_prefix_spec (p s t : string) : strip_prefix p s = Some t → s = p +:+ t.
Proof.
  revert s. induction p as [|a p IH]; intros s Hs; simpl in *.
  - destruct s; by injection Hs as <-.
  - destruct s as [|b s]; [done|]. destruct (decide (a = b)) as [->|]; [|done].
    by rewrite (IH s Hs).
Qed.

Lemma bare_form_app (identifier c rest : string) :
  slash_free identifier → parseCID identifier = Some c →
  bare_form (identifier +:+ "/" +:+ rest) = Some (mkResource "ipfs:" c ("/" +:+ rest)).
Proof. intros Hfree Hcid. unfold bare_form. by rewrite cut_at_slash_app, Hcid. Qed.

Lemma bare_form_spec (s : string) (r : Resource) :
  bare_form s = Some r →
  res_protocol r = "ipfs:" ∧
  ∃ identifier rest,
    s = identifier +:+ "/" +:+ rest ∧ slash_free identifier ∧
    parseCID identifier = Some (cid r) ∧ pathname r = "/" +:+ rest.
Proof.
  unfold bare_form. destruct (cut_at_slash s) as [[identifier rest]|] eqn:Hcut; [|done].
  destruct (parseCID identifier) as [c|] eqn:Hcid; [|done]. intros [= <-].
  apply cut_at_slash_spec in Hcut as [-> Hfree]. split; [done|]. eauto 10.
Qed.

(** C8.  The three accepted forms of one identifier and one remainder
    parse to the same [Resource]; whenever [parse] succeeds, the input is
    in one of the three forms, the protocol is ["ipfs:"], and the pathname
    is a slash followed by the remainder, verbatim; an input in none of the
    forms fails (with [InvalidPath], the only failure of [parse]).  The
    first part uses that [CID.parse] rejects the empty text and ["ipfs:"]. *)
Theorem parse_forms :
  parseCID "" = None → parseCID "ipfs:" = None →
  (∀ identifier c rest,
     slash_free identifier → parseCID identifier = Some c →
     let r := Some (mkResource "ipfs:" c ("/" +:+ rest)) in
     parse (identifier +:+ "/" +:+ rest) = r ∧
     parse ("/ipfs/" +:+ identifier +:+ "/" +:+ rest) = r ∧
     parse ("ipfs://" +:+ identifier +:+ "/" +:+ rest) = r) ∧
  (∀ path r,
     parse path = Some r →
     res_protocol r = "ipfs:" ∧
     ∃ rest, pathname r = "/" +:+ rest ∧ has_form path (cid r) rest) ∧
  (∀ path, (∀ c rest, ¬ has_form path c rest) → parse path = None).
Proof.
  intros Hempty Hscheme.
  assert (∀ path r,
            parse path = Some r →
            res_protocol r = "ipfs:" ∧
            ∃ rest, pathname r = "/" +:+ rest ∧ has_form path (cid r) rest) as Hsound.
  { intros path r. unfold parse.
    destruct (bare_form path) as [r0|] eqn:Hb.
    - intros [= <-]. apply bare_form_spec in Hb as (Hp & identifier & rest & -> & Hf & Hc & Hn).
      split; [done|]. exists rest. split; [done|]. exists "", identifier. auto.
    - destruct (strip_prefix "/ipfs/" path) as [s|] eqn:Hs1.
      + intros Hb2. apply strip_prefix_spec in Hs1 as ->.
        apply bare_form_spec in Hb2 as (Hp & identifier & rest & -> & Hf & Hc & Hn).
        split; [done|]. exists rest. split; [done|]. exists "/ipfs/", identifier. auto.
      + destruct (strip_prefix "ipfs://" path) as [s|] eqn:Hs2; [|done].
        intros Hb2. apply strip_prefix_spec in Hs2 as ->.
        apply bare_form_spec in Hb2 as (Hp & identifier & rest & -> & Hf & Hc & Hn).
        split; [done|]. exists rest. split; [done|]. exists "ipfs://", identifier. auto. }
  split; [|split; [done|]].
  - intros identifier c rest Hfree Hcid r.
    pose proof (bare_form_app identifier c rest Hfree Hcid) as Hbare.
    split; [|split].
    + unfold parse. by rewrite Hbare.
    + unfold parse.
      assert (bare_form ("/ipfs/" +:+ identifier +:+ "/" +:+ rest) = None) as ->.
      { unfold bare_form. simpl. by rewrite Hempty. }
      by rewrite (strip_prefix_app "/ipfs/").
    + unfold parse.
      assert (bare_form ("ipfs://" +:+ identifier +:+ "/" +:+ rest) = None) as ->.
      { unfold bare_form. simpl. by rewrite Hscheme. }
      assert (strip_prefix "/ipfs/" ("ipfs://" +:+ identifier +:+ "/" +:+ rest) = None) as ->
        by done.
      by rewrite (strip_prefix_app "ipfs://").
  - intros path Hnone. destruct (parse path) as [r|] eqn:Hp; [|done].
    destruct (Hsound path r Hp) as (_ & rest & _ & Hform). by destruct (Hnone (cid r) rest).
Qed.

End Paths.

(** ** Retrieval *)

Section Retrieval.
Context `{Runtime} `{Libraries}.
Import Client Spec.

Lemma export_missing (w : walker) (reader : gmap string (list byte)) (acc : list byte)
    (id : string) :
  id ∈ requested w reader → reader !! id = None →
  export w reader acc = inl (BlockNotFound id).
Proof.
  revert acc. induction w as [cid k IH|chunk k IH| |m]; intros acc Hin Hnone; simpl in *.
  - unfold blockstore_get. destruct (reader !! cid) as [block|] eqn:Hb.
    + apply elem_of_cons in Hin as [->|Hin]; [congruence|]. by apply IH.
    + apply elem_of_cons in Hin as [->|Hin]; [done|]. by apply elem_of_nil in Hin.
  - by apply IH.
  - by apply elem_of_nil in Hin.
  - by apply elem_of_nil in Hin.
Qed.

Lemma export_success (w : walker) (reader : gmap string (list byte)) (acc content : list byte) :
  export w reader acc = inr content →
  ∀ id, id ∈ requested w reader → is_Some (reader !! id).
Proof.
  intros Hex id Hin. destruct (reader !! id) eqn:Hid; [done|].
  rewrite (export_missing w reader acc id Hin Hid) in Hex. done.
Qed.

(** A successful export does not depend on blocks it did not ask for: on
    any larger lookup it yields the same content. *)
Lemma export_mono (w : walker) (reader full : gmap string (list byte))
    (acc content : list byte) :
  reader ⊆ full → export w reader acc = inr content → export w full acc = inr content.
Proof.
  intros Hsub. revert acc.
  induction w as [cid k IH|chunk k IH| |m]; intros acc Hex; simpl in *; try done.
  - unfold blockstore_get in *. destruct (reader !! cid) as [block|] eqn:Hb; [|done].
    rewrite (lookup_weaken _ _ _ _ Hb Hsub). by apply IH.
  - by apply IH.
Qed.

(** C9.  For a path that parses and a gateway URL that is set:
    [retrieve] makes one request, to the URL obtained by resolving
    [/ipfs/<identifier><pathname>?format=car] against the gateway base;
    a response whose status is not a success fails the call; when the
    archive decodes, any identifier the exporter asks for that the lookup
    does not hold fails the whole call with 'not found'; and a successful
    call has found every block it asked for, so that its result is the
    encoding of the complete content: the same content the export yields
    on any archive that extends the one received. *)
Theorem archive_retrieval (c : client) (filepath : string) (options : option RetrieveOptions)
    (gateway : URL → gateway_outcome) (resource : PathResolver.Resource) (base target : URL) :
  PathResolver.parse filepath = Some resource →
  getGatewayUrl c = Some base →
  let pathWithCid := PathResolver.cid resource +:+ PathResolver.pathname resource in
  resolveURL ("/ipfs/" +:+ pathWithCid +:+ "?format=car") base = Some target →
  let r := retrieve c filepath options gateway in
  r.1 = [target] ∧
  (∀ response,
     gateway target = GatewayResponds response → g_ok response = false →
     r.2 = inl (GatewayError (g_status response) (g_statusText response))) ∧
  (∀ response bytes reader,
     gateway target = GatewayResponds response → g_ok response = true →
     g_body response = Some bytes → decodeCar bytes = Some reader →
     (∀ id, id ∈ requested (exporter pathWithCid) reader → reader !! id = None →
        r.2 = inl (BlockNotFound id)) ∧
     (∀ result, r.2 = inr result →
        (∀ id, id ∈ requested (exporter pathWithCid) reader → is_Some (reader !! id)) ∧
        (∀ full content,
           reader ⊆ full → export (exporter pathWithCid) full [] = inr content →
           data result
           = streamToBase64 content (default false (options ≫= useMultiformatBase64))))).
Proof.
  intros Hparse Hbase pathWithCid Htarget r.
  subst r. unfold retrieve. rewrite Hparse, Hbase. fold pathWithCid. rewrite Htarget.
  split; [done|]. split.
  - intros response Hg Hok. simpl. by rewrite Hg, Hok.
  - intros response bytes reader Hg Hok Hbody Hcar. simpl.
    rewrite Hg, Hok, Hbody, Hcar. simpl. split.
    + intros id Hin Hnone. by rewrite (export_missing _ _ [] id Hin Hnone).
    + intros result Hres.
      destruct (export (exporter pathWithCid) reader []) as [e|content] eqn:Hex; [done|].
      injection Hres as <-. split.
      * by apply (export_success _ _ [] content).
      * intros full content' Hsub Hfull. simpl.
        rewrite (export_mono _ _ _ _ _ Hsub Hex) in Hfull. by injection Hfull as <-.
Qed.

End Retrieval.

(* ===================================================================== *)
(** * Part II, continued. Further properties of the code                  *)
(* ===================================================================== *)

(** ** The client: accessors *)

Section Accessors.
Context `{Runtime} `{Libraries}.
Import Client Spec.

Lemma run_config (acts : list action) (c : client) : config (run c acts).1 = config c.
Proof.
  revert c. induction acts as [|a acts IH]; intros c; simpl; [done|].
  destruct a as [|s]; simpl.
  - destruct (initialize c) as [c1 r] eqn:Ei. specialize (IH c1).
    destruct (run c1 acts). simpl in *. rewrite IH.
    unfold initialize in Ei.
    destruct (initialized c); [by injection Ei as <- _|].
    destruct (signer (config c)); [|by injection Ei as <- _].
    destruct (delegation (config c)); by injection Ei as <- _.
  - specialize (IH (settle c s)). destruct (run (settle c s) acts). simpl in *. rewrite IH.
    destruct s; simpl; destruct (promises c !! _) as [[]|]; done.
Qed.

Lemma run_uncommitted (acts : list action) (c : client) :
  initialized c = None → (run c acts).2 = [] → initialized (run c acts).1 = None.
Proof.
  revert c. induction acts as [|a acts IH]; intros c Hi Hr; simpl in *; [done|].
  destruct a as [|s]; simpl in *.
  - destruct (initialize c) as [c1 r]. destruct (run c1 acts). done.
  - assert (initialized (settle c s) = None) as Hs.
    { destruct s; simpl; destruct (promises c !! _) as [[]|]; done. }
    specialize (IH _ Hs). destruct (run (settle c s) acts). simpl in *. auto.
Qed.

(** X1.  [isConnected] reports that [initialize] was committed, not that it
    succeeded: after any interleaving of calls and settlements on a fresh
    client it is true exactly when a call was made with both credentials
    present; a ready client is connected; and a client whose
    initialization was rejected is still reported connected, though it is
    not ready. *)
Theorem isConnected_means_committed (cfg : StorageConfig) (acts : list action)
    (c : client) (rets : list init_result) :
  run (new_client cfg) acts = (c, rets) →
  (isConnected c = true ↔ is_Some (signer cfg) ∧ is_Some (delegation cfg) ∧ rets ≠ []) ∧
  (ready c = true → isConnected c = true) ∧
  (∀ p m, initialized c = Some p → promises c !! p = Some (Rejected m) →
     isConnected c = true ∧ ready c = false).
Proof.
  intros Hrun.
  pose proof (run_inv cfg acts _ (new_client_inv cfg)) as [(_ & _ & Hi) _].
  rewrite Hrun in Hi. simpl in Hi.
  split; [|split].
  - unfold isConnected. split.
    + destruct (initialized c) as [p|] eqn:Ep; [|done]. intros _.
      destruct Hi as (_ & Hs & Hd & _). split; [done|]. split; [done|].
      intros ->. pose proof (run_uncommitted acts (new_client cfg) eq_refl) as Hu.
      rewrite Hrun in Hu. simpl in Hu. rewrite Hu in Ep; done.
    + intros (Hs & Hd & Hne).
      pose proof (run_commits cfg acts _ (new_client_inv cfg) Hs Hd) as Hc.
      rewrite Hrun in Hc. simpl in Hc. by rewrite Hc.
  - unfold ready, isConnected. by destruct (initialized c).
  - intros p m Hp Hm. unfold isConnected, ready. by rewrite Hp, Hm.
Qed.

Lemma export_error (w : walker) (reader : gmap string (list byte)) (acc : list byte)
    (e : retrieve_error) :
  export w reader acc = inl e →
  (∃ cid, e = BlockNotFound cid) ∨ (∃ m, e = ExporterError m).
Proof.
  revert acc. induction w as [cid k IH|chunk k IH| |m]; intros acc; simpl.
  - unfold blockstore_get. destruct (reader !! cid); [by apply IH|].
    intros [= <-]. left. by eexists.
  - apply IH.
  - done.
  - intros [= <-]. right. by eexists.
Qed.

(** X2.  On a client built by the constructor the gateway URL is always
    set: after any interleaving, [getConfig] returns the configuration the
    client was built from with the default gateway URL filled in when none
    was given, [getGatewayUrl] returns that URL, and the 'Gateway URL is
    not set' failure is unreachable, also for [retrieve] and for the
    uploads. *)
Theorem gateway_url_always_set (cfg : StorageConfig) (acts : list action)
    (filepath : string) (options : option RetrieveOptions) (gateway : URL → gateway_outcome)
    (files : list UploadFile) (uploadOptions : UploadOptions) (reply : upload_reply) :
  let c := (run (new_client cfg) acts).1 in
  getConfig c = mkConfig (signer cfg) (delegation cfg)
                  (Some (default DEFAULT_GATEWAY_URL (gatewayUrl cfg))) ∧
  getGatewayUrl c = Some (default DEFAULT_GATEWAY_URL (gatewayUrl cfg)) ∧
  (retrieve c filepath options gateway).2 ≠ inl NoGatewayUrl ∧
  (uploadFiles c files uploadOptions reply).2 ≠ inl GatewayUrlNotSet.
Proof.
  intros c.
  assert (getGatewayUrl c = Some (default DEFAULT_GATEWAY_URL (gatewayUrl cfg))) as Hg.
  { unfold getGatewayUrl, c. by rewrite run_config. }
  split; [unfold getConfig, c; by rewrite run_config|].
  split; [done|]. split.
  - unfold retrieve. rewrite Hg.
    repeat (case_match; simpl; try done).
    intros [= ->]. by destruct (export_error _ _ _ _ H7) as [[? ?]|[? ?]].
  - unfold uploadFiles, performUpload. rewrite Hg.
    repeat (case_match; simpl; try done).
Qed.

Lemma storage_origin (acts : list action) (c : client) (h : nat) :
  storage (run c acts).1 = Some h →
  storage c = Some h ∨ ∃ p, Settle (CreateResolves p h) ∈ acts.
Proof.
  revert c. induction acts as [|a acts IH]; intros c Hs; simpl in *; [by left|].
  destruct a as [|s]; simpl in *.
  - destruct (initialize c) as [c1 r] eqn:Ei.
    assert (storage c1 = storage c) as Hc1.
    { unfold initialize in Ei. destruct (initialized c); [by injection Ei as <- _|].
      destruct (signer (config c)); [|by injection Ei as <- _].
      destruct (delegation (config c)); by injection Ei as <- _. }
    specialize (IH c1). destruct (run c1 acts). simpl in *.
    destruct (IH Hs) as [Hh|[p Hp]]; [left; congruence|].
    right. exists p. by apply elem_of_cons; right.
  - specialize (IH (settle c s)). destruct (run (settle c s) acts). simpl in *.
    destruct (IH Hs) as [Hh|[p Hp]].
    + destruct s as [p h'|p m|p|p m]; simpl in Hh;
        destruct (promises c !! p) as [[]|]; simpl in Hh; auto.
      injection Hh as ->. right. exists p. apply elem_of_cons. by left.
    + right. exists p. by apply elem_of_cons; right.
Qed.

Lemma storage_kept (cfg : StorageConfig) (acts : list action) (c : client) (h : nat) :
  init_inv cfg c → storage c = Some h →
  storage (run c acts).1 = Some h.
Proof.
  revert c. induction acts as [|a acts IH]; intros c Hinv Hs; simpl; [done|].
  destruct a as [|s]; simpl.
  - destruct (initialize_inv cfg c Hinv) as [Hinv1 _].
    assert (storage (initialize c).1 = Some h) as Hs1.
    { pose proof Hinv as (_ & _ & Hi). unfold initialize.
      destruct (initialized c); [done|]. destruct Hi as (_ & _ & Hn). congruence. }
    destruct (initialize c) as [c1 r]. simpl in *.
    specialize (IH c1 Hinv1 Hs1). by destruct (run c1 acts).
  - pose proof (settle_inv cfg c s Hinv) as Hinv1.
    assert (storage (settle c s) = Some h) as Hs1.
    { pose proof Hinv as (_ & _ & Hi).
      destruct (initialized c).
      - destruct Hi as (_ & _ & _ & _ & _ & st & Hp & Hst).
        destruct s as [p h'|p m|p|p m]; simpl; rewrite Hp;
          (destruct p as [|p]; [|done]); simpl; destruct st; try done.
        destruct Hst as [_ Hn]. congruence.
      - destruct Hi as (_ & _ & Hn). congruence. }
    specialize (IH _ Hinv1 Hs1). by destruct (run (settle c s) acts).
Qed.

(** X3.  The backend handle of [getStorage]: after any interleaving on a
    fresh client it is set only if [Storage.create] resolved with that
    handle, and once set it is kept whatever happens next, also when the
    space-delegation setup is rejected. *)
Theorem storage_follows_create (cfg : StorageConfig) (acts more : list action)
    (c : client) (rets : list init_result) (h : nat) :
  run (new_client cfg) acts = (c, rets) →
  getStorage c = Some h →
  (∃ p, Settle (CreateResolves p h) ∈ acts) ∧
  getStorage (run c more).1 = Some h.
Proof.
  intros Hrun Hs. unfold getStorage in *.
  pose proof (run_inv cfg acts _ (new_client_inv cfg)) as [Hinv _].
  rewrite Hrun in Hinv. simpl in Hinv. split.
  - pose proof (storage_origin acts (new_client cfg) h) as Ho.
    rewrite Hrun in Ho. simpl in Ho. by destruct (Ho Hs).
  - by apply (storage_kept cfg).
Qed.

(** X23.  [retrieve] needs no initialization: after any interleaving of
    [initialize] calls and settlements, also on a client built without
    credentials, it behaves as on the freshly built client.  It makes at
    most one request.  When the path does not parse it makes none and
    fails with the resolver's error; when the path parses and the request
    URL cannot be built from it and the gateway it makes none and fails
    with the error of [new URL]; when the URL can be built it makes the
    one request for that URL.  So it makes no request exactly in the first
    two cases.  A result comes from a response with a successful status,
    and its [type] is the content type of that response when it is not
    empty, and is absent otherwise. *)
Theorem retrieve_needs_no_initialization (cfg : StorageConfig) (acts : list action)
    (filepath : string) (options : option RetrieveOptions)
    (gateway : URL → gateway_outcome) :
  let r := retrieve (run (new_client cfg) acts).1 filepath options gateway in
  let request := λ resource,
    "/ipfs/" +:+ (PathResolver.cid resource +:+ PathResolver.pathname resource)
      +:+ "?format=car" in
  let base := default DEFAULT_GATEWAY_URL (gatewayUrl cfg) in
  r = retrieve (new_client cfg) filepath options gateway ∧
  (length r.1 ≤ 1)%nat ∧
  (parseIpfsPath filepath = None → r = ([], inl (InvalidPath filepath))) ∧
  (∀ resource, parseIpfsPath filepath = Some resource →
     (resolveURL (request resource) base = None → r = ([], inl InvalidRequestUrl)) ∧
     (∀ target, resolveURL (request resource) base = Some target → r.1 = [target])) ∧
  (r.1 = [] → r.2 = inl (InvalidPath filepath) ∨ r.2 = inl InvalidRequestUrl) ∧
  (∀ result, r.2 = inr result →
     ∃ target response,
       r.1 = [target] ∧ gateway target = GatewayResponds response ∧
       g_ok response = true ∧
       type result = JS.or_string (g_headers response !! "content-type") None).
Proof.
  intros r request base. subst r request base.
  unfold retrieve, getGatewayUrl. rewrite run_config. simpl.
  split; [done|].
  destruct (parseIpfsPath filepath) as [resource|]; simpl.
  2:{ split; [lia|]. split; [done|]. split; [done|]. split; [by left|done]. }
  destruct (resolveURL _ _) as [target|] eqn:Et; simpl.
  2:{ split; [lia|]. split; [done|]. split; [|split; [by right|done]].
      intros ? [= <-]. rewrite Et. done. }
  split; [lia|]. split; [done|]. split; [|split; [done|]].
  { intros ? [= <-]. rewrite Et. split; [done|]. by intros ? [= <-]. }
  intros result. destruct (gateway target) as [response|n m] eqn:Eg; [|done].
  destruct (g_ok response) eqn:Eok; simpl; [|done].
  destruct (g_body response) as [bytes|]; [|done].
  destruct (decodeCar bytes) as [reader|]; [|done].
  destruct (export _ _ _) as [e|content]; [done|].
  intros [= <-]. exists target, response. done.
Qed.

End Accessors.

(** ** The client: uploads *)

Section Uploads.
Context `{Runtime} `{Libraries}.
Import Client Spec.

Lemma decodeFiles_spec (files : list UploadFile) (fs : list File) :
  decodeFiles files = Some fs ↔ Forall2 decoded files fs.
Proof.
  revert fs. induction files as [|f files IH]; intros fs; simpl.
  - split; [intros [= <-]; constructor|]. intros Hf. by apply Forall2_nil_inv_l in Hf as ->.
  - destruct (base64ToBytes (content f)) as [bytes|] eqn:Eb.
    + destruct (decodeFiles files) as [fs'|] eqn:Ed.
      * split.
        -- intros [= <-]. constructor; [done|]. by apply IH.
        -- intros Hf. apply Forall2_cons_inv_l in Hf as (o & fs'' & (Hb & Hn & Ht) & Hrest & ->).
           apply IH in Hrest. destruct o as [n b t]. simpl in *. congruence.
      * split; [done|]. intros Hf.
        apply Forall2_cons_inv_l in Hf as (o & fs'' & _ & Hrest & ->).
        apply IH in Hrest. done.
    + split; [done|]. intros Hf.
      apply Forall2_cons_inv_l in Hf as (o & fs'' & (Hb & _) & _ & ->). congruence.
Qed.

Lemma decodeFiles_none (files : list UploadFile) :
  decodeFiles files = None ↔ ∃ f, f ∈ files ∧ base64ToBytes (content f) = None.
Proof.
  induction files as [|f files IH]; simpl.
  - split; [done|]. intros (f & Hin & _). by apply elem_of_nil in Hin.
  - destruct (base64ToBytes (content f)) as [bytes|] eqn:Eb.
    + destruct (decodeFiles files) as [fs'|] eqn:Ed.
      * split; [done|]. intros (g & Hin & Hg).
        apply elem_of_cons in Hin as [->|Hin]; [congruence|].
        destruct IH as [_ IH]. discriminate IH. eauto.
      * split; [|done]. intros _. destruct IH as [IH _].
        destruct (IH eq_refl) as (g & Hin & Hg). exists g. split; [|done].
        by apply elem_of_cons; right.
    + split; [|done]. intros _. exists f. split; [|done]. by apply elem_of_cons; left.
Qed.

Lemma performUpload_call (c : client) (h : nat) (fs : list File) (options : UploadOptions)
    (reply : upload_reply) :
  storage c = Some h →
  (performUpload c fs options reply).1 = delegated c h fs options.
Proof.
  intros Hs. unfold performUpload, delegated. rewrite Hs.
  assert ((if publishToFilecoin options is Some true then true else false)
          = bool_decide (publishToFilecoin options = Some true)) as ->.
  { by destruct (publishToFilecoin options) as [[]|]. }
  destruct (result reply); [done|]. destruct (getGatewayUrl c); [|done].
  by destruct (resolveURL _ _).
Qed.

Lemma performUpload_result (c : client) (fs : list File) (options : UploadOptions)
    (reply : upload_reply) (u : UploadResult) :
  (performUpload c fs options reply).2 = inr u →
  result reply = inr (root u) ∧
  (∃ base, getGatewayUrl c = Some base ∧
           resolveURL ("/ipfs/" +:+ root u) base = Some (url u)) ∧
  files u = fold_left onDirectoryEntryLink (entries reply) ∅.
Proof.
  unfold performUpload. destruct (storage c); [|done].
  destruct (result reply) as [m|r]; [done|].
  destruct (getGatewayUrl c) as [base|]; [|done].
  destruct (resolveURL _ _) as [v|] eqn:Er; [|done].
  simpl. intros [= <-]. simpl. eauto.
Qed.

(** X4.  [uploadFiles]: the call is rejected, with the client untouched and
    the backend not called, when the guard fires, when the caller's signal
    is already aborted, or when the content of any file is not valid
    base-64.  Otherwise the backend receives exactly one [uploadDirectory]
    call, with one [File] per input in the same order (same name, decoded
    bytes, no type), 3 retries unless the caller chose otherwise, and the
    piece hasher exactly when [publishToFilecoin] is [true]; a result
    carries the root the backend answered and the URL [/ipfs/<root>]
    resolved against the gateway. *)
Theorem uploadFiles_delegates (c : client) (files : list UploadFile)
    (options : UploadOptions) (reply : upload_reply) :
  let r := uploadFiles c files options reply in
  (initialized c = None ∨ storage c = None ∨ signal options = Some true ∨
   (∃ f, f ∈ files ∧ base64ToBytes (content f) = None) →
   r.1 = c ∧ ∃ e, r.2 = inl e) ∧
  (∀ h fs, is_Some (initialized c) → storage c = Some h →
     signal options ≠ Some true → Forall2 decoded files fs →
     r.1 = delegated c h fs options ∧
     (∀ m, result reply = inl m → r.2 = inl (BackendError m)) ∧
     (∀ u, r.2 = inr u →
        result reply = inr (root u) ∧
        ∃ base, getGatewayUrl c = Some base ∧
                resolveURL ("/ipfs/" +:+ root u) base = Some (url u))).
Proof.
  intros r. subst r. unfold uploadFiles. split.
  - intros Hb. destruct (initialized c); [|eauto]. destruct (storage c); [|eauto].
    destruct Hb as [?|[?|[-> |Hd]]]; [done|done|simpl; eauto|].
    destruct (default false (signal options)); [eauto|].
    apply decodeFiles_none in Hd. rewrite Hd. eauto.
  - intros h fs [p Hp] Hs Hsig Hd. rewrite Hp, Hs.
    assert (default false (signal options) = false) as ->.
    { by destruct (signal options) as [[]|]. }
    apply decodeFiles_spec in Hd. rewrite Hd.
    split; [by apply performUpload_call|]. split.
    + intros m Hm. unfold performUpload. by rewrite Hs, Hm.
    + intros u Hu. apply performUpload_result in Hu as (? & ? & _). done.
Qed.

Lemma fetchAll_inr (specs : list JsObject) urlConfig sig net (i : nat) (fs : list File) :
  fetchAll specs urlConfig sig net i = inr fs →
  length fs = length specs ∧
  ∀ j spec, specs !! j = Some spec →
    ∃ f, fs !! j = Some f ∧
         (UrlFetch.fetchFileFromUrl spec urlConfig sig (net (i + j)%nat)).2 = inr f.
Proof.
  revert i fs. induction specs as [|spec specs IH]; intros i fs; simpl.
  - intros [= <-]. split; [done|]. intros j s Hj. by rewrite lookup_nil in Hj.
  - destruct (UrlFetch.fetchFileFromUrl spec urlConfig sig (net i)).2 as [e|f] eqn:Ef; [done|].
    destruct (fetchAll specs urlConfig sig net (S i)) as [e|fs'] eqn:Ea; [done|].
    intros [= <-]. destruct (IH _ _ Ea) as [Hlen Hall]. split; [simpl; congruence|].
    intros [|j] s Hj; simpl in *.
    + injection Hj as <-. exists f. by rewrite Nat.add_0_r.
    + destruct (Hall j s Hj) as (g & Hg & Hfg). exists g. split; [done|].
      by replace (i + S j)%nat with (S i + j)%nat by lia.
Qed.

Lemma fetchAll_inl (specs : list JsObject) urlConfig sig net (i : nat) (e : UrlFetch.error) :
  fetchAll specs urlConfig sig net i = inl e →
  ∃ j spec, specs !! j = Some spec ∧
            (UrlFetch.fetchFileFromUrl spec urlConfig sig (net (i + j)%nat)).2 = inl e.
Proof.
  revert i. induction specs as [|spec specs IH]; intros i; simpl; [done|].
  destruct (UrlFetch.fetchFileFromUrl spec urlConfig sig (net i)).2 as [e'|f] eqn:Ef.
  - intros [= <-]. exists 0%nat, spec. by rewrite Nat.add_0_r.
  - destruct (fetchAll specs urlConfig sig net (S i)) as [e'|fs'] eqn:Ea; [|done].
    intros [= <-]. destruct (IH _ Ea) as (j & s & Hj & Hf). exists (S j), s.
    split; [done|]. by replace (i + S j)%nat with (S i + j)%nat by lia.
Qed.

Lemma fetchAll_fetched (specs : list JsObject) urlConfig sig net (fs : list File) :
  fetched urlConfig sig net specs fs → fetchAll specs urlConfig sig net 0 = inr fs.
Proof.
  intros [Hlen Hall].
  destruct (fetchAll specs urlConfig sig net 0) as [e|fs'] eqn:Ea.
  - apply fetchAll_inl in Ea as (j & s & Hj & Hf). simpl in Hf.
    destruct (Hall j s Hj) as (f & _ & Hok). congruence.
  - f_equal. apply fetchAll_inr in Ea as [Hlen' Hall'].
    apply list_eq. intros j. destruct (specs !! j) as [s|] eqn:Hj.
    + destruct (Hall j s Hj) as (f & -> & Hok).
      destruct (Hall' j s Hj) as (f' & -> & Hok'). simpl in Hok'. congruence.
    + apply lookup_ge_None in Hj.
      rewrite (proj2 (lookup_ge_None fs j)) by lia.
      apply lookup_ge_None. lia.
Qed.

(** X5.  [uploadFilesFromUrls] is all or nothing: if the fetch of any one
    of the requested URLs fails, the call is rejected and the backend is
    not called, and past the guard and the abort check the rejection is
    the error of one of the failed fetches; when every fetch succeeds the
    backend receives exactly one [uploadDirectory] call with the fetched
    files, one per request and in request order. *)
Theorem uploadFilesFromUrls_all_or_nothing (c : client) (specs : list JsObject)
    (options : UploadOptions) (urlConfig : option UrlUploadConfig)
    (net : nat → UrlFetch.server) (reply : upload_reply) :
  let fetch_of j spec :=
    (UrlFetch.fetchFileFromUrl spec urlConfig (signal options) (net j)).2 in
  let r := uploadFilesFromUrls c specs options urlConfig net reply in
  ((∃ j spec e, specs !! j = Some spec ∧ fetch_of j spec = inl e) →
   r.1 = c ∧ ∃ e, r.2 = inl e ∧
     (is_Some (initialized c) → is_Some (storage c) → signal options ≠ Some true →
      ∃ j spec e', specs !! j = Some spec ∧ fetch_of j spec = inl e' ∧ e = FetchError e')) ∧
  (∀ h fs, is_Some (initialized c) → storage c = Some h →
     signal options ≠ Some true → fetched urlConfig (signal options) net specs fs →
     r.1 = delegated c h fs options).
Proof.
  intros fetch_of r. subst r. unfold uploadFilesFromUrls. split.
  - intros (j & spec & e & Hj & Hf).
    destruct (initialized c) as [p|].
    2:{ split; [done|]. eexists. split; [done|]. by intros [? ?]. }
    destruct (storage c) as [h|].
    2:{ split; [done|]. eexists. split; [done|]. by intros _ [? ?]. }
    destruct (default false (signal options)) eqn:Es.
    { split; [done|]. eexists. split; [done|]. intros _ _ Hn.
      by destruct (signal options) as [[]|]. }
    destruct (fetchAll specs urlConfig (signal options) net 0) as [e'|fs] eqn:Ea.
    + split; [done|]. eexists. split; [done|]. intros _ _ _.
      apply fetchAll_inl in Ea as (j' & s' & Hj' & Hf'). exists j', s', e'. done.
    + apply fetchAll_inr in Ea as [_ Hall]. destruct (Hall j spec Hj) as (f & _ & Hok).
      simpl in Hok. unfold fetch_of in Hf. congruence.
  - intros h fs [p Hp] Hs Hsig Hf. rewrite Hp, Hs.
    assert (default false (signal options) = false) as ->.
    { by destruct (signal options) as [[]|]. }
    rewrite (fetchAll_fetched _ _ _ _ _ Hf). by apply performUpload_call.
Qed.

Lemma files_fold_sound (entries : list (option string * string)) (m : gmap string string)
    (name cid : string) :
  fold_left onDirectoryEntryLink entries m !! name = Some cid →
  m !! name = Some cid ∨ (name ≠ "" ∧ (Some name, cid) ∈ entries).
Proof.
  revert m. induction entries as [|[n v] entries IH]; intros m; simpl; [by left|].
  intros Hl. apply IH in Hl as [Hl|[Hn Hin]].
  - unfold onDirectoryEntryLink in Hl. simpl in Hl.
    destruct n as [n|]; [|by left]. unfold JS.truthy_string in Hl.
    destruct (decide (n = "")); [by left|].
    destruct (decide (n = name)) as [->|Hne].
    + rewrite lookup_insert_eq in Hl. injection Hl as ->. right. split; [done|].
      by apply elem_of_cons; left.
    + rewrite lookup_insert_ne in Hl by done. by left.
  - right. split; [done|]. by apply elem_of_cons; right.
Qed.

Lemma files_fold_last (entries : list (option string * string)) (m : gmap string string)
    (name : string) :
  (∀ cid, (Some name, cid) ∉ entries) →
  fold_left onDirectoryEntryLink entries m !! name = m !! name.
Proof.
  revert m. induction entries as [|[n v] entries IH]; intros m Hno; simpl; [done|].
  rewrite IH.
  - unfold onDirectoryEntryLink. simpl. destruct n as [n|]; [|done].
    destruct (JS.truthy_string n); [|done].
    rewrite lookup_insert_ne; [done|]. intros ->. apply (Hno v). by apply elem_of_cons; left.
  - intros cid Hin. apply (Hno cid). by apply elem_of_cons; right.
Qed.

(** X6.  The [files] map of an upload result holds what the backend
    reported through [onDirectoryEntryLink]: every entry of the map is a
    reported link with a non-empty name (links without a name, or with the
    empty name, are dropped), and for a name reported several times the
    last report wins. *)
Theorem uploaded_files_reported (c : client) (fs : list File) (options : UploadOptions)
    (reply : upload_reply) (u : UploadResult) :
  (performUpload c fs options reply).2 = inr u →
  (∀ name cid, files u !! name = Some cid →
     name ≠ "" ∧ (Some name, cid) ∈ entries reply) ∧
  (∀ before after name cid,
     entries reply = before ++ (Some name, cid) :: after →
     name ≠ "" → (∀ cid', (Some name, cid') ∉ after) →
     files u !! name = Some cid).
Proof.
  intros Hu. apply performUpload_result in Hu as (_ & _ & ->). split.
  - intros name cid Hl. apply files_fold_sound in Hl as [Hl|Hl]; [|done].
    by rewrite lookup_empty in Hl.
  - intros before after name cid -> Hn Hlast.
    rewrite fold_left_app. simpl. rewrite files_fold_last by done.
    unfold onDirectoryEntryLink at 1. simpl. unfold JS.truthy_string.
    destruct (decide (name = "")); [done|]. by rewrite lookup_insert_eq.
Qed.

End Uploads.

(** ** The URL ingestor: what a returned file means *)

Section Success.
Context `{Runtime}.
Context (urlConfig : option UrlUploadConfig) (signal : option bool).
Import UrlFetch Spec.

Lemma bind_inr {A B} (m : M A) (k : A → M B) (st st' : state) (b : B) :
  bind m k st = (st', inr b) →
  ∃ st1 a, m st = (st1, inr a) ∧ k a st1 = (st', inr b).
Proof.
  unfold bind. destruct (m st) as [st1 [e|a]]; [done|]. intros Hk. by exists st1, a.
Qed.

Lemma guard_inr (cond : bool) (e : error) (st st' : state) (u : unit) :
  (if cond then throw e else ret tt) st = (st', inr u) → cond = false ∧ st' = st.
Proof. destruct cond; [done|]. by intros [= <- _]. Qed.

Lemma alive_log (st : state) (e : io) :
  alive urlConfig signal st → alive urlConfig signal (log e st).
Proof. intros [Hl Ht]. split; [by apply live_log|done]. Qed.

Lemma alive_enter : signal ≠ Some true → alive urlConfig signal (enter urlConfig signal).
Proof.
  intros Hs. split; [by apply live_enter|].
  intros -> Ha. unfold enter. destruct urlConfig as [c|]; [|done].
  rewrite Ha. done.
Qed.

Lemma deliver_alive (st : state) (e : async_event) :
  alive urlConfig signal st →
  aborted (combinedSignal signal) (deliver st e) = false →
  cancels urlConfig signal e = false ∧ alive urlConfig signal (deliver st e).
Proof.
  intros [Hl Ht] Ha.
  assert (cancels urlConfig signal e = false) as Hc.
  { destruct Hl as (Hna & Hli & Htm).
    destruct signal as [b|], e; simpl in *; try done.
    - destruct (ext_aborted st); simpl in *; done.
    - destruct (armed urlConfig) eqn:Earm; [|done].
      rewrite (Ht eq_refl eq_refl) in Ha. done. }
  split; [done|]. split; [by apply live_deliver|].
  intros -> Harm. specialize (Ht eq_refl Harm).
  destruct e; simpl in *.
  - rewrite Harm in Hc. done.
  - by destruct (ext_aborted st).
Qed.

Lemma delivers_alive (evs : list async_event) (st : state) :
  alive urlConfig signal st →
  aborted (combinedSignal signal) (fold_left deliver evs st) = false →
  calm urlConfig signal evs ∧ alive urlConfig signal (fold_left deliver evs st).
Proof.
  revert st. induction evs as [|e evs IH]; intros st Hal Ha; simpl in *.
  - split; [constructor|done].
  - destruct (aborted (combinedSignal signal) (deliver st e)) eqn:Ee.
    { rewrite (aborted_sticky _ evs _ Ee) in Ha. done. }
    destruct (deliver_alive st e Hal Ee) as [Hc Hal'].
    destruct (IH _ Hal' Ha) as [Hcs Hal'']. split; [by constructor|done].
Qed.

(** An awaited operation that returns was not cancelled. *)
Lemma await_inr {A} started pending (settle : M A) (st st' : state) (a : A) :
  alive urlConfig signal st →
  await (combinedSignal signal) started pending settle st = (st', inr a) →
  ∃ st2, alive urlConfig signal st2 ∧ calm urlConfig signal pending ∧
         trace st2 = (trace st ++ match started with Some e => [e] | None => [] end)%list ∧
         settle st2 = (st', inr a).
Proof.
  intros Hal. unfold await.
  destruct (aborted (combinedSignal signal) st); [done|].
  set (st1 := match started with Some e => log e st | None => st end).
  assert (alive urlConfig signal st1) as Hal1.
  { unfold st1. destruct started; [by apply alive_log|done]. }
  destruct (aborted (combinedSignal signal) (fold_left deliver pending st1)) eqn:Ea; [done|].
  intros Hs. destruct (delivers_alive pending st1 Hal1 Ea) as [Hc Hal2].
  exists (fold_left deliver pending st1). split; [done|]. split; [done|]. split; [|done].
  rewrite trace_delivers. unfold st1. destruct started; simpl; [done|by rewrite app_nil_r].
Qed.

Lemma fetch_inr url m pending o (st st' : state) (r : Response) :
  alive urlConfig signal st →
  fetch url m (combinedSignal signal) pending o st = (st', inr r) →
  o = Responds r ∧ alive urlConfig signal st' ∧ calm urlConfig signal pending ∧
  trace st' = (trace st ++ [Request m url (combinedSignal signal)])%list.
Proof.
  intros Hal Hf. unfold fetch in Hf.
  apply await_inr in Hf as (st2 & Hal2 & Hc & Ht & Hs); [|done].
  destruct o as [r'|n msg]; [|done]. injection Hs as <- <-. done.
Qed.

Lemma read_inr pending o (st st' : state) (value : list byte) :
  alive urlConfig signal st →
  read (combinedSignal signal) pending o st = (st', inr value) →
  o = Chunk value ∧ alive urlConfig signal st' ∧ calm urlConfig signal pending ∧
  trace st' = (trace st ++ [ReadChunk (byteLength value)])%list.
Proof.
  intros Hal Hr. unfold read in Hr.
  apply await_inr in Hr as (st2 & Hal2 & Hc & Ht & Hs); [|done].
  destruct o as [v|n msg]; [|done]. injection Hs as <- <-.
  split; [done|]. split; [by apply alive_log|]. split; [done|].
  simpl. rewrite Ht. by rewrite app_nil_r.
Qed.

Lemma checkTotalSize_inr (total : Z) (st st' : state) (u : unit) :
  checkTotalSize urlConfig total st = (st', inr u) →
  st' = st ∧ ∀ max, limit urlConfig = Some max → total ≤ max.
Proof.
  unfold checkTotalSize, limit. destruct urlConfig as [c|].
  - destruct (JS.truthy_number (maxUrlFileSizeBytes c)); simpl.
    + destruct (Z.gtb_spec total (maxUrlFileSizeBytes c)); [done|].
      intros [= <-]. split; [done|]. intros max [= <-]. lia.
    + intros [= <-]. done.
  - intros [= <-]. done.
Qed.

Lemma checkContentLength_inr (headResponse : Response) (st st' : state) (u : unit) :
  checkContentLength urlConfig headResponse st = (st', inr u) →
  st' = st ∧
  ∀ max contentLength size,
    limit urlConfig = Some max →
    headers headResponse !! "content-length" = Some contentLength →
    JS.parseInt10 contentLength = Some size → size ≤ max.
Proof.
  unfold checkContentLength, limit.
  destruct (headers headResponse !! "content-length") as [cl|]; [|by intros [= <-]].
  destruct urlConfig as [c|]; [|by intros [= <-]].
  destruct (JS.truthy_number (maxUrlFileSizeBytes c)).
  - unfold JS.truthy_string. destruct (decide (cl = "")) as [->|Hne]; simpl.
    + intros [= <-]. split; [done|]. intros max cl' size _ [= <-]. done.
    + destruct (JS.parseInt10 cl) as [size|] eqn:Ep.
      * destruct (Z.gtb_spec size (maxUrlFileSizeBytes c)); [done|].
        intros [= <-]. split; [done|]. intros max cl' size' [= <-] [= <-].
        rewrite Ep. intros [= <-]. lia.
      * intros [= <-]. split; [done|]. intros max cl' size' _ [= <-]. by rewrite Ep.
  - rewrite andb_false_r. intros [= <-]. done.
Qed.

Lemma total_length_cons (value : list byte) (vs : list (list byte)) :
  total_length (value :: vs) = byteLength value + total_length vs.
Proof. unfold total_length, byteLength. simpl. rewrite length_app. lia. Qed.

(** The read loop, when it returns: every scheduled read delivered a
    chunk, all of them were kept in order, nothing cancelled the reads,
    and the running total passed the limit check after each chunk. *)
Lemma readLoop_inr (done_ev : list async_event) (rs : list (list async_event * read_outcome)) :
  ∀ chunks total st st' cs,
    alive urlConfig signal st →
    readLoop urlConfig (combinedSignal signal) rs done_ev chunks total st = (st', inr cs) →
    ∃ vs, payload rs = Some vs ∧ cs = (chunks ++ vs)%list ∧
          calm urlConfig signal (concat (map fst rs) ++ done_ev) ∧
          trace st' = (trace st ++ flat_map chunk_io vs)%list ∧
          (∀ max, limit urlConfig = Some max → vs = [] ∨ total + total_length vs ≤ max).
Proof.
  induction rs as [|[pending o] rest IH]; intros chunks total st st' cs Hal Hr; simpl in Hr.
  - apply bind_inr in Hr as (st1 & [] & Hd & Hret). injection Hret as <- <-.
    unfold read_done in Hd. apply await_inr in Hd as (st2 & Hal2 & Hc & Ht & Hs); [|done].
    injection Hs as <-. exists []. simpl. rewrite !app_nil_r in *.
    repeat split; auto.
  - apply bind_inr in Hr as (st1 & value & Hread & Hr).
    apply read_inr in Hread as (-> & Hal1 & Hc1 & Ht1); [|done].
    apply bind_inr in Hr as (st2 & [] & Hcheck & Hr).
    apply checkTotalSize_inr in Hcheck as [-> Hmax].
    apply bind_inr in Hr as (st3 & [] & Hpush & Hr).
    injection Hpush as <-.
    apply IH in Hr as (vs & Hp & -> & Hc & Ht & Hlim); [|by apply alive_log].
    exists (value :: vs). simpl. rewrite Hp. simpl.
    split; [done|]. split; [by rewrite <- app_assoc|]. split.
    { rewrite <- app_assoc. by apply Forall_app. }
    split.
    { rewrite Ht. simpl. rewrite Ht1. by rewrite <- !app_assoc. }
    intros max Hl. right. rewrite total_length_cons.
    destruct (Hlim max Hl) as [->|Hle]; [|lia].
    specialize (Hmax max Hl). unfold total_length. simpl. lia.
Qed.

Lemma enter_aborted : aborted (combinedSignal (Some true)) (enter urlConfig (Some true)) = true.
Proof.
  unfold enter. destruct urlConfig as [c|]; simpl; [|done].
  by destruct (JS.truthy_number (urlFetchTimeoutMs c)).
Qed.

End Success.

Section Returned.
Context `{Runtime}.
Import UrlFetch Spec.

(** Everything that is known of a call that returned a [File]. *)
Lemma fetch_success_inv (fileSpec : JsObject) urlConfig signal srv (st' : state)
    (file : File) :
  fetchFileFromUrl fileSpec urlConfig signal srv = (st', inr file) →
  ∃ url headResponse response s vs,
    validate fileSpec urlConfig = inr url ∧
    signal ≠ Some true ∧
    head_outcome srv = Responds headResponse ∧ ok headResponse = true ∧
    get_outcome srv = Responds response ∧ ok response = true ∧
    body response = Some s ∧ payload (reads s) = Some vs ∧
    file = mkFile (JS.to_string (fileSpec !! "name")) (concat vs)
             (JS.blob_type
                (effective_type (fileSpec !! "mimeType")
                   (headers response !! "content-type"))) ∧
    calm urlConfig signal (schedule srv) ∧
    trace st' = success_trace urlConfig url (combinedSignal signal) vs ∧
    (∀ max, limit urlConfig = Some max → vs = [] ∨ total_length vs ≤ max) ∧
    (∀ max contentLength size,
       limit urlConfig = Some max →
       headers headResponse !! "content-length" = Some contentLength →
       JS.parseInt10 contentLength = Some size → size ≤ max).
Proof.
  unfold fetchFileFromUrl. destruct (validate fileSpec urlConfig) as [e|url] eqn:Ev; [done|].
  unfold guarded, try_finally, try_catch.
  destruct (fetchBody url _ _ urlConfig (combinedSignal signal) srv (called (abort_reason srv) (enter urlConfig signal)))
    as [st1 [e|f]] eqn:Eb.
  { destruct (isAbortError e); done. }
  intros [= <- <-].
  assert (signal ≠ Some true) as Hsig.
  { intros ->. unfold fetchBody, bind, fetch, await in Eb.
    rewrite called_aborted, enter_aborted in Eb. done. }
  pose proof (alive_enter urlConfig signal Hsig) as Hal.
  unfold fetchBody in Eb.
  apply bind_inr in Eb as (st2 & headResponse & Hhead & Eb).
  apply (fetch_inr urlConfig signal) in Hhead as (Hho & Hal2 & Hc1 & Ht2); [|done].
  apply bind_inr in Eb as (st3 & [] & Hg1 & Eb).
  apply guard_inr in Hg1 as [Hok1 ->]. apply negb_false_iff in Hok1.
  apply bind_inr in Eb as (st4 & [] & Hcl & Eb).
  apply checkContentLength_inr in Hcl as [-> Hdeclared].
  apply bind_inr in Eb as (st5 & response & Hget & Eb).
  apply (fetch_inr urlConfig signal) in Hget as (Hgo & Hal5 & Hc2 & Ht5); [|done].
  unfold readBody in Eb.
  apply bind_inr in Eb as (st6 & [] & Hg2 & Eb).
  apply guard_inr in Hg2 as [Hok2 ->]. apply negb_false_iff in Hok2.
  destruct (body response) as [s|] eqn:Ebody; [|done].
  apply bind_inr in Eb as (st7 & chunks & Hloop & Eb).
  injection Eb as <- <-.
  unfold try_finally in Hloop.
  destruct (readLoop urlConfig (combinedSignal signal) (reads s) (done_pending s) [] 0 st5)
    as [st8 r8] eqn:El.
  injection Hloop as <- ->.
  apply (readLoop_inr urlConfig signal) in El as (vs & Hp & Hcs & Hc3 & Ht8 & Hlim); [|done].
  simpl in Hcs. subst chunks.
  exists url, headResponse, response, s, vs.
  repeat (split; [done|]).
  split; [by rewrite contentType_effective|].
  split.
  { unfold schedule, body_events. rewrite Hgo, Ebody.
    apply Forall_app. split; [done|]. apply Forall_app. done. }
  split.
  { unfold success_trace, timer_set, timer_cleared. rewrite <- (trace_enter urlConfig signal).
    destruct (armed urlConfig); simpl; rewrite Ht8, Ht5, Ht2; simpl;
      rewrite <- ?app_assoc; simpl; try done. }
  split; [|done].
  intros max Hl. destruct (Hlim max Hl) as [?|?]; [by left|right; lia].
Qed.

(** X7.  What a returned file holds: whenever [fetchFileFromUrl] returns a
    [File], the URL passed the policy stage, the HEAD and the GET request
    were both answered with a successful status, the GET response had a
    body, every read of the body delivered a chunk, and the file's bytes
    are exactly those chunks concatenated in the order they were
    delivered, under the requested name; with a size limit in force the
    bytes fit in it, and so did the content length the HEAD response
    declared, if it declared one. *)
Theorem fetched_file_content (fileSpec : JsObject) urlConfig signal srv (file : File) :
  (fetchFileFromUrl fileSpec urlConfig signal srv).2 = inr file →
  ∃ url headResponse response s vs,
    validate fileSpec urlConfig = inr url ∧
    head_outcome srv = Responds headResponse ∧ ok headResponse = true ∧
    get_outcome srv = Responds response ∧ ok response = true ∧
    body response = Some s ∧ payload (reads s) = Some vs ∧
    file_bytes file = concat vs ∧
    file_name file = JS.to_string (fileSpec !! "name") ∧
    (∀ max, limit urlConfig = Some max →
       (file_bytes file = [] ∨ file_size file ≤ max) ∧
       ∀ contentLength size,
         headers headResponse !! "content-length" = Some contentLength →
         JS.parseInt10 contentLength = Some size → size ≤ max).
Proof.
  destruct (fetchFileFromUrl fileSpec urlConfig signal srv) as [st' r] eqn:Ef.
  simpl. intros ->.
  apply fetch_success_inv in Ef
    as (url & hr & gr & s & vs & Hv & _ & Hh & Hok1 & Hg & Hok2 & Hb & Hp & -> & _ & _
        & Hlim & Hdecl).
  exists url, hr, gr, s, vs. repeat (split; [done|]).
  intros max Hl. split; [|intros cl size; by apply (Hdecl max)].
  destruct (Hlim max Hl) as [->|Hle]; [by left|by right].
Qed.

(** X8.  The effects of a successful fetch, in full: the timer, when one
    is configured, is set first and cleared last; in between there is
    exactly one HEAD request followed by exactly one GET request, both on
    the validated URL and on the same signal; every chunk read is kept;
    the reader's lock is released once, after the last read. *)
Theorem success_effects (fileSpec : JsObject) urlConfig signal srv (st' : state)
    (file : File) :
  fetchFileFromUrl fileSpec urlConfig signal srv = (st', inr file) →
  ∃ url vs,
    validate fileSpec urlConfig = inr url ∧
    file_bytes file = concat vs ∧
    trace st' = success_trace urlConfig url (combinedSignal signal) vs ∧
    timer st' ≠ Armed.
Proof.
  intros Ef. pose proof (timer_disarmed fileSpec urlConfig signal srv) as Ht.
  rewrite Ef in Ht.
  apply fetch_success_inv in Ef
    as (url & hr & gr & s & vs & Hv & _ & _ & _ & _ & _ & _ & _ & -> & _ & Htr & _).
  by exists url, vs.
Qed.

(** X9.  A returned file means that nothing cancelled the call: the
    caller's signal was not aborted when the call was made, and no event
    that aborts the signal the requests listen on happened while the HEAD
    request, the GET request or any read of the body was pending. *)
Theorem success_means_uncancelled (fileSpec : JsObject) urlConfig signal srv (file : File) :
  (fetchFileFromUrl fileSpec urlConfig signal srv).2 = inr file →
  signal ≠ Some true ∧
  calm urlConfig signal (schedule srv) ∧
  (is_Some signal → ExternalFires ∉ schedule srv) ∧
  (signal = None → armed urlConfig = true → TimerFires ∉ schedule srv).
Proof.
  destruct (fetchFileFromUrl fileSpec urlConfig signal srv) as [st' r] eqn:Ef.
  simpl. intros ->.
  apply fetch_success_inv in Ef
    as (url & hr & gr & s & vs & _ & Hsig & _ & _ & _ & _ & _ & _ & _ & Hc & _).
  split; [done|]. split; [done|]. unfold calm in Hc. rewrite Forall_forall in Hc. split.
  - intros [b ->] Hin. by specialize (Hc _ Hin).
  - intros -> Ha Hin. specialize (Hc _ Hin). simpl in Hc. congruence.
Qed.

End Returned.

(** ** The URL ingestor: the effects of any call *)

Section Protocol.
Context `{Runtime}.
Import UrlFetch Spec.

(** An awaited operation from a known trace: it is rejected at once, or it
    is started and then cancelled, or it settles after it was started. *)
Lemma await_traced {A} (T : list io) sig started pending (settle : M A)
    (Q : state → error + A → Prop) :
  let T' := (T ++ match started with Some e => [e] | None => [] end)%list in
  (∀ st e, trace st = T → Q st (inl e)) →
  (∀ st e, trace st = T' → Q st (inl e)) →
  triple (λ st, trace st = T') settle Q →
  triple (λ st, trace st = T) (await sig started pending settle) Q.
Proof.
  intros T' Ha1 Ha2 Hs st HT. unfold await.
  destruct (aborted sig st); [by apply Ha1|].
  set (st2 := fold_left deliver pending _).
  assert (trace st2 = T') as HT2.
  { unfold st2, T'. rewrite trace_delivers.
    destruct started; simpl; [by rewrite HT|by rewrite app_nil_r]. }
  destruct (aborted sig st2); [by apply Ha2|by apply Hs].
Qed.

Lemma fetch_traced (T : list io) url m sig pending o :
  triple (λ st, trace st = T) (fetch url m sig pending o)
    (λ st r, match r with
             | inl _ => trace st = T ∨ trace st = (T ++ [Request m url sig])%list
             | inr response => trace st = (T ++ [Request m url sig])%list ∧ o = Responds response
             end).
Proof.
  unfold fetch. apply await_traced; simpl; [by left|by right|].
  destruct o as [r|n msg]; [by apply triple_ret|apply triple_throw; by right].
Qed.

Lemma read_traced (T : list io) sig pending o :
  triple (λ st, trace st = T) (read sig pending o)
    (λ st r, match r with
             | inl _ => trace st = T
             | inr value => trace st = (T ++ [ReadChunk (byteLength value)])%list
             end).
Proof.
  unfold read. apply await_traced; simpl; rewrite ?app_nil_r; [done|done|].
  destruct o as [value|n msg]; [|by apply triple_throw].
  intros st HT. simpl. by rewrite HT.
Qed.

Lemma checkTotalSize_traced (T : list io) urlConfig total :
  triple (λ st, trace st = T) (checkTotalSize urlConfig total) (λ st _, trace st = T).
Proof. apply (frame_checkTotalSize (λ st, trace st = T)). Qed.

Lemma flat_map_snoc (vs : list (list byte)) (value : list byte) :
  flat_map chunk_io (vs ++ [value])
  = (flat_map chunk_io vs ++ [ReadChunk (byteLength value); Push (byteLength value)])%list.
Proof. by rewrite flat_map_app. Qed.

(** The read loop, however it ends: chunks read and kept one after the
    other, and possibly a last one read and not kept. *)
Lemma readLoop_traced (T : list io) urlConfig sig done_ev
    (rs : list (list async_event * read_outcome)) :
  ∀ chunks total vs,
    triple (λ st, trace st = (T ++ flat_map chunk_io vs)%list)
      (readLoop urlConfig sig rs done_ev chunks total)
      (λ st _, ∃ vs' rest,
         trace st = (T ++ flat_map chunk_io vs' ++ rest)%list ∧
         (rest = [] ∨ ∃ value, rest = [ReadChunk (byteLength value)])).
Proof.
  induction rs as [|[pending o] rest IH]; intros chunks total vs; simpl.
  - eapply triple_bind with (R := λ st _, trace st = (T ++ flat_map chunk_io vs)%list).
    + unfold read_done. apply await_traced; simpl; rewrite ?app_nil_r; try done.
      by apply triple_ret.
    + intros st e Ht. exists vs, []. rewrite app_nil_r. auto.
    + intros []. apply triple_ret. intros st Ht. exists vs, []. rewrite app_nil_r. auto.
  - eapply triple_bind; [apply read_traced| |].
    + intros st e Ht. exists vs, []. rewrite app_nil_r. auto.
    + intros value. simpl.
      eapply triple_bind; [apply checkTotalSize_traced| |].
      * intros st e Ht. exists vs, [ReadChunk (byteLength value)].
        rewrite Ht, <- app_assoc. eauto.
      * intros [].
        eapply triple_bind with
          (R := λ st _, trace st = (T ++ flat_map chunk_io (vs ++ [value]))%list).
        -- apply triple_effect. intros st Ht. simpl. rewrite Ht, flat_map_snoc.
           rewrite <- !app_assoc. done.
        -- intros st e Ht. exists (vs ++ [value])%list, []. rewrite app_nil_r. auto.
        -- intros []. apply IH.
Qed.

Lemma readBody_traced (T : list io) name mimeType urlConfig url sig response :
  triple (λ st, trace st = (T ++ [Request HEAD url sig; Request GET url sig])%list)
    (readBody name mimeType urlConfig sig response)
    (λ st _, ∃ mid, trace st = (T ++ mid)%list ∧ body_effects url sig mid ∧
                    Request GET url sig ∈ mid).
Proof.
  assert (Request GET url sig ∈ [Request HEAD url sig; Request GET url sig]) as Hin.
  { apply elem_of_cons. right. apply elem_of_cons. by left. }
  assert (∀ st : state,
            trace st = (T ++ [Request HEAD url sig; Request GET url sig])%list →
            ∃ mid, trace st = (T ++ mid)%list ∧ body_effects url sig mid ∧
                   Request GET url sig ∈ mid) as Hboth.
  { intros st Ht. eexists. split; [done|]. split; [|done]. right. right. by left. }
  unfold readBody.
  eapply triple_bind; [apply (frame_guard (λ st, trace st = _))| |]; [by intros; apply Hboth|].
  intros []. destruct (body response) as [s|]; [|by apply triple_throw].
  eapply triple_bind with
    (R := λ st _, ∃ mid, trace st = (T ++ mid)%list ∧ body_effects url sig mid ∧
                         Request GET url sig ∈ mid);
    [|done|intros; by apply triple_ret].
  eapply triple_try_finally.
  - eapply triple_conseq;
      [apply (readLoop_traced (T ++ [Request HEAD url sig; Request GET url sig])
                urlConfig sig (done_pending s) (reads s) [] 0 [])| |].
    + intros st Ht. simpl. by rewrite app_nil_r.
    + intros st r Hr. exact Hr.
  - intros st r (vs & rest & Ht & Hrest). simpl.
    exists ([Request HEAD url sig; Request GET url sig]
            ++ flat_map chunk_io vs ++ rest ++ [ReleaseLock])%list.
    split; [rewrite Ht; by rewrite <- !app_assoc|]. split.
    + right. right. right. by exists vs, rest.
    + apply elem_of_app. by left.
Qed.

(** The [try] block: its effects, and what is known when the GET request
    was made. *)
Lemma fetchBody_traced (T : list io) url name mimeType urlConfig sig srv :
  triple (λ st, trace st = T) (fetchBody url name mimeType urlConfig sig srv)
    (λ st _, ∃ mid, trace st = (T ++ mid)%list ∧ body_effects url sig mid ∧
                    (Request GET url sig ∈ mid →
                     ∃ headResponse, head_outcome srv = Responds headResponse ∧
                                     ok headResponse = true ∧
                                     declared_within urlConfig headResponse)).
Proof.
  assert (Request GET url sig ∉ [Request HEAD url sig]) as Hnot.
  { intros Hin. apply list_elem_of_singleton in Hin. done. }
  unfold fetchBody.
  eapply triple_bind; [apply fetch_traced| |].
  { intros st e [Ht|Ht].
    - exists []. rewrite app_nil_r. split; [done|]. split; [by left|].
      intros Hin. by apply elem_of_nil in Hin.
    - eexists. split; [done|]. split; [right; by left|done]. }
  intros headResponse. simpl.
  eapply triple_bind with
    (R := λ st r, trace st = (T ++ [Request HEAD url sig])%list ∧
                  head_outcome srv = Responds headResponse ∧
                  match r with inr _ => ok headResponse = true | inl _ => True end).
  { intros st [Ht Hh]. destruct (ok headResponse); simpl; done. }
  { intros st e (Ht & _). eexists. split; [done|]. split; [right; by left|done]. }
  intros [].
  eapply triple_bind with
    (R := λ st r, trace st = (T ++ [Request HEAD url sig])%list ∧
                  head_outcome srv = Responds headResponse ∧ ok headResponse = true ∧
                  match r with
                  | inr _ => declared_within urlConfig headResponse
                  | inl _ => True
                  end).
  { intros st (Ht & Hh & Hok).
    pose proof (frame_checkContentLength (λ st, trace st = (T ++ [Request HEAD url sig])%list)
                  urlConfig headResponse st Ht) as Hf.
    destruct (checkContentLength urlConfig headResponse st) as [st' [e|u]] eqn:Ec;
      simpl in *; [done|].
    repeat (split; [done|]).
    apply checkContentLength_inr in Ec as [_ Hd]. exact Hd. }
  { intros st e (Ht & _). eexists. split; [done|]. split; [right; by left|done]. }
  intros []. intros st (Ht & Hh & Hok & Hd).
  assert (triple (λ st, trace st = (T ++ [Request HEAD url sig])%list)
            (bind (fetch url GET sig (get_pending srv) (get_outcome srv))
                  (λ response, readBody name mimeType urlConfig sig response))
            (λ st _, ∃ mid, trace st = (T ++ mid)%list ∧ body_effects url sig mid)) as Hrest.
  { eapply triple_bind; [apply fetch_traced| |].
    - intros st1 e [Ht1|Ht1].
      + eexists. split; [done|]. right. by left.
      + eexists. rewrite <- app_assoc in Ht1. split; [done|]. right. right. by left.
    - intros response st1 [Ht1 _]. rewrite <- app_assoc in Ht1.
      destruct (readBody_traced T name mimeType urlConfig url sig response st1 Ht1)
        as (mid & Hm & Hb & _).
      by exists mid. }
  destruct (Hrest st Ht) as (mid & Hm & Hb). exists mid. split; [done|]. split; [done|].
  intros _. by exists headResponse.
Qed.

(** X10.  The effects of any call of [fetchFileFromUrl], whether it
    returns a file or fails: a call rejected by the policy stage has no
    effect; otherwise the timer, when one is configured, is set first and
    cleared last and is never left armed, and in between there is at most
    one HEAD request, then at most one GET request on the same URL and
    signal, then chunks read and kept one after the other, and a release
    of the reader's lock whenever reading started.  The GET request is
    made only if the HEAD request was answered with a successful status
    and declared no content length over the limit in force. *)
Theorem effects_protocol (fileSpec : JsObject) urlConfig signal srv :
  let r := fetchFileFromUrl fileSpec urlConfig signal srv in
  timer r.1 ≠ Armed ∧
  match validate fileSpec urlConfig with
  | inl e => trace r.1 = [] ∧ r.2 = inl e
  | inr url =>
      ∃ mid,
        trace r.1 = (timer_set urlConfig ++ mid ++ timer_cleared urlConfig)%list ∧
        body_effects url (combinedSignal signal) mid ∧
        (Request GET url (combinedSignal signal) ∈ mid →
         ∃ headResponse, head_outcome srv = Responds headResponse ∧
                         ok headResponse = true ∧
                         declared_within urlConfig headResponse)
  end.
Proof.
  intros r. split; [apply timer_disarmed|]. subst r.
  unfold fetchFileFromUrl. destruct (validate fileSpec urlConfig) as [e|url]; [done|].
  pose proof (fetchBody_traced (timer_set urlConfig) url (JS.to_string (fileSpec !! "name"))
                (fileSpec !! "mimeType") urlConfig (combinedSignal signal) srv
                (called (abort_reason srv) (enter urlConfig signal)) (trace_enter urlConfig signal)) as Hb.
  unfold guarded, try_finally, try_catch.
  destruct (fetchBody _ _ _ _ _ _ _) as [st1 r1]. simpl in Hb.
  destruct Hb as (mid & Ht & Hbody & Hget). exists mid.
  split; [|done].
  assert (∀ (st2 : state) (r2 : error + File),
            trace st2 = trace st1 →
            trace ((let '(st', r) := (st2, r2) in
                    (if armed urlConfig then clearTimeout st' else st', r)).1)
            = (timer_set urlConfig ++ mid ++ timer_cleared urlConfig)%list) as Hfin.
  { intros st2 r2 H2. simpl. unfold timer_cleared.
    destruct (armed urlConfig); simpl; rewrite H2, Ht;
      [by rewrite <- app_assoc|by rewrite app_nil_r]. }
  destruct r1 as [e|f]; [|by apply Hfin].
  destruct (isAbortError e); by apply Hfin.
Qed.

End Protocol.

(** ** The URL ingestor: the policy stage and the reporting of aborts *)

Section PolicyStage.
Context `{Runtime}.
Import UrlFetch Spec.

Lemma includes_spec (arr : list string) (x : string) : JS.includes arr x = true ↔ x ∈ arr.
Proof.
  unfold JS.includes. rewrite existsb_exists. split.
  - intros (y & Hin & Hy). destruct (decide (y = x)) as [->|]; [|done].
    by apply list_elem_of_In.
  - intros Hin. exists x. split; [by apply list_elem_of_In|]. by destruct (decide (x = x)).
Qed.

Lemma checkScheme_spec (c : UrlUploadConfig) (url : URL) :
  checkScheme (Some c) url = inr tt ↔ JS.slice_0_m1 (protocol url) ∈ allowedUrlSchemes c.
Proof.
  unfold checkScheme. rewrite <- includes_spec.
  destruct (JS.includes _ _); simpl; split; done.
Qed.

Lemma validate_spec (fileSpec : JsObject) urlConfig (url : URL) :
  validate fileSpec urlConfig = inr url ↔
  parseURL (JS.to_string (fileSpec !! "url")) = Some url ∧ permitted urlConfig url.
Proof.
  unfold validate, permitted.
  destruct (parseURL (JS.to_string (fileSpec !! "url"))) as [u|]; [|split; [done|by intros [? _]]].
  destruct urlConfig as [c|].
  2:{ simpl. split; [by intros [= ->]|by intros [[= ->] _]]. }
  pose proof (checkScheme_spec c u) as Hs.
  destruct (checkScheme (Some c) u) as [e|[]].
  { split; [done|]. intros [[= ->] [Hin _]]. apply Hs in Hin. done. }
  destruct (allowAllUrlDomains c) eqn:Hall.
  - unfold checkDomain. rewrite Hall. simpl. split.
    + intros [= ->]. split; [done|]. split; [by apply Hs|by left].
    + by intros [[= ->] _].
  - pose proof (checkDomain_spec c u Hall) as Hd.
    destruct (checkDomain (Some c) u) as [e|[]].
    + split; [done|]. intros [[= ->] [_ [?|Ha]]]; [done|]. apply Hd in Ha. done.
    + split.
      * intros [= ->]. split; [done|]. split; [by apply Hs|]. right. by apply Hd.
      * by intros [[= ->] _].
Qed.

Lemma validate_error_name (fileSpec : JsObject) urlConfig (e : error) :
  validate fileSpec urlConfig = inl e → error_name e = "Error".
Proof.
  unfold validate. intros Hv.
  destruct (parseURL _) as [url|]; [|by injection Hv as <-].
  destruct (checkScheme urlConfig url) as [e1|[]] eqn:Es.
  { injection Hv as ->. unfold checkScheme in Es.
    destruct urlConfig; [|done]. destruct (negb _); [|done]. by injection Es as <-. }
  destruct (checkDomain urlConfig url) as [e2|[]] eqn:Ed; [|done].
  injection Hv as ->. unfold checkDomain in Ed.
  destruct urlConfig as [c|]; [|done].
  destruct (negb (allowAllUrlDomains c)); [|done].
  destruct (allowedUrlDomains c) as [[|d D]|]; try by injection Ed as <-.
  destruct (negb _); [|done]. by injection Ed as <-.
Qed.

(** X11.  The policy stage of [fetchFileFromUrl]: the URL is let through
    exactly when it parses and, if a configuration is given, its scheme
    (the protocol without the colon) is listed and its host is allowed
    ([allowAllUrlDomains], or the allow-list rule); a URL that is not let
    through is rejected with an [Error] and nothing has happened: no
    request, no timer.  A scheme that is not listed is reported as such
    whatever the domain settings are. *)
Theorem policy_stage (fileSpec : JsObject) urlConfig signal srv :
  let urlString := JS.to_string (fileSpec !! "url") in
  let r := fetchFileFromUrl fileSpec urlConfig signal srv in
  (∀ url, validate fileSpec urlConfig = inr url ↔
          parseURL urlString = Some url ∧ permitted urlConfig url) ∧
  ((∀ url, parseURL urlString = Some url → ¬ permitted urlConfig url) →
   trace r.1 = [] ∧ timer r.1 = Unarmed ∧ ∃ e, r.2 = inl e ∧ error_name e = "Error") ∧
  (parseURL urlString = None → r.2 = inl (InvalidUrl urlString)) ∧
  (∀ url c, urlConfig = Some c → parseURL urlString = Some url →
     JS.slice_0_m1 (protocol url) ∉ allowedUrlSchemes c →
     r.2 = inl (SchemeNotAllowed (JS.slice_0_m1 (protocol url)) (allowedUrlSchemes c))).
Proof.
  intros urlString r. split; [intros url; apply validate_spec|]. subst r. split; [|split].
  - intros Hno. unfold fetchFileFromUrl.
    destruct (validate fileSpec urlConfig) as [e|url] eqn:Ev.
    + simpl. repeat (split; [done|]). exists e. split; [done|].
      by apply validate_error_name in Ev.
    + apply validate_spec in Ev as [Hp Ha]. by apply Hno in Hp.
  - intros Hp. unfold fetchFileFromUrl, validate. fold urlString. by rewrite Hp.
  - intros url c -> Hp Hs. unfold fetchFileFromUrl, validate. fold urlString. rewrite Hp.
    unfold checkScheme. rewrite <- includes_spec in Hs.
    by destruct (JS.includes (allowedUrlSchemes c) (JS.slice_0_m1 (protocol url))).
Qed.

(** X12.  How aborts are reported.  An aborted request rejects with the
    reason of the signal it listens on, and the [catch] turns a rejection
    into the timeout-or-aborted error only when it is an instance of
    [Error] named [AbortError]; so no rejection of [fetchFileFromUrl] is
    such an instance.  A call made with a signal that is already aborted
    makes no request (the timer is set and cleared all the same) and
    fails with what the [catch] makes of the signal's reason; so does a
    call whose signal is aborted while the HEAD request is pending: the
    timeout-or-aborted error when the caller gave no reason, the reason
    itself when it is an [Error] of another name or not an [Error] at
    all.  The timer firing while the HEAD request is pending, when no
    signal was passed, gives the timeout-or-aborted error.  A network
    failure of the HEAD request that nothing cancelled is rethrown as it
    is, unless it is named [AbortError]. *)
Theorem abort_reporting (fileSpec : JsObject) urlConfig signal srv :
  let r := fetchFileFromUrl fileSpec urlConfig signal srv in
  (∀ e, r.2 = inl e → isAbortError e = false) ∧
  (∀ url, validate fileSpec urlConfig = inr url → signal = Some true →
     r.2 = inl (reported (raise (abort_reason srv))) ∧
     trace r.1 = (timer_set urlConfig ++ timer_cleared urlConfig)%list) ∧
  (∀ url, validate fileSpec urlConfig = inr url → signal = Some false →
     ExternalFires ∈ head_pending srv →
     r.2 = inl (reported (raise (abort_reason srv)))) ∧
  (abort_reason srv = default_reason →
     reported (raise (abort_reason srv)) = TimeoutOrAborted) ∧
  (∀ name message,
     (abort_reason srv = ErrorInstance name message ∧ name ≠ "AbortError" →
      reported (raise (abort_reason srv)) = Foreign name message) ∧
     (abort_reason srv = OtherValue name message →
      reported (raise (abort_reason srv)) = NonError name message)) ∧
  (∀ url, validate fileSpec urlConfig = inr url → signal = None →
     armed urlConfig = true → TimerFires ∈ head_pending srv →
     r.2 = inl TimeoutOrAborted) ∧
  (∀ url name message,
     validate fileSpec urlConfig = inr url → signal ≠ Some true →
     calm urlConfig signal (head_pending srv) →
     head_outcome srv = NetworkFails name message → name ≠ "AbortError" →
     r.2 = inl (Foreign name message)).
Proof.
  intros r. subst r. split; [|split; [|split; [|split; [|split; [|split]]]]].
  - intros e. unfold fetchFileFromUrl.
    destruct (validate fileSpec urlConfig) as [e'|url] eqn:Ev.
    + simpl. intros [= ->]. apply validate_error_name in Ev.
      unfold isAbortError. rewrite Ev. by rewrite andb_false_r.
    + unfold guarded, try_finally, try_catch.
      destruct (fetchBody _ _ _ _ _ _ _) as [st1 [e1|f]]; [|done].
      destruct (isAbortError e1) eqn:Ea; simpl; intros [= <-]; done.
  - intros url Hv ->. unfold fetchFileFromUrl. rewrite Hv.
    pose proof (trace_enter urlConfig (Some true)) as Ht. fold (timer_set urlConfig) in Ht.
    pose proof (enter_aborted urlConfig) as Ha.
    set (st0 := called (abort_reason srv) (enter urlConfig (Some true))).
    change (trace st0 = timer_set urlConfig) in Ht.
    change (aborted (combinedSignal (Some true)) st0 = true) in Ha.
    assert (ext_reason st0 = abort_reason srv) as Hreason by done.
    clearbody st0.
    unfold guarded, try_finally, try_catch, fetchBody, bind, fetch, await.
    rewrite Ha. simpl. rewrite Hreason. unfold reported.
    destruct (isAbortError (raise (abort_reason srv))); simpl;
      (split; [done|]);
      unfold timer_cleared; destruct (armed urlConfig); simpl; rewrite Ht;
      try done; by rewrite app_nil_r.
  - intros url Hv -> Hin.
    by apply (cancellation_during_head fileSpec urlConfig (Some false) srv url).
  - intros ->. done.
  - intros name message. split.
    + intros [-> Hn]. unfold reported, isAbortError. simpl.
      by rewrite bool_decide_eq_false_2.
    + intros ->. done.
  - intros url Hv -> Harm Hin.
    by apply (cancellation_during_head fileSpec urlConfig None srv url).
  - intros url name message Hv Hs Hc Hh Hn.
    by apply (head_failure_rethrown fileSpec urlConfig signal srv url).
Qed.

End PolicyStage.

(** ** config.ts: [loadConfig] *)

Section Configuration.
Context `{Runtime} `{Trimming}.
Import Config.

Lemma checked_inr {A} (n : option Z) (bad : Z → bool) (message : string)
    (k : Z → string + A) (a : A) :
  checked n bad message k = inr a → ∃ z, n = Some z ∧ bad z = false ∧ k z = inr a.
Proof.
  unfold checked. destruct n as [z|]; [|done]. destruct (bad z) eqn:Eb; [done|]. eauto.
Qed.

Lemma or_else_truthy (a : option string) (b : string) : b ≠ "" → or_else a b ≠ "".
Proof.
  intros Hb. unfold or_else, JS.truthy_string.
  destruct a as [s|]; [|done]. by destruct (decide (s = "")).
Qed.

Lemma list_of_truthy (s d : string) : d ∈ list_of s → d ≠ "".
Proof.
  unfold list_of. rewrite list_elem_of_In, filter_In. intros [_ Ht] ->. done.
Qed.

Lemma invalidScheme_none (schemes : list string) :
  invalidScheme schemes = None → ∀ s, s ∈ schemes → s ∈ validSchemes.
Proof.
  induction schemes as [|x schemes IH]; cbn [invalidScheme]; intros Hn s Hin.
  - by apply elem_of_nil in Hin.
  - destruct (JS.includes validSchemes x) eqn:Ei; [|done].
    apply elem_of_cons in Hin as [->|Hin]; [|by apply IH].
    unfold JS.includes in Ei. apply existsb_exists in Ei as (y & Hy & Hd).
    destruct (decide (y = x)) as [->|]; [|done]. by apply list_elem_of_In.
Qed.

(** What is known of a configuration that [loadConfig] returned. *)
Lemma loadConfig_inr (params : string → option string) (env : gmap string string)
    (cfg : McpServerConfig) :
  loadConfig params env = inr cfg →
  JS.parseInt10 (or_else (params "port") (or_else (env !! "MCP_SERVER_PORT") "3001"))
    = Some (port cfg) ∧
  0 ≤ port cfg ≤ 65535 ∧
  0 ≤ connectionTimeoutMs cfg ∧
  transportMode cfg ∈ ["stdio"; "sse"; "rest"] ∧
  0 ≤ maxFileSizeBytes cfg ∧
  0 ≤ server_maxUrlFileSizeBytes cfg ∧
  0 ≤ server_urlFetchTimeoutMs cfg ∧
  server_allowedUrlSchemes cfg
    = list_of (or_else (env !! "ALLOWED_URL_SCHEMES") "https,http") ∧
  server_allowedUrlSchemes cfg ≠ [] ∧
  (∀ s, s ∈ server_allowedUrlSchemes cfg → s ∈ validSchemes) ∧
  host cfg ≠ "" ∧
  (∃ e, endpoint cfg = Some e ∧ e ≠ "") ∧
  server_allowAllUrlDomains cfg
    = match env !! "ALLOW_ALL_URL_DOMAINS" with
      | Some v => bool_decide (toLowerCase v = "true")
      | None => false
      end ∧
  server_allowedUrlDomains cfg
    = match env !! "ALLOWED_URL_DOMAINS" with
      | Some v => if JS.truthy_string v then Some (list_of v) else None
      | None => None
      end.
Proof.
  unfold loadConfig. cbv zeta. intros Hl.
  apply checked_inr in Hl as (port & Hport & Hbp & Hl).
  apply checked_inr in Hl as (ct & Hct & Hbc & Hl).
  destruct (negb _) eqn:Etm in Hl; [done|].
  apply checked_inr in Hl as (mf & Hmf & Hbm & Hl).
  apply checked_inr in Hl as (mu & Hmu & Hbu & Hl).
  apply checked_inr in Hl as (ft & Hft & Hbf & Hl).
  destruct (bool_decide _) eqn:Ee in Hl; [done|].
  destruct (invalidScheme _) as [bad|] eqn:Ei in Hl; [done|].
  injection Hl as <-. simpl.
  apply orb_false_iff in Hbp as [Hp1 Hp2].
  apply negb_false_iff in Etm. apply bool_decide_eq_false in Ee.
  split; [done|]. split; [lia|]. split; [lia|]. split.
  { apply orb_true_iff in Etm as [Etm|Etm]; [apply orb_true_iff in Etm as [Etm|Etm]|];
      apply bool_decide_eq_true in Etm; rewrite Etm; set_solver. }
  split; [lia|]. split; [lia|]. split; [lia|]. split; [done|]. split; [done|].
  split; [by apply invalidScheme_none|].
  split; [by apply or_else_truthy|].
  split; [|done]. eexists. split; [done|].
  unfold JS.truthy_string. by destruct (decide _).
Qed.

(** X13.  Every configuration that [loadConfig] returns is well formed:
    the port is within 0..65535, the two size limits and the two timeouts
    are not negative, the transport mode is one of [stdio], [sse] and
    [rest], at least one URL scheme is allowed and every allowed scheme is
    one of [http], [https], [ftp] and [ftps], the host and the endpoint are
    not empty, and no allowed domain is the empty string. *)
Theorem loadConfig_valid (params : string → option string) (env : gmap string string)
    (cfg : McpServerConfig) :
  loadConfig params env = inr cfg →
  0 ≤ port cfg ≤ 65535 ∧
  0 ≤ connectionTimeoutMs cfg ∧
  transportMode cfg ∈ ["stdio"; "sse"; "rest"] ∧
  0 ≤ maxFileSizeBytes cfg ∧
  0 ≤ server_maxUrlFileSizeBytes cfg ∧
  0 ≤ server_urlFetchTimeoutMs cfg ∧
  server_allowedUrlSchemes cfg ≠ [] ∧
  (∀ s, s ∈ server_allowedUrlSchemes cfg → s ∈ validSchemes) ∧
  host cfg ≠ "" ∧
  (∃ e, endpoint cfg = Some e ∧ e ≠ "") ∧
  (∀ D d, server_allowedUrlDomains cfg = Some D → d ∈ D → d ≠ "").
Proof.
  intros Hl. apply loadConfig_inr in Hl
    as (_ & Hp & Hc & Ht & Hm & Hu & Hf & _ & Hne & Hv & Hh & He & _ & Hd).
  repeat (split; [done|]).
  intros D d HD Hin. rewrite Hd in HD.
  destruct (env !! "ALLOWED_URL_DOMAINS") as [v|]; [|done].
  destruct (JS.truthy_string v); [|done]. injection HD as <-.
  by apply list_of_truthy in Hin.
Qed.

End Configuration.

Section Defaults.
Context `{Runtime} `{Trimming}.
Import Config UrlFetch Spec.

(** X14.  The defaults of [loadConfig]: started with no parameter and with
    none of its environment variables set, it returns port 3001 on host
    0.0.0.0, transport [stdio], endpoint [/rest], a 30 s connection
    timeout, a 100 MiB upload limit, and for URL uploads a 1 GiB limit, a
    5 min timeout, the schemes [https] and [http], and no allowed domain.
    ([trim] is assumed to leave the two scheme names alone.) *)
Theorem loadConfig_defaults (params : string → option string) (env : gmap string string) :
  trim "https" = "https" → trim "http" = "http" →
  (∀ k, params k = None) →
  (∀ k, k ∈ config_variables → env !! k = None) →
  loadConfig params env = inr default_config.
Proof.
  intros Hs Hp Hparams Henv. unfold loadConfig.
  rewrite !Hparams.
  rewrite (Henv "MCP_SERVER_PORT"), (Henv "MCP_SERVER_HOST"),
    (Henv "MCP_CONNECTION_TIMEOUT"), (Henv "MCP_TRANSPORT_MODE"), (Henv "MAX_FILE_SIZE"),
    (Henv "MCP_ENDPOINT"), (Henv "MAX_URL_FILE_SIZE"), (Henv "ALLOWED_URL_SCHEMES"),
    (Henv "URL_FETCH_TIMEOUT"), (Henv "ALLOW_ALL_URL_DOMAINS"), (Henv "ALLOWED_URL_DOMAINS")
    by (unfold config_variables; set_solver).
  assert (list_of (or_else None "https,http") = ["https"; "http"]) as ->.
  { unfold list_of. change (split "," (or_else None "https,http")) with ["https"; "http"].
    simpl. by rewrite Hs, Hp. }
  vm_compute. reflexivity.
Qed.

(** X15.  URL uploads are off until a domain policy is configured: with a
    configuration loaded from an environment in which
    [ALLOW_ALL_URL_DOMAINS] is not [true] and [ALLOWED_URL_DOMAINS] is
    unset or lists no domain, every fetch under the policy the upload tool
    derives from that configuration is rejected before any request is made
    or any timer set; for a URL that parses and whose scheme is allowed the
    rejection is the no-domains error. *)
Theorem url_uploads_off_by_default (params : string → option string)
    (env : gmap string string) (cfg : McpServerConfig)
    (fileSpec : JsObject) (signal : option bool) (srv : server) :
  loadConfig params env = inr cfg →
  (∀ v, env !! "ALLOW_ALL_URL_DOMAINS" = Some v → toLowerCase v ≠ "true") →
  (∀ v, env !! "ALLOWED_URL_DOMAINS" = Some v → list_of v = []) →
  let r := fetchFileFromUrl fileSpec (toolUrlConfig (Some cfg)) signal srv in
  trace r.1 = [] ∧ timer r.1 = Unarmed ∧
  ∃ e, r.2 = inl e ∧
       (∀ url, parseURL (JS.to_string (fileSpec !! "url")) = Some url →
               JS.slice_0_m1 (protocol url) ∈ server_allowedUrlSchemes cfg →
               e = NoDomainsAllowed).
Proof.
  intros Hl Hall Hdom r.
  apply loadConfig_inr in Hl as (_ & _ & _ & _ & _ & _ & _ & _ & _ & _ & _ & _ & Ha & Hd).
  assert (server_allowAllUrlDomains cfg = false) as Ha'.
  { rewrite Ha. destruct (env !! "ALLOW_ALL_URL_DOMAINS") as [v|] eqn:Ev; [|done].
    apply bool_decide_eq_false. by apply Hall. }
  assert (server_allowedUrlDomains cfg = None ∨ server_allowedUrlDomains cfg = Some [])
    as Hd'.
  { rewrite Hd. destruct (env !! "ALLOWED_URL_DOMAINS") as [v|] eqn:Ev; [|by left].
    destruct (JS.truthy_string v); [|by left]. right. by rewrite (Hdom v). }
  assert (∀ url, checkDomain (toolUrlConfig (Some cfg)) url = inl NoDomainsAllowed) as Hcd.
  { intros url. unfold checkDomain, toolUrlConfig. simpl. rewrite Ha'. simpl.
    by destruct Hd' as [-> | ->]. }
  subst r. unfold fetchFileFromUrl.
  destruct (validate fileSpec (toolUrlConfig (Some cfg))) as [e|url] eqn:Ev.
  - simpl. split; [done|]. split; [done|]. exists e. split; [done|].
    intros url Hp Hs. unfold validate in Ev. rewrite Hp, Hcd in Ev.
    set (c := mkUrlUploadConfig (server_maxUrlFileSizeBytes cfg)
                (server_allowedUrlSchemes cfg) (server_urlFetchTimeoutMs cfg)
                (server_allowAllUrlDomains cfg) (server_allowedUrlDomains cfg)).
    change (toolUrlConfig (Some cfg)) with (Some c) in Ev.
    apply (checkScheme_spec c url) in Hs. rewrite Hs in Ev. by injection Ev as <-.
  - unfold validate in Ev. destruct (parseURL _) as [u|]; [|done].
    destruct (checkScheme _ u) as [?|[]]; [done|]. by rewrite Hcd in Ev.
Qed.

Lemma or_else_given (p b : string) : p ≠ "" → or_else (Some p) b = p.
Proof. intros Hp. unfold or_else, JS.truthy_string. by destruct (decide (p = "")). Qed.

(** X16.  The parameters of the SDK take precedence over the environment:
    when the parameter [port], [transportMode] or [endpoint] is given (and
    not empty), the variable [MCP_SERVER_PORT], [MCP_TRANSPORT_MODE] or
    [MCP_ENDPOINT] has no influence on what [loadConfig] returns or
    throws. *)
Theorem parameters_override_environment (params : string → option string)
    (env : gmap string string) (p v : string) :
  p ≠ "" →
  (params "port" = Some p →
   loadConfig params (<["MCP_SERVER_PORT" := v]> env) = loadConfig params env) ∧
  (params "transportMode" = Some p →
   loadConfig params (<["MCP_TRANSPORT_MODE" := v]> env) = loadConfig params env) ∧
  (params "endpoint" = Some p →
   loadConfig params (<["MCP_ENDPOINT" := v]> env) = loadConfig params env).
Proof.
  intros Hp. split; [|split]; intros Hparam; unfold loadConfig;
    rewrite lookup_insert_eq, !lookup_insert_ne by done;
    rewrite Hparam, !(or_else_given p) by done; done.
Qed.

End Defaults.

(** ** The upload tool *)

Section Tool.
Context `{Runtime} `{Libraries} `{Delegations}.
Import Client Spec.

(** The session of a client that has a delegation: it fails in
    [initialize], having made no upload call, or the client is ready and
    the upload runs. *)
Lemma session_stages (signer : option string) (proof : string) (gateway : option URL)
    (serverConfig : option Config.McpServerConfig) (i : UploadTool.input)
    (b : UploadTool.backend) :
  let r := UploadTool.session (mkConfig signer (Some proof) gateway) serverConfig i b in
  (∃ m, r.2 = UploadTool.Caught (UploadTool.InitializeFailed m) ∧
        ((signer = None ∧ r.1 = []) ∨
         ∃ principal, signer = Some principal ∧
           ((∃ m', UploadTool.create_outcome b = inl m' ∧ r.1 = [StorageCreate principal]) ∨
            (∃ h m', UploadTool.create_outcome b = inr h ∧
                     UploadTool.addSpace_outcome b = Some m' ∧
                     r.1 = [StorageCreate principal; AddSpace h proof])))) ∨
  (∃ principal h,
     signer = Some principal ∧
     UploadTool.create_outcome b = inr h ∧ UploadTool.addSpace_outcome b = None ∧
     r = (let '(c', x) :=
            UploadTool.upload
              (ready_client principal proof (default DEFAULT_GATEWAY_URL gateway) h)
              serverConfig i b in
          (calls c', x))).
Proof.
  intros r. subst r. unfold UploadTool.session, UploadTool.awaitInitialize.
  destruct signer as [principal|]; simpl.
  2:{ left. eexists. split; [done|]. by left. }
  destruct (UploadTool.create_outcome b) as [m'|h] eqn:Ec; simpl.
  { left. eexists. split; [done|]. right. exists principal. split; [done|]. left. eauto. }
  destruct (UploadTool.addSpace_outcome b) as [m'|] eqn:Ea; simpl.
  { left. eexists. split; [done|]. right. exists principal. split; [done|]. right. eauto. }
  right. exists principal, h. done.
Qed.

(** The handler, up to the upload proper. *)
Lemma handler_stages (storageConfig : StorageConfig)
    (serverConfig : option Config.McpServerConfig) (i : UploadTool.input)
    (b : UploadTool.backend) :
  let r := UploadTool.handler storageConfig serverConfig i b in
  failed_early storageConfig i b r ∨
  ∃ principal proof gateway h,
    signer storageConfig = Some principal ∧
    chosen_delegation storageConfig i proof ∧
    UploadTool.create_outcome b = inr h ∧ UploadTool.addSpace_outcome b = None ∧
    r = (let '(c', x) := UploadTool.upload (ready_client principal proof gateway h)
                           serverConfig i b in (calls c', x)).
Proof.
  intros r. subst r.
  assert (∀ proof gateway,
            chosen_delegation storageConfig i proof →
            let r := UploadTool.session (mkConfig (signer storageConfig) (Some proof) gateway)
                       serverConfig i b in
            failed_early storageConfig i b r ∨
            ∃ principal proof gateway h,
              signer storageConfig = Some principal ∧
              chosen_delegation storageConfig i proof ∧
              UploadTool.create_outcome b = inr h ∧ UploadTool.addSpace_outcome b = None ∧
              r = (let '(c', x) := UploadTool.upload (ready_client principal proof gateway h)
                                     serverConfig i b in (calls c', x))) as Hsession.
  { intros proof gateway Hch r.
    destruct (session_stages (signer storageConfig) proof gateway serverConfig i b)
      as [(m & Hr & Hcalls)|(principal & h & Hs & Hc & Ha & Hr)].
    - left. exists (UploadTool.InitializeFailed m). split; [done|].
      destruct Hcalls as [?|(principal & Hs & Hcalls)]; [by left|].
      right. by exists principal, proof.
    - right. by exists principal, proof, (default DEFAULT_GATEWAY_URL gateway), h. }
  assert (∀ proof,
            chosen_delegation storageConfig i proof →
            let r := match (if UploadTool.given (UploadTool.gatewayUrl i) then
                              match parseURL (default "" (UploadTool.gatewayUrl i)) with
                              | Some u => inr (Some u)
                              | None => inl UploadTool.GatewayUrlInvalid
                              end
                            else inr (gatewayUrl storageConfig)) with
                     | inl e => ([], UploadTool.Caught e)
                     | inr gateway =>
                         UploadTool.session
                           (mkConfig (signer storageConfig) (Some proof) gateway)
                           serverConfig i b
                     end in
            failed_early storageConfig i b r ∨
            ∃ principal proof gateway h,
              signer storageConfig = Some principal ∧
              chosen_delegation storageConfig i proof ∧
              UploadTool.create_outcome b = inr h ∧ UploadTool.addSpace_outcome b = None ∧
              r = (let '(c', x) := UploadTool.upload (ready_client principal proof gateway h)
                                     serverConfig i b in (calls c', x))) as Hgateway.
  { intros proof Hch.
    destruct (UploadTool.given (UploadTool.gatewayUrl i)) eqn:Egw; [|by apply Hsession].
    destruct (parseURL _) as [u|] eqn:Eu; [by apply Hsession|].
    left. exists UploadTool.GatewayUrlInvalid. done. }
  unfold UploadTool.handler.
  destruct (UploadTool.given (UploadTool.delegation i)) eqn:Eg; simpl.
  - destruct (parseDelegation _) as [d|] eqn:Ed.
    + apply Hgateway. unfold chosen_delegation. by rewrite Eg.
    + left. exists UploadTool.DelegationInvalid. done.
  - destruct (delegation storageConfig) as [d|] eqn:Edl.
    + rewrite bool_decide_eq_true_2 by eauto. simpl.
      apply Hgateway. unfold chosen_delegation. by rewrite Eg.
    + rewrite bool_decide_eq_false_2 by (by intros [? ?]). simpl.
      left. exists UploadTool.DelegationRequired. done.
Qed.

(** The upload proper, on the ready client: nothing is handed to the
    backend when there is nothing to upload, when the content does not
    decode or when the fetch fails; otherwise one [uploadDirectory] call
    is made, with one file. *)
Lemma upload_ready (principal proof : string) (gateway : URL) (h : nat)
    (serverConfig : option Config.McpServerConfig) (i : UploadTool.input)
    (b : UploadTool.backend) :
  let c := ready_client principal proof gateway h in
  let r := UploadTool.upload c serverConfig i b in
  (r.1 = c ∧
   ((UploadTool.given (UploadTool.file i) = false ∧
     UploadTool.given (UploadTool.url i) = false ∧
     r.2 = UploadTool.Caught UploadTool.NothingToUpload) ∨
    (UploadTool.given (UploadTool.file i) = true ∧
     base64ToBytes (default "" (UploadTool.file i)) = None ∧
     r.2 = UploadTool.Caught (UploadTool.UploadFailed InvalidEncoding)) ∨
    (UploadTool.given (UploadTool.file i) = false ∧
     UploadTool.given (UploadTool.url i) = true ∧
     ∃ e, (tool_fetch serverConfig i b).2 = inl e ∧
          r.2 = UploadTool.Caught (UploadTool.UploadFailed (FetchError e))))) ∨
  (∃ fs, r.1 = delegated c h fs (tool_options i) ∧
     ((UploadTool.given (UploadTool.file i) = true ∧
       ∃ bytes, base64ToBytes (default "" (UploadTool.file i)) = Some bytes ∧
                fs = [mkFile (UploadTool.name i) bytes ""]) ∨
      (UploadTool.given (UploadTool.file i) = false ∧
       UploadTool.given (UploadTool.url i) = true ∧
       ∃ f, (tool_fetch serverConfig i b).2 = inr f ∧ fs = [f])) ∧
     upload_settled b r.2).
Proof.
  intros c r.
  assert (∀ fs,
            let q := performUpload c fs (tool_options i) (UploadTool.reply b) in
            q.1 = delegated c h fs (tool_options i) ∧
            ((∃ u, q.2 = inr u ∧ result (UploadTool.reply b) = inr (root u)) ∨
             (∃ m, result (UploadTool.reply b) = inl m ∧ q.2 = inl (BackendError m)) ∨
             q.2 = inl InvalidResultUrl)) as Hperform.
  { intros fs q. split; [by apply performUpload_call|].
    subst q. unfold performUpload. simpl.
    destruct (result (UploadTool.reply b)) as [m|root]; [right; left; eauto|].
    destruct (resolveURL _ _); [left; eauto|right; by right]. }
  subst r. unfold UploadTool.upload. fold (tool_options i).
  destruct (UploadTool.given (UploadTool.file i)) eqn:Ef.
  - unfold uploadFiles. simpl.
    destruct (base64ToBytes (default "" (UploadTool.file i))) as [bytes|] eqn:Eb.
    + right. exists [mkFile (UploadTool.name i) bytes ""].
      destruct (Hperform [mkFile (UploadTool.name i) bytes ""]) as [Hc Hr].
      destruct (performUpload c _ _ _) as [c' [e|u]]; simpl in *.
      * split; [done|]. split; [left; eauto|].
        destruct Hr as [(u' & ? & _)|[(m & Hm & [= ->])|[= ->]]]; [done| |].
        -- right. left. eauto.
        -- right. by right.
      * split; [done|]. split; [left; eauto|].
        destruct Hr as [(u' & [= <-] & Hroot)|[(m & _ & ?)|?]]; [|done|done]. left. eauto.
    + left. split; [done|]. right. left. done.
  - destruct (UploadTool.given (UploadTool.url i)) eqn:Eu.
    2:{ left. split; [done|]. left. done. }
    unfold uploadFilesFromUrls. simpl. fold (tool_fetch serverConfig i b).
    destruct (tool_fetch serverConfig i b).2 as [e|f] eqn:Et.
    + left. split; [done|]. right. right. repeat (split; [done|]). eauto.
    + right. exists [f]. destruct (Hperform [f]) as [Hc Hr].
      destruct (performUpload c _ _ _) as [c' [e|u]]; simpl in *.
      * split; [done|]. split; [right; eauto|].
        destruct Hr as [(u' & ? & _)|[(m & Hm & [= ->])|[= ->]]]; [done| |].
        -- right. left. eauto.
        -- right. by right.
      * split; [done|]. split; [right; eauto|].
        destruct Hr as [(u' & [= <-] & Hroot)|[(m & _ & ?)|?]]; [|done|done]. left. eauto.
Qed.

(** Every run of the handler: it fails early; or the client is ready and
    nothing is uploaded; or the client is ready and exactly one upload
    call follows the two initialization calls. *)
Lemma handler_outcomes (storageConfig : StorageConfig)
    (serverConfig : option Config.McpServerConfig) (i : UploadTool.input)
    (b : UploadTool.backend) :
  let r := UploadTool.handler storageConfig serverConfig i b in
  failed_early storageConfig i b r ∨
  ∃ principal proof h,
    signer storageConfig = Some principal ∧
    chosen_delegation storageConfig i proof ∧
    UploadTool.create_outcome b = inr h ∧ UploadTool.addSpace_outcome b = None ∧
    ((r.1 = [StorageCreate principal; AddSpace h proof] ∧
      nothing_uploaded serverConfig i b r.2) ∨
     (∃ fs, r.1 = [StorageCreate principal; AddSpace h proof;
                   UploadDirectory h fs 3 (to_filecoin i)] ∧
            handed_over serverConfig i b fs ∧ upload_settled b r.2)).
Proof.
  intros r. subst r.
  destruct (handler_stages storageConfig serverConfig i b)
    as [?|(principal & proof & gateway & h & Hs & Hch & Hc & Ha & Hr)]; [by left|].
  right. exists principal, proof, h. repeat (split; [done|]). rewrite Hr.
  destruct (upload_ready principal proof gateway h serverConfig i b)
    as [[Hc1 Hx]|(fs & Hc1 & Hfs & Hx)];
    destruct (UploadTool.upload _ _ _ _) as [c' x]; simpl in *.
  - left. subst c'. done.
  - right. exists fs. subst c'. simpl. split; [|done].
    unfold to_filecoin. do 4 f_equal.
    by destruct (UploadTool.publishToFilecoin i) as [[]|].
Qed.

(** X17.  The upload tool never delegates an upload from a client that is
    not ready: with a backend that answers every call, the handler
    settles; it calls [Storage.create],
    [addSpace] and [uploadDirectory] at most once each; and whenever
    [uploadDirectory] is called, both initialization calls were made before
    it and both had succeeded, the call carries exactly one file, 3
    retries and the piece hasher exactly when [publishToFilecoin] is
    [true].  A returned result always comes from such a call. *)
Theorem tool_uploads_only_when_ready (storageConfig : StorageConfig)
    (serverConfig : option Config.McpServerConfig) (i : UploadTool.input)
    (b : UploadTool.backend) :
  let r := UploadTool.handler storageConfig serverConfig i b in
  r.2 ≠ UploadTool.Suspended ∧
  (count_create r.1 ≤ 1 ∧ count_addSpace r.1 ≤ 1 ∧ count_upload r.1 ≤ 1)%nat ∧
  (∀ h fs n p, UploadDirectory h fs n p ∈ r.1 →
     ∃ principal proof,
       signer storageConfig = Some principal ∧
       chosen_delegation storageConfig i proof ∧
       UploadTool.create_outcome b = inr h ∧ UploadTool.addSpace_outcome b = None ∧
       r.1 = [StorageCreate principal; AddSpace h proof; UploadDirectory h fs n p] ∧
       n = 3 ∧ p = to_filecoin i ∧ length fs = 1%nat) ∧
  (∀ u, r.2 = UploadTool.Returned u →
     result (UploadTool.reply b) = inr (root u) ∧
     ∃ h fs, UploadDirectory h fs 3 (to_filecoin i) ∈ r.1).
Proof.
  intros r. subst r.
  destruct (handler_outcomes storageConfig serverConfig i b)
    as [(e & Hr & He)|(principal & proof & h & Hs & Hch & Hc & Ha & Hcases)].
  - assert ((UploadTool.handler storageConfig serverConfig i b).1 = []
            ∨ (∃ principal, (UploadTool.handler storageConfig serverConfig i b).1
                            = [StorageCreate principal])
            ∨ (∃ principal h proof, (UploadTool.handler storageConfig serverConfig i b).1
                                    = [StorageCreate principal; AddSpace h proof])) as Hshape.
    { destruct e; try done; try (left; by destruct He as (_ & _ & ?)).
      destruct He as [[_ ?]|(principal & proof & _ & _ & [(m' & _ & ?)|(h & m' & _ & _ & ?)])];
        eauto 6. }
    rewrite Hr. split; [done|].
    destruct Hshape as [-> |[(principal & ->)|(principal & h & proof & ->)]]; simpl;
      (split; [lia|]); (split; [|done]); intros h' fs n p Hin; elem_cases Hin.
  - destruct Hcases as [[Hcalls Hx]|(fs & Hcalls & Hfs & Hx)]; rewrite Hcalls.
    + assert (∃ e, (UploadTool.handler storageConfig serverConfig i b).2
                   = UploadTool.Caught e) as [e He].
      { destruct Hx as [(_ & _ & Hx)|[(_ & _ & Hx)|(_ & _ & e & _ & Hx)]]; eauto. }
      rewrite He. split; [done|].
      simpl. split; [lia|]. split; [intros h' fs n p Hin; elem_cases Hin|done].
    + split.
      { destruct Hx as [(u & Hx & _)|[(m & _ & Hx)|Hx]]; by rewrite Hx. }
      simpl. split; [lia|]. split.
      * intros h' fs' n p Hin.
        elem_cases Hin. injection Hin as -> -> -> ->. exists principal, proof.
        repeat (split; [done|]).
        by destruct Hfs as [(_ & bytes & _ & ->)|(_ & _ & f & _ & ->)].
      * intros u Hu.
        destruct Hx as [(u' & Hx & Hroot)|[(m & _ & Hx)|Hx]]; rewrite Hx in Hu; [|done|done].
        injection Hu as <-. split; [done|]. exists h, fs. by repeat constructor.
Qed.

(** X18.  The delegation of the upload tool: the handler fails with the
    delegation-required error exactly when neither the request nor the
    storage configuration has a delegation, and then the backend is not
    called; the delegation of the request, when there is one, takes
    precedence over the configured one, so that every [addSpace] call
    carries the parsed delegation of the request, or else the configured
    one; a delegation of the request that does not parse fails the call
    before the backend is reached, whatever is configured. *)
Theorem tool_delegation (storageConfig : StorageConfig)
    (serverConfig : option Config.McpServerConfig) (i : UploadTool.input)
    (b : UploadTool.backend) :
  let r := UploadTool.handler storageConfig serverConfig i b in
  (r.2 = UploadTool.Caught UploadTool.DelegationRequired ↔
   UploadTool.given (UploadTool.delegation i) = false ∧ delegation storageConfig = None) ∧
  (r.2 = UploadTool.Caught UploadTool.DelegationRequired → r.1 = []) ∧
  (∀ h proof, AddSpace h proof ∈ r.1 → chosen_delegation storageConfig i proof) ∧
  (UploadTool.given (UploadTool.delegation i) = true →
   parseDelegation (default "" (UploadTool.delegation i)) = None →
   r = ([], UploadTool.Caught UploadTool.DelegationInvalid)).
Proof.
  intros r. subst r.
  assert (UploadTool.given (UploadTool.delegation i) = false ∧ delegation storageConfig = None →
          UploadTool.handler storageConfig serverConfig i b
          = ([], UploadTool.Caught UploadTool.DelegationRequired)) as Hreq.
  { intros [Hg Hd]. unfold UploadTool.handler. rewrite Hg, Hd.
    by rewrite bool_decide_eq_false_2 by (by intros [? ?]). }
  split; [|split; [|split]].
  - split; [|by intros Hno; rewrite (Hreq Hno)].
    destruct (handler_outcomes storageConfig serverConfig i b)
      as [(e & Hr & He)|(principal & proof & h & _ & _ & _ & _ & Hcases)]; intros Hcaught.
    + rewrite Hr in Hcaught. injection Hcaught as ->. by destruct He as (? & ? & _).
    + destruct Hcases as [[_ Hx]|(fs & _ & _ & Hx)].
      * destruct Hx as [(_ & _ & Hx)|[(_ & _ & Hx)|(_ & _ & e & _ & Hx)]]; congruence.
      * destruct Hx as [(u & Hx & _)|[(m & _ & Hx)|Hx]]; congruence.
  - destruct (handler_outcomes storageConfig serverConfig i b)
      as [(e & Hr & He)|(principal & proof & h & _ & _ & _ & _ & Hcases)]; intros Hcaught.
    + rewrite Hr in Hcaught. injection Hcaught as ->. by destruct He as (_ & _ & ?).
    + destruct Hcases as [[_ Hx]|(fs & _ & _ & Hx)].
      * destruct Hx as [(_ & _ & Hx)|[(_ & _ & Hx)|(_ & _ & e & _ & Hx)]]; congruence.
      * destruct Hx as [(u & Hx & _)|[(m & _ & Hx)|Hx]]; congruence.
  - intros h proof Hin.
    destruct (handler_outcomes storageConfig serverConfig i b)
      as [(e & Hr & He)|(principal & proof' & h' & _ & Hch & _ & _ & Hcases)].
    + destruct e; try done.
      * destruct He as (_ & _ & Hc). rewrite Hc in Hin. elem_cases Hin.
      * destruct He as (_ & _ & Hc). rewrite Hc in Hin. elem_cases Hin.
      * destruct He as (_ & _ & Hc). rewrite Hc in Hin. elem_cases Hin.
      * destruct He as [[_ Hc]|(principal & proof' & _ & Hch
                                 & [(m' & _ & Hc)|(h' & m' & _ & _ & Hc)])];
          rewrite Hc in Hin; elem_cases Hin. by injection Hin as -> ->.
    + destruct Hcases as [[Hc _]|(fs & Hc & _)]; rewrite Hc in Hin; elem_cases Hin;
        by injection Hin as -> ->.
  - intros Hg Hp. unfold UploadTool.handler. by rewrite Hg, Hp.
Qed.

Lemma urlUploadFile_lookup (name url : string) (mimeType : option string) :
  urlUploadFile name url mimeType !! "name" = Some name ∧
  urlUploadFile name url mimeType !! "url" = Some url ∧
  urlUploadFile name url mimeType !! "mimeType" = mimeType.
Proof.
  unfold urlUploadFile.
  destruct mimeType as [m|]; repeat split;
    repeat (rewrite lookup_insert_eq || rewrite lookup_insert_ne by done); done.
Qed.

(** X19.  What the upload tool hands to the backend.  When the request
    carries file content, the uploaded file is that content decoded, under
    the requested name, and the URL of the request, if it has one too,
    plays no part: the backend calls and the result are the same whatever
    the URL, the MIME type and the servers are.  Otherwise the uploaded
    file is the one fetched from the URL of the request: it bears the
    requested name, its bytes are the chunks of the GET response in order,
    and its type is the type that [new File] makes (lower-cased; empty if
    it has a character outside U+0020..U+007E) of the [mimeType] of the
    request when that is not empty, else of the content type the server
    declared, else of the default; the URL passed the policy derived from
    the server configuration. *)
Theorem tool_hands_over (storageConfig : StorageConfig)
    (serverConfig : option Config.McpServerConfig) (i : UploadTool.input)
    (b : UploadTool.backend) (h : nat) (fs : list File) (n : Z) (p : bool) :
  UploadDirectory h fs n p ∈ (UploadTool.handler storageConfig serverConfig i b).1 →
  (UploadTool.given (UploadTool.file i) = true →
   (∃ bytes, base64ToBytes (default "" (UploadTool.file i)) = Some bytes ∧
             fs = [mkFile (UploadTool.name i) bytes ""]) ∧
   (∀ url' mimeType' net',
      UploadTool.handler storageConfig serverConfig
        (UploadTool.mkInput (UploadTool.file i) url' (UploadTool.name i)
           (UploadTool.delegation i) (UploadTool.gatewayUrl i)
           (UploadTool.publishToFilecoin i) mimeType')
        (UploadTool.mkBackend (UploadTool.create_outcome b) (UploadTool.addSpace_outcome b)
           net' (UploadTool.reply b))
      = UploadTool.handler storageConfig serverConfig i b)) ∧
  (UploadTool.given (UploadTool.file i) = false →
   UploadTool.given (UploadTool.url i) = true ∧
   ∃ target response s vs,
     parseURL (default "" (UploadTool.url i)) = Some target ∧
     permitted (Config.toolUrlConfig serverConfig) target ∧
     UrlFetch.get_outcome (UploadTool.net b 0%nat) = UrlFetch.Responds response ∧
     UrlFetch.body response = Some s ∧ payload (UrlFetch.reads s) = Some vs ∧
     fs = [mkFile (UploadTool.name i) (concat vs)
             (JS.blob_type
                (effective_type (UploadTool.mimeType i)
                   (UrlFetch.headers response !! "content-type")))]).
Proof.
  intros Hin.
  destruct (handler_outcomes storageConfig serverConfig i b)
    as [(e & Hr & He)|(principal & proof & h' & _ & _ & _ & _ & Hcases)].
  { exfalso. destruct e; try done.
    - destruct He as (_ & _ & Hc). rewrite Hc in Hin. elem_cases Hin.
    - destruct He as (_ & _ & Hc). rewrite Hc in Hin. elem_cases Hin.
    - destruct He as (_ & _ & Hc). rewrite Hc in Hin. elem_cases Hin.
    - destruct He as [[_ Hc]|(principal & proof' & _ & Hch
                               & [(m' & _ & Hc)|(h' & m' & _ & _ & Hc)])];
        rewrite Hc in Hin; elem_cases Hin. }
  destruct Hcases as [[Hc _]|(fs' & Hc & Hfs & _)]; rewrite Hc in Hin; elem_cases Hin.
  injection Hin as -> -> -> ->.
  destruct Hfs as [(Hf & bytes & Hb & ->)|(Hf & Hu & f & Hfetch & ->)].
  - split; [|congruence]. intros _. split; [eauto|].
    intros url' mimeType' net'.
    unfold UploadTool.handler, UploadTool.session, UploadTool.awaitInitialize,
      UploadTool.upload. simpl. by rewrite Hf.
  - split; [congruence|]. intros _. split; [done|].
    unfold tool_fetch in Hfetch.
    destruct (UrlFetch.fetchFileFromUrl _ _ _ _) as [st' r] eqn:Efetch. simpl in Hfetch.
    subst r. apply fetch_success_inv in Efetch
      as (target & hr & gr & s & vs & Hv & _ & _ & _ & Hg & _ & Hbody & Hp & -> & _).
    destruct (urlUploadFile_lookup (UploadTool.name i) (default "" (UploadTool.url i))
                (UploadTool.mimeType i)) as (Hname & Hurl & Hmime).
    apply validate_spec in Hv as [Hparse Hadm]. rewrite Hurl in Hparse. simpl in Hparse.
    exists target, gr, s, vs. rewrite Hname, Hmime. done.
Qed.

(** X20.  Through the upload tool the fetch timeout is effective: the tool
    passes no signal of its own, so with a server configuration whose
    [urlFetchTimeoutMs] is not 0 the timer firing at any point of the
    fetch (while the HEAD request, the GET request or a read of the body
    is pending) fails the call; nothing is uploaded and the handler
    reports an error. *)
Theorem tool_timeout_effective (storageConfig : StorageConfig)
    (cfg : Config.McpServerConfig) (i : UploadTool.input) (b : UploadTool.backend) :
  Config.server_urlFetchTimeoutMs cfg ≠ 0 →
  UploadTool.given (UploadTool.file i) = false →
  UrlFetch.TimerFires ∈ schedule (UploadTool.net b 0%nat) →
  let r := UploadTool.handler storageConfig (Some cfg) i b in
  (∀ h fs n p, UploadDirectory h fs n p ∉ r.1) ∧ ∃ e, r.2 = UploadTool.Caught e.
Proof.
  intros Hms Hfile Hfires r. subst r.
  destruct (handler_outcomes storageConfig (Some cfg) i b)
    as [(e & Hr & He)|(principal & proof & h' & _ & _ & _ & _ & Hcases)].
  { split; [|eauto]. intros h fs n p Hin. destruct e; try done.
    - destruct He as (_ & _ & Hc). rewrite Hc in Hin. elem_cases Hin.
    - destruct He as (_ & _ & Hc). rewrite Hc in Hin. elem_cases Hin.
    - destruct He as (_ & _ & Hc). rewrite Hc in Hin. elem_cases Hin.
    - destruct He as [[_ Hc]|(principal & proof' & _ & Hch
                               & [(m' & _ & Hc)|(h' & m' & _ & _ & Hc)])];
        rewrite Hc in Hin; elem_cases Hin. }
  destruct Hcases as [[Hc Hx]|(fs' & Hc & Hfs & _)].
  - split.
    + intros h fs n p Hin. rewrite Hc in Hin. elem_cases Hin.
    + destruct Hx as [(_ & _ & Hx)|[(_ & _ & Hx)|(_ & _ & e & _ & Hx)]]; eauto.
  - exfalso. destruct Hfs as [(Hf & _)|(_ & _ & f & Hfetch & _)]; [congruence|].
    unfold tool_fetch in Hfetch.
    destruct (UrlFetch.fetchFileFromUrl _ _ _ _) as [st' r] eqn:Efetch. simpl in Hfetch.
    subst r. apply fetch_success_inv in Efetch
      as (target & hr & gr & s & vs & _ & _ & _ & _ & _ & _ & _ & _ & _ & Hcalm & _).
    unfold calm in Hcalm. rewrite Forall_forall in Hcalm. specialize (Hcalm _ Hfires).
    simpl in Hcalm. unfold JS.truthy_number in Hcalm.
    apply negb_false_iff, Z.eqb_eq in Hcalm. done.
Qed.

(** X21.  What the schema rules out.  For an input that passes the checks
    of the schema (the file content, when present, is not empty and
    decodes; exactly one of [file] and [url] is given), the last branch of
    the handler ('Either file content or URL must be provided') is never
    taken and the decoding of the content never fails.  That branch is
    taken only when neither is given, and then only after the client has
    been connected and initialized for nothing. *)
Theorem unreachable_after_validation (storageConfig : StorageConfig)
    (serverConfig : option Config.McpServerConfig) (i : UploadTool.input)
    (b : UploadTool.backend) :
  let r := UploadTool.handler storageConfig serverConfig i b in
  (UploadTool.accepted i = true →
   r.2 ≠ UploadTool.Caught UploadTool.NothingToUpload ∧
   r.2 ≠ UploadTool.Caught (UploadTool.UploadFailed InvalidEncoding)) ∧
  (r.2 = UploadTool.Caught UploadTool.NothingToUpload →
   UploadTool.given (UploadTool.file i) = false ∧
   UploadTool.given (UploadTool.url i) = false ∧
   ∃ principal h proof, r.1 = [StorageCreate principal; AddSpace h proof]).
Proof.
  intros r. subst r.
  assert ((UploadTool.handler storageConfig serverConfig i b).2
          = UploadTool.Caught UploadTool.NothingToUpload →
          UploadTool.given (UploadTool.file i) = false ∧
          UploadTool.given (UploadTool.url i) = false ∧
          ∃ principal h proof,
            (UploadTool.handler storageConfig serverConfig i b).1
            = [StorageCreate principal; AddSpace h proof]) as Hinv.
  { intros Hcaught.
    destruct (handler_outcomes storageConfig serverConfig i b)
      as [(e & Hr & He)|(principal & proof & h & _ & _ & _ & _ & Hcases)].
    - rewrite Hr in Hcaught. injection Hcaught as ->. done.
    - destruct Hcases as [[Hc Hx]|(fs & _ & _ & Hx)].
      + destruct Hx as [(Hf & Hu & _)|[(_ & _ & Hx)|(_ & _ & e & _ & Hx)]];
          [|congruence|congruence].
        repeat (split; [done|]). eauto.
      + destruct Hx as [(u & Hx & _)|[(m & _ & Hx)|Hx]]; congruence. }
  split; [|done].
  intros Hacc. unfold UploadTool.accepted in Hacc.
  apply andb_true_iff in Hacc as [Hfile Hone]. split.
  - intros Hcaught. destruct (Hinv Hcaught) as (Hf & Hu & _).
    unfold UploadTool.exactlyOne in Hone. by rewrite Hf, Hu in Hone.
  - intros Hcaught.
    destruct (handler_outcomes storageConfig serverConfig i b)
      as [(e & Hr & He)|(principal & proof & h & _ & _ & _ & _ & Hcases)].
    + rewrite Hr in Hcaught. injection Hcaught as ->. done.
    + destruct Hcases as [[_ Hx]|(fs & _ & _ & Hx)].
      * destruct Hx as [(_ & _ & Hx)|[(Hg & Hb & _)|(_ & _ & e & _ & Hx)]];
          [congruence| |congruence].
        unfold UploadTool.fileAccepted in Hfile.
        destruct (UploadTool.file i) as [content|]; [|done]. simpl in Hb.
        apply andb_true_iff in Hfile as [_ Hdec].
        apply bool_decide_eq_true in Hdec as [bytes Hbytes]. congruence.
      * destruct Hx as [(u & Hx & _)|[(m & _ & Hx)|Hx]]; congruence.
Qed.

End Tool.

(** ** The URL ingestor: when a file is returned *)

Section Completeness.
Context `{Runtime}.
Import UrlFetch Spec.

Lemma checkTotalSize_within urlConfig (total : Z) :
  (∀ max, limit urlConfig = Some max → total ≤ max) →
  checkTotalSize urlConfig total = ret tt.
Proof.
  unfold limit, checkTotalSize. destruct urlConfig as [c|]; [|done].
  destruct (JS.truthy_number (maxUrlFileSizeBytes c)); [|done]. simpl.
  intros Hle. specialize (Hle _ eq_refl).
  by destruct (Z.gtb_spec total (maxUrlFileSizeBytes c)); [lia|].
Qed.

Lemma checkContentLength_within urlConfig (headResponse : Response) :
  declared_within urlConfig headResponse →
  checkContentLength urlConfig headResponse = ret tt.
Proof.
  unfold declared_within, limit, checkContentLength.
  destruct (headers headResponse !! "content-length") as [cl|]; [|done].
  destruct urlConfig as [c|]; [|done].
  destruct (JS.truthy_number (maxUrlFileSizeBytes c)); [|by rewrite andb_false_r].
  rewrite andb_true_r. destruct (JS.truthy_string cl); [|done].
  destruct (JS.parseInt10 cl) as [size|] eqn:Ep; [|done].
  intros Hle. specialize (Hle _ cl size eq_refl eq_refl Ep).
  by destruct (Z.gtb_spec size (maxUrlFileSizeBytes c)); [lia|].
Qed.

Lemma total_length_nonneg (vs : list (list byte)) : 0 ≤ total_length vs.
Proof. unfold total_length. lia. Qed.

(** The read loop, when nothing cancels it, every read delivers a chunk
    and the chunks fit in the limit: all the chunks are kept. *)
Lemma readLoop_within urlConfig signal rs done_ev :
  ∀ vs chunks total st,
    payload rs = Some vs →
    (∀ max, limit urlConfig = Some max → vs = [] ∨ total + total_length vs ≤ max) →
    calm urlConfig signal (concat (map fst rs) ++ done_ev) →
    live urlConfig signal st →
    (readLoop urlConfig (combinedSignal signal) rs done_ev chunks total st).2
    = inr (chunks ++ vs)%list.
Proof.
  induction rs as [|[pending o] rest IH]; intros vs chunks total st Hp Hfit Hc Hl.
  - simpl in *. injection Hp as <-. unfold read_done.
    destruct (bind_await_live urlConfig signal None done_ev (ret tt)
                (λ _, ret chunks) st Hl Hc) as [-> Hl'].
    simpl. by rewrite app_nil_r.
  - simpl in Hp. destruct o as [value|]; [|done].
    destruct (payload rest) as [vs'|] eqn:Ep; [|done]. injection Hp as <-.
    simpl in Hc. rewrite <- app_assoc in Hc. apply Forall_app in Hc as [Hc1 Hc2].
    simpl. unfold read.
    destruct (bind_await_live urlConfig signal None pending
                (bind (effect (log (ReadChunk (Z.of_nat (length value)))))
                      (λ _, ret value))
                (λ value0,
                   bind (checkTotalSize urlConfig (total + byteLength value0))
                     (λ _, bind (effect (log (Push (byteLength value0))))
                        (λ _, readLoop urlConfig (combinedSignal signal) rest done_ev
                                (chunks ++ [value0]) (total + byteLength value0))))
                st Hl Hc1) as [-> Hl'].
    unfold bind, effect, ret. simpl.
    assert (∀ max, limit urlConfig = Some max → total + byteLength value ≤ max) as Hnow.
    { intros max Hm. destruct (Hfit max Hm) as [?|Hle]; [done|].
      rewrite total_length_cons in Hle. pose proof (total_length_nonneg vs'). lia. }
    rewrite (checkTotalSize_within _ _ Hnow). unfold ret. simpl.
    set (st2 := log (Push (byteLength value)) (log (ReadChunk (Z.of_nat (length value))) _)).
    assert (live urlConfig signal st2) as Hl2 by (by repeat apply live_log).
    rewrite (IH vs' (chunks ++ [value])%list (total + byteLength value) st2 eq_refl);
      [by rewrite <- app_assoc| |done|done].
    intros max Hm. destruct (Hfit max Hm) as [?|Hle]; [done|].
    rewrite total_length_cons in Hle.
    destruct vs' as [|v vs']; [by left|right; lia].
Qed.

(** X22.  When [fetchFileFromUrl] returns a file: for a URL that passes
    the policy stage, if the caller's signal is not aborted at the call
    and nothing cancels the requests, both requests are answered with a
    successful status, the HEAD response declares no content length over
    the limit in force, the GET response has a body whose reads all
    deliver a chunk, and the chunks fit in the limit in force, then the
    call returns the file made of those chunks in order, under the
    requested name and with the type that [new File] makes (lower-cased;
    empty if it has a character outside U+0020..U+007E) of the effective
    type.  (With the theorem on returned files, these conditions are
    exactly those under which a file is returned.) *)
Theorem fetch_returns_when (fileSpec : JsObject) urlConfig signal srv
    (url : URL) (headResponse response : Response) (s : stream) (vs : list (list byte)) :
  validate fileSpec urlConfig = inr url →
  signal ≠ Some true →
  calm urlConfig signal (schedule srv) →
  head_outcome srv = Responds headResponse → ok headResponse = true →
  declared_within urlConfig headResponse →
  get_outcome srv = Responds response → ok response = true →
  body response = Some s → payload (reads s) = Some vs →
  (∀ max, limit urlConfig = Some max → vs = [] ∨ total_length vs ≤ max) →
  (fetchFileFromUrl fileSpec urlConfig signal srv).2
  = inr (mkFile (JS.to_string (fileSpec !! "name")) (concat vs)
           (JS.blob_type
              (effective_type (fileSpec !! "mimeType")
                 (headers response !! "content-type")))).
Proof.
  intros Hv Hs Hc Hh Hok1 Hdecl Hg Hok2 Hb Hp Hfit.
  unfold schedule, body_events in Hc. rewrite Hg, Hb in Hc.
  apply Forall_app in Hc as [Hc1 Hc]. apply Forall_app in Hc as [Hc2 Hc3].
  unfold fetchFileFromUrl. rewrite Hv.
  unfold guarded, try_finally, try_catch, fetchBody, fetch.
  destruct (bind_await_live urlConfig signal
              (Some (Request HEAD url (combinedSignal signal))) (head_pending srv)
              (match head_outcome srv with
               | Responds r => ret r
               | NetworkFails n msg => throw (Foreign n msg)
               end)
              (λ headResponse,
                 bind (if negb (ok headResponse)
                       then throw (MetadataRequestFailed (status headResponse)
                                     (statusText headResponse))
                       else ret tt)
                   (λ _, bind (checkContentLength urlConfig headResponse)
                      (λ _, bind (await (combinedSignal signal)
                                    (Some (Request GET url (combinedSignal signal)))
                                    (get_pending srv)
                                    (match get_outcome srv with
                                     | Responds r => ret r
                                     | NetworkFails n msg => throw (Foreign n msg)
                                     end))
                              (λ response,
                                 readBody (JS.to_string (fileSpec !! "name"))
                                   (fileSpec !! "mimeType") urlConfig
                                   (combinedSignal signal) response))))
              (called (abort_reason srv) (enter urlConfig signal)) (live_enter urlConfig signal Hs) Hc1) as [-> Hl1].
  rewrite Hh. unfold bind at 1. simpl. rewrite Hok1. unfold bind at 1. simpl.
  rewrite (checkContentLength_within _ _ Hdecl). unfold bind at 1. simpl.
  match goal with |- context [fold_left deliver (head_pending srv) ?x] =>
    set (st1 := fold_left deliver (head_pending srv) x) in * end.
  destruct (bind_await_live urlConfig signal
              (Some (Request GET url (combinedSignal signal))) (get_pending srv)
              (match get_outcome srv with
               | Responds r => ret r
               | NetworkFails n msg => throw (Foreign n msg)
               end)
              (λ response,
                 readBody (JS.to_string (fileSpec !! "name"))
                   (fileSpec !! "mimeType") urlConfig
                   (combinedSignal signal) response)
              st1 Hl1 Hc2) as [-> Hl2].
  rewrite Hg. unfold bind at 1. simpl.
  unfold readBody. rewrite Hok2, Hb. unfold bind at 1. simpl.
  match goal with |- context [fold_left deliver (get_pending srv) ?x] =>
    set (st2 := fold_left deliver (get_pending srv) x) in * end.
  pose proof (readLoop_within urlConfig signal (reads s) (done_pending s)
                vs [] 0 st2 Hp) as Hr.
  unfold bind, try_finally.
  destruct (readLoop urlConfig (combinedSignal signal) (reads s) (done_pending s) [] 0 st2)
    as [st3 r3].
  simpl in Hr. rewrite Hr; [|intros max Hm; destruct (Hfit max Hm); [by left|right; lia]
                            |done|done].
  simpl. by rewrite contentType_effective.
Qed.

End Completeness.
(* ===================================================================== *)
(** * Part III. The theorems on the example platform                      *)
(* ===================================================================== *)

Import Example.

(** A client with both credentials.  [initialize] is called twice, the
    connection fails, and [initialize] is called again: one connection,
    the same promise for all callers, the same failure observed.  And on a
    second client [initialize] is called twice, the connection resolves
    with the handle 7, the space-delegation setup resolves, and
    [initialize] is called again: after the calls the connection is
    requested and nothing else; after the connection the handle is stored
    and the setup was performed on it, once; after the setup the client is
    ready, no further call was made, and all three callers observe
    success. *)
Lemma initialize_idempotent_witness :
  let cfg := Client.mkConfig (Some "key") (Some "proof") None in
  let acts := [Client.Initialize; Client.Initialize;
               Client.Settle (Client.CreateRejects 0 (Some "offline"))] in
  let more := [Client.Initialize] in
  let c := (Client.run (Client.new_client cfg) acts).1 in
  let c' := (Client.run c more).1 in
  let called := [Client.Initialize; Client.Initialize] in
  let connect := [Client.Settle (Client.CreateResolves 0 7)] in
  let setup := [Client.Settle (Client.AddSpaceResolves 0); Client.Initialize] in
  let c1 := (Client.run (Client.new_client cfg) called).1 in
  let c2 := (Client.run c1 connect).1 in
  let c3 := (Client.run c2 setup).1 in
  (Client.count_create (Client.calls c') = 1%nat ∧
   Client.calls c' = Client.calls c ∧
   (∀ r, r ∈ (Client.run c more).2 →
      r = Client.Shared 0 ∧
      Client.observe c' r = Client.Failed "Failed to initialize storage client: offline")) ∧
  (Spec.connecting cfg c1 ∧
   Spec.connected_by cfg c2 7 ∧
   Client.count_addSpace (Client.calls c2) = 1%nat ∧
   Client.calls c2 = [Client.StorageCreate "key"; Client.AddSpace 7 "proof"] ∧
   Client.ready c3 = true ∧
   Client.calls c3 = Client.calls c2 ∧
   (∀ r, r ∈ ((Client.run (Client.new_client cfg) (called ++ connect)).2
              ++ (Client.run c2 setup).2)%list →
      Client.observe c3 r = Client.Succeeded)).
Proof.
  intros cfg acts more c c' called connect setup c1 c2 c3.
  pose proof (initialize_idempotent cfg acts more c c'
                (Client.run (Client.new_client cfg) acts).2 (Client.run c more).2
                eq_refl eq_refl) as (_ & _ & Hone & _ & _ & Hterm & _).
  destruct (Hone (mk_is_Some _ _ eq_refl) (mk_is_Some _ _ eq_refl) ltac:(discriminate))
    as (_ & _ & Hc').
  destruct (Hterm 0%nat "Failed to initialize storage client: offline" eq_refl eq_refl)
    as (Hcalls & _ & Hobs).
  pose proof (initialize_idempotent cfg called connect c1 c2
                (Client.run (Client.new_client cfg) called).2 (Client.run c1 connect).2
                eq_refl eq_refl) as (_ & _ & _ & _ & _ & _ & Hstart & Hconnect & _).
  destruct (Hstart (mk_is_Some _ _ eq_refl) (mk_is_Some _ _ eq_refl) ltac:(discriminate)
              ltac:(repeat constructor)) as [_ Hc1].
  destruct (Hconnect 7%nat [] eq_refl eq_refl) as (Hc2 & Hn2 & _).
  pose proof (initialize_idempotent cfg (called ++ connect) setup c2 c3
                (Client.run (Client.new_client cfg) (called ++ connect)).2
                (Client.run c2 setup).2
                eq_refl eq_refl) as (_ & _ & _ & _ & _ & _ & _ & _ & Hsetup & _).
  destruct (Hsetup [Client.Initialize] eq_refl eq_refl) as (Hr3 & Hc3 & _ & Hobs3).
  exact (conj (conj Hc' (conj Hcalls Hobs))
              (conj Hc1 (conj Hc2 (conj Hn2 (conj eq_refl (conj Hr3 (conj Hc3 Hobs3))))))).
Defined.

(** C2 (evaluation at the failing input).  On a client whose backend
    connection succeeded and whose space-delegation setup was rejected,
    [initialize] has failed and the client is not ready; yet both upload
    methods pass the guard and hand the files to the backend's
    [uploadDirectory] instead of failing with 'Client not initialized'.
    The same holds while the space-delegation setup is still pending. *)
Theorem upload_passes_guard_when_not_ready :
  let cfg := Client.mkConfig (Some "key") (Some "proof") None in
  let failed := (Client.run (Client.new_client cfg)
                   [Client.Initialize; Client.Settle (Client.CreateResolves 0 7);
                    Client.Settle (Client.AddSpaceRejects 0 (Some "no space"))]).1 in
  let pending := (Client.run (Client.new_client cfg)
                   [Client.Initialize; Client.Settle (Client.CreateResolves 0 7)]).1 in
  let options := Client.mkOptions None None None in
  let reply := Client.mkReply [(Some "a.txt", "bafyfile")] (inr "bafyroot") in
  let net := λ _ : nat, server (response [] []) (response [] ["hi"]) in
  let delegated := λ c : Client.client,
    let r1 := Client.uploadFiles c [Client.mkUploadFile "a.txt" "aGk="] options reply in
    let r2 := Client.uploadFilesFromUrls c
                [urlUploadFile "a.txt" "https://example.com/a" None] options None net reply in
    r1.2 ≠ inl Client.NotInitialized ∧
    r2.2 ≠ inl Client.NotInitialized ∧
    Client.calls r1.1
      = Client.calls c
          ++ [Client.UploadDirectory 7 [mkFile "a.txt" ["h"%byte; "i"%byte] ""] 3 false] ∧
    Client.calls r2.1
      = Client.calls c
          ++ [Client.UploadDirectory 7
                [mkFile "a.txt" ["h"%byte; "i"%byte] "application/octet-stream"] 3 false] in
  Client.ready failed = false ∧
  Client.observe failed (Client.Shared 0)
    = Client.Failed "Failed to initialize storage client: no space" ∧
  Client.ready pending = false ∧
  Client.observe pending (Client.Shared 0) = Client.StillPending ∧
  delegated failed ∧
  delegated pending.
Proof. vm_compute. repeat split; discriminate. Qed.

(** The timer against a caller's signal (C3, evaluation at the failing
    input).  A policy arms a 5000 ms timer and the timer fires while the
    HEAD request is pending.  Without a caller's signal the call is
    aborted; a caller's signal that fires aborts it as well.  With a
    caller's signal that stays silent, the timer aborts the controller,
    but the requests listen on the caller's signal alone: nothing is
    aborted and the call returns the file. *)
Theorem timer_ignored_with_external_signal :
  let spec := urlUploadFile "a.bin" "https://example.com/a.bin" None in
  let page := response [] ["hi"] in
  let slow := UrlFetch.mkServer [UrlFetch.TimerFires] (UrlFetch.Responds page)
                [] (UrlFetch.Responds page) in
  let aborting := UrlFetch.mkServer [UrlFetch.ExternalFires] (UrlFetch.Responds page)
                    [] (UrlFetch.Responds page) in
  (UrlFetch.fetchFileFromUrl spec (Some (policy 1000 5000)) None slow).2
    = inl UrlFetch.TimeoutOrAborted ∧
  (UrlFetch.fetchFileFromUrl spec (Some (policy 1000 5000)) (Some false) aborting).2
    = inl UrlFetch.TimeoutOrAborted ∧
  let r := UrlFetch.fetchFileFromUrl spec (Some (policy 1000 5000)) (Some false) slow in
  UrlFetch.timer r.1 = UrlFetch.Fired ∧
  UrlFetch.ctrl_aborted r.1 = true ∧
  UrlFetch.ext_aborted r.1 = false ∧
  r.2 = inr (mkFile "a.bin" ["h"%byte; "i"%byte] "application/octet-stream") ∧
  UrlFetch.trace r.1
  = [UrlFetch.SetTimeout 5000;
     UrlFetch.Request UrlFetch.HEAD example_url UrlFetch.External;
     UrlFetch.Request UrlFetch.GET example_url UrlFetch.External;
     UrlFetch.ReadChunk 2; UrlFetch.Push 2; UrlFetch.ReleaseLock; UrlFetch.ClearTimeout].
Proof. vm_compute. repeat split. Qed.

(** A limit of [0] and a timeout of [0] are configurations the loader
    accepts, and the tool passes no policy at all when it is built without
    a server configuration. *)
Lemma zero_is_a_configuration :
  Config.loadMaxUrlFileSizeBytes (Some "0") = inr 0 ∧
  Config.loadUrlFetchTimeoutMs (Some "0") = inr 0 ∧
  Config.loadMaxUrlFileSizeBytes None = inr 1073741824 ∧
  Config.loadMaxUrlFileSizeBytes (Some "-1") = inl "Invalid max URL file size" ∧
  Config.toolUrlConfig None = None.
Proof. by vm_compute. Qed.

(** C4 fails as stated: under a policy whose limit is [0], a declared
    content length of 2000 exceeds the limit, yet the call does not fail
    and the GET request is made. *)
Lemma predeclared_check_skipped_at_zero :
  let spec := urlUploadFile "a.bin" "https://example.com/a.bin" None in
  let srv := server (response [("content-length", "2000")] []) (response [] ["hi"]) in
  let r := UrlFetch.fetchFileFromUrl spec (Some (policy 0 0)) None srv in
  JS.parseInt10 "2000" = Some 2000 ∧
  2000 > maxUrlFileSizeBytes (policy 0 0) ∧
  r.2 = inr (mkFile "a.bin" ["h"%byte; "i"%byte] "application/octet-stream") ∧
  UrlFetch.Request UrlFetch.GET example_url UrlFetch.Internal ∈ UrlFetch.trace r.1.
Proof.
  vm_compute. split; [done|]. split; [done|]. split; [done|].
  apply elem_of_cons. right. apply elem_of_cons. by left.
Qed.

(** The specification's scenario 1: limit 1000, declared length 2000. *)
Lemma predeclared_size_check_witness :
  let spec := urlUploadFile "a.bin" "https://example.com/a.bin" None in
  let srv := server (response [("content-length", "2000")] []) (response [] ["hi"]) in
  let r := UrlFetch.fetchFileFromUrl spec (Some (policy 1000 0)) None srv in
  r.2 = inl (UrlFetch.SizeExceededPredeclared 2000 1000) ∧
  (∀ u sg, UrlFetch.Request UrlFetch.GET u sg ∉ UrlFetch.trace r.1) ∧
  Spec.received (UrlFetch.trace r.1) = 0.
Proof.
  intros spec srv r.
  assert (0 < maxUrlFileSizeBytes (policy 1000 0)) as Hpos by (simpl; lia).
  assert (UrlFetch.validate spec (Some (policy 1000 0)) = inr example_url) as Hv
    by (vm_compute; reflexivity).
  assert (None ≠ Some true) as Hs by discriminate.
  exact (proj1 (predeclared_size_check spec (policy 1000 0) None srv example_url
                  (response [("content-length", "2000")] [])
                  Hpos Hv Hs (Forall_nil_2 _) eq_refl eq_refl)
           "2000" 2000 eq_refl eq_refl ltac:(simpl; lia)).
Defined.

(** C5 fails as stated: under a policy whose limit is [0], five streamed
    bytes exceed the limit, yet a [File] of five bytes is produced. *)
Lemma streaming_check_skipped_at_zero :
  let spec := urlUploadFile "a.bin" "https://example.com/a.bin" None in
  let srv := server (response [] []) (response [] ["hel"; "lo"]) in
  let r := UrlFetch.fetchFileFromUrl spec (Some (policy 0 0)) None srv in
  Spec.received (UrlFetch.trace r.1) = 5 ∧
  5 > maxUrlFileSizeBytes (policy 0 0) ∧
  ∃ file, r.2 = inr file ∧ Spec.file_size file = 5.
Proof. vm_compute. split; [done|]. split; [done|]. eexists. split; reflexivity. Qed.

(** Limit 4, a body streamed as [hel] then [lo]: the second chunk takes the
    total to 5 and the call fails at once, reporting 5 bytes. *)
Lemma streaming_limit_witness :
  let spec := urlUploadFile "a.bin" "https://example.com/a.bin" None in
  let srv := server (response [] []) (response [] ["hel"; "lo"]) in
  let r := UrlFetch.fetchFileFromUrl spec (Some (policy 4 0)) None srv in
  r.2 = inl (UrlFetch.SizeExceededStreaming 5 4) ∧
  Spec.always (Spec.within 4) (UrlFetch.trace r.1) ∧
  Spec.received (UrlFetch.trace r.1) = 5.
Proof.
  intros spec srv r.
  assert (0 < maxUrlFileSizeBytes (policy 4 0)) as Hpos by (simpl; lia).
  destruct (streaming_limit spec (policy 4 0) None srv Hpos) as (Halways & _ & Hexact & _).
  assert (r.2 = inl (UrlFetch.SizeExceededStreaming 5 4)) as Hr by (vm_compute; reflexivity).
  destruct (Hexact 5 4 Hr) as [_ Hrec].
  exact (conj Hr (conj Halways (eq_sym Hrec))).
Defined.

(** The specification's scenario 4 and its sibling example: with
    [example.com] allowed, [cdn.example.com] passes the policy stage and
    [example.com.evil.net] does not; [x.b.com] does not admit [A.b.com],
    which [B.COM] admits. *)
Lemma domain_allow_list_witness :
  let allow := λ domains, mkUrlUploadConfig 1000 ["https"] 0 false (Some domains) in
  let spec := λ url, urlUploadFile "a.bin" url None in
  UrlFetch.validate (spec "https://cdn.example.com/a.bin") (Some (allow ["example.com"]))
    = inr (mkURL "https:" "cdn.example.com" "https://cdn.example.com/a.bin") ∧
  (UrlFetch.fetchFileFromUrl (spec "https://example.com.evil.net/a.bin")
     (Some (allow ["example.com"])) None (server (response [] []) (response [] []))).2
    = inl (UrlFetch.DomainNotAllowed "example.com.evil.net" ["example.com"]) ∧
  (UrlFetch.fetchFileFromUrl (spec "https://A.b.com/a.bin")
     (Some (allow ["x.b.com"])) None (server (response [] []) (response [] []))).2
    = inl (UrlFetch.DomainNotAllowed "a.b.com" ["x.b.com"]) ∧
  UrlFetch.validate (spec "https://A.b.com/a.bin") (Some (allow ["B.COM"]))
    = inr (mkURL "https:" "a.b.com" "https://A.b.com/a.bin").
Proof.
  intros allow spec.
  split; [|by vm_compute].
  set (url := mkURL "https:" "cdn.example.com" "https://cdn.example.com/a.bin").
  assert (parseURL (JS.to_string (spec "https://cdn.example.com/a.bin" !! "url")) = Some url)
    as Hparse by (vm_compute; reflexivity).
  assert (UrlFetch.checkScheme (Some (allow ["example.com"])) url = inr tt)
    as Hscheme by (vm_compute; reflexivity).
  destruct (domain_allow_list (spec "https://cdn.example.com/a.bin")
              (allow ["example.com"]) url None (server (response [] []) (response [] []))
              eq_refl Hparse Hscheme) as [Hiff _].
  apply Hiff. exists ["example.com"]. split; [reflexivity|].
  exists "example.com". split; [by apply list_elem_of_singleton|].
  right. exists "cdn". reflexivity.
Defined.

(** C7 fails as stated.  An override that is present but empty does not
    take effect: the type declared by the server is used.  And the type
    of the file is not the override or the header as given: [new File]
    lower-cases it, and empties it when it has a character outside
    U+0020..U+007E (here the byte 233). *)
Lemma empty_override_falls_through :
  let spec := urlUploadFile "a.bin" "https://example.com/a.bin" (Some "") in
  let upper := urlUploadFile "a.bin" "https://example.com/a.bin" (Some "Text/Plain") in
  let plain := urlUploadFile "a.bin" "https://example.com/a.bin" None in
  let odd := urlUploadFile "a.bin" "https://example.com/a.bin"
               (Some ("text/caf" +:+ String (ascii_of_nat 233) "")) in
  let srv := server (response [] []) (response [("content-type", "image/png")] ["hi"]) in
  let html := server (response [] [])
                (response [("content-type", "text/html; charset=UTF-8")] ["hi"]) in
  spec !! "mimeType" = Some "" ∧
  (UrlFetch.fetchFileFromUrl spec None None srv).2
    = inr (mkFile "a.bin" ["h"%byte; "i"%byte] "image/png") ∧
  (UrlFetch.fetchFileFromUrl upper None None srv).2
    = inr (mkFile "a.bin" ["h"%byte; "i"%byte] "text/plain") ∧
  (UrlFetch.fetchFileFromUrl plain None None html).2
    = inr (mkFile "a.bin" ["h"%byte; "i"%byte] "text/html; charset=utf-8") ∧
  (UrlFetch.fetchFileFromUrl odd None None srv).2
    = inr (mkFile "a.bin" ["h"%byte; "i"%byte] "").
Proof. by vm_compute. Qed.

(** An override [Text/Plain] given under the property the function reads
    wins over the server's [image/png], and is lower-cased. *)
Lemma mime_type_precedence_witness :
  let spec := urlUploadFile "a.bin" "https://example.com/a.bin" (Some "Text/Plain") in
  let get := response [("content-type", "image/png")] ["hi"] in
  let file := mkFile "a.bin" ["h"%byte; "i"%byte] "text/plain" in
  (UrlFetch.fetchFileFromUrl spec None None (server (response [] []) get)).2 = inr file ∧
  file_type file
  = JS.blob_type (Spec.effective_type (Some "Text/Plain") (Some "image/png")).
Proof.
  intros spec get file.
  assert ((UrlFetch.fetchFileFromUrl spec None None (server (response [] []) get)).2
          = inr file) as Hr by (vm_compute; reflexivity).
  split; [exact Hr|].
  destruct (mime_type_precedence spec None None (server (response [] []) get) file Hr)
    as (resp & Hg & Ht & _).
  injection Hg as <-. exact Ht.
Defined.

(** The same override given under the name the interface declares,
    [mimeTyp], is ignored: the server's type is used. *)
Lemma declared_override_ignored :
  let spec := UploadFileFromUrl "a.bin" "https://example.com/a.bin" (Some "text/plain") in
  let srv := server (response [] []) (response [("content-type", "image/png")] ["hi"]) in
  (UrlFetch.fetchFileFromUrl spec None None srv).2
    = inr (mkFile "a.bin" ["h"%byte; "i"%byte] "image/png").
Proof. by vm_compute. Qed.

(** The specification's example: the three forms of [bafyXYZ] and
    [readme.txt]. *)
Lemma parse_forms_witness :
  let r := Some (PathResolver.mkResource "ipfs:" "bafyXYZ" "/readme.txt") in
  PathResolver.parse "bafyXYZ/readme.txt" = r ∧
  PathResolver.parse "/ipfs/bafyXYZ/readme.txt" = r ∧
  PathResolver.parse "ipfs://bafyXYZ/readme.txt" = r.
Proof.
  assert (Spec.slash_free "bafyXYZ") as Hfree.
  { unfold Spec.slash_free. simpl. rewrite !not_elem_of_cons.
    repeat split; try discriminate. apply not_elem_of_nil. }
  assert (parseCID "bafyXYZ" = Some "bafyXYZ") as Hcid by (vm_compute; reflexivity).
  exact (proj1 (parse_forms eq_refl eq_refl) "bafyXYZ" "bafyXYZ" "readme.txt" Hfree Hcid).
Defined.

(** An archive whose root lists the leaves [a] and [b] but holds only [a]:
    the export asks for [b] after [a] was emitted, and the whole call fails
    with 'not found'. *)
Lemma archive_retrieval_witness :
  let c := Client.new_client (Client.mkConfig (Some "key") (Some "proof") None) in
  let target := mkURL "https:" "storacha.link"
                  "https://storacha.link/ipfs/bafyroot/readme.txt?format=car" in
  let truncated := list_byte_of_string "bafyroot:ab;a:hello" in
  let gateway := λ _ : URL,
    Client.GatewayResponds (Client.mkGatewayResponse 200 "OK" ∅ (Some truncated)) in
  let r := Client.retrieve c "bafyroot/readme.txt" None gateway in
  r.1 = [target] ∧ r.2 = inl (Client.BlockNotFound "b").
Proof.
  intros c target truncated gateway r.
  set (resource := PathResolver.mkResource "ipfs:" "bafyroot" "/readme.txt").
  set (response := Client.mkGatewayResponse 200 "OK" ∅ (Some truncated)).
  set (reader := <["bafyroot" := list_byte_of_string "ab"]>
                   (<["a" := list_byte_of_string "hello"]> (∅ : gmap string (list byte)))).
  assert (decodeCar truncated = Some reader) as Hcar by (vm_compute; reflexivity).
  assert (PathResolver.parse "bafyroot/readme.txt" = Some resource) as Hparse
    by (vm_compute; reflexivity).
  assert (resolveURL ("/ipfs/" +:+ (PathResolver.cid resource +:+ PathResolver.pathname resource)
                        +:+ "?format=car") DEFAULT_GATEWAY_URL = Some target) as Htarget
    by (vm_compute; reflexivity).
  destruct (archive_retrieval c "bafyroot/readme.txt" None gateway resource
              DEFAULT_GATEWAY_URL target Hparse eq_refl Htarget)
    as (Hreq & _ & Hblocks).
  split; [exact Hreq|].
  destruct (Hblocks response truncated reader eq_refl eq_refl eq_refl Hcar) as [Hmissing _].
  apply Hmissing.
  - vm_compute. apply elem_of_cons. right. apply elem_of_cons. right.
    apply elem_of_cons. by left.
  - by vm_compute.
Defined.

(** C10 fails as stated: without a configuration an [ftp] URL passes
    every check of the function, but it is not fetched: the platform's
    [fetch] does not handle the scheme and rejects, whatever the server
    would have answered, and the call fails with that rejection. *)
Lemma unhandled_scheme_is_not_fetched :
  let spec := urlUploadFile "a.bin" "ftp://files.internal/a.bin" None in
  let url := mkURL "ftp:" "files.internal" "ftp://files.internal/a.bin" in
  let srv := UrlFetch.on_platform url (server (response [] []) (response [] ["hello"])) in
  let r := UrlFetch.fetchFileFromUrl spec None None srv in
  UrlFetch.validate spec None = inr url ∧
  JS.fetch_handles (protocol url) = false ∧
  r.2 = inl (UrlFetch.Foreign "TypeError" "fetch failed") ∧
  ∀ file, r.2 ≠ inr file.
Proof. vm_compute. repeat split; discriminate. Qed.

(** Without a configuration an [https] URL on any host, whose server
    declares 999999999 bytes, is fetched and its body returned in full,
    with no timer; and an [ftp] URL passes the policy stage, to fail with
    the error of the platform's [fetch]. *)
Lemma no_config_no_policy_witness :
  let spec := urlUploadFile "a.bin" "https://files.internal/a.bin" None in
  let other := urlUploadFile "a.bin" "ftp://files.internal/a.bin" None in
  let head := response [("content-length", "999999999")] [] in
  let get := response [] ["hel"; "lo"] in
  let r := UrlFetch.fetchFileFromUrl spec None None (server head get) in
  r.2 = inr (mkFile "a.bin" (list_byte_of_string "hello") "application/octet-stream") ∧
  UrlFetch.timer r.1 = UrlFetch.Unarmed ∧
  (∀ ms, UrlFetch.SetTimeout ms ∉ UrlFetch.trace r.1) ∧
  UrlFetch.validate other None
  = inr (mkURL "ftp:" "files.internal" "ftp://files.internal/a.bin") ∧
  (UrlFetch.fetchFileFromUrl other None None
     (UrlFetch.on_platform (mkURL "ftp:" "files.internal" "ftp://files.internal/a.bin")
        (server head get))).2
  = inl (UrlFetch.Foreign "TypeError" "fetch failed").
Proof.
  intros spec other head get r.
  assert (None ≠ Some true) as Hs by discriminate.
  assert (parseURL (JS.to_string (spec !! "url"))
          = Some (mkURL "https:" "files.internal" "https://files.internal/a.bin")) as Hparse
    by (vm_compute; reflexivity).
  assert (parseURL (JS.to_string (other !! "url"))
          = Some (mkURL "ftp:" "files.internal" "ftp://files.internal/a.bin")) as Hother
    by (vm_compute; reflexivity).
  destruct (no_config_no_policy spec None (server head get)
              (mkURL "https:" "files.internal" "https://files.internal/a.bin")
              (policy 0 0)) as (Hchecks & Hbody & _).
  destruct (Hchecks Hparse) as (_ & Ht & Hn).
  destruct (Hbody head get
              (UrlFetch.mkStream
                 [([], UrlFetch.Chunk (list_byte_of_string "hel"));
                  ([], UrlFetch.Chunk (list_byte_of_string "lo"))] [])
              [list_byte_of_string "hel"; list_byte_of_string "lo"]
              Hs eq_refl eq_refl eq_refl eq_refl eq_refl eq_refl) as [Habsent _].
  pose proof (Habsent Hparse (calm_without_signal_or_timer _)) as Hr.
  destruct (no_config_no_policy other None (server head get)
              (mkURL "ftp:" "files.internal" "ftp://files.internal/a.bin")
              (policy 0 0)) as (Hchecks' & _ & Hplatform).
  destruct (Hchecks' Hother) as (Hv & _).
  pose proof (Hplatform Hother eq_refl Hs (calm_without_signal_or_timer _)) as Hf.
  exact (conj Hr (conj Ht (conj Hn (conj Hv Hf)))).
Defined.

(** ** Further properties on the example platform *)

(** A client whose connection was rejected is still reported connected. *)
Lemma isConnected_means_committed_witness :
  let cfg := Client.mkConfig (Some "key") (Some "proof") None in
  let acts := [Client.Initialize; Client.Settle (Client.CreateRejects 0 (Some "offline"))] in
  let c := (Client.run (Client.new_client cfg) acts).1 in
  Client.isConnected c = true ∧ Client.ready c = false.
Proof.
  intros cfg acts c.
  pose proof (isConnected_means_committed cfg acts c
                (Client.run (Client.new_client cfg) acts).2 eq_refl) as (_ & _ & Hrejected).
  exact (Hrejected 0%nat "Failed to initialize storage client: offline" eq_refl eq_refl).
Defined.

(** The handle 7 survives the rejection of the space-delegation setup. *)
Lemma storage_follows_create_witness :
  let cfg := Client.mkConfig (Some "key") (Some "proof") None in
  let acts := [Client.Initialize; Client.Settle (Client.CreateResolves 0 7)] in
  let more := [Client.Settle (Client.AddSpaceRejects 0 (Some "no space"));
               Client.Initialize] in
  let c := (Client.run (Client.new_client cfg) acts).1 in
  (∃ p, Client.Settle (Client.CreateResolves p 7) ∈ acts) ∧
  Client.getStorage (Client.run c more).1 = Some 7%nat.
Proof.
  intros cfg acts more c.
  exact (storage_follows_create cfg acts more c
           (Client.run (Client.new_client cfg) acts).2 7%nat eq_refl eq_refl).
Defined.

(** A backend that reports [a] twice, a link without a name and a link
    with the empty name: the map has [a] alone, with the last report. *)
Lemma uploaded_files_reported_witness :
  let c := Spec.ready_client "key" "proof" DEFAULT_GATEWAY_URL 7 in
  let reply := Client.mkReply
                 [(Some "a", "bafy1"); (None, "bafy2"); (Some "", "bafy3"); (Some "a", "bafy4")]
                 (inr "bafyroot") in
  ∃ u, (Client.performUpload c [] (Client.mkOptions None None None) reply).2 = inr u ∧
       Client.files u !! "a" = Some "bafy4" ∧
       ∀ name cid, Client.files u !! name = Some cid → name ≠ "".
Proof.
  intros c reply.
  destruct (Client.performUpload c [] (Client.mkOptions None None None) reply).2
    as [e|u] eqn:Er.
  { exfalso. vm_compute in Er. discriminate Er. }
  exists u. split; [reflexivity|].
  destruct (uploaded_files_reported c [] (Client.mkOptions None None None) reply u Er)
    as [Hsound Hlast].
  split.
  - apply (Hlast [(Some "a", "bafy1"); (None, "bafy2"); (Some "", "bafy3")] [] "a" "bafy4").
    + reflexivity.
    + discriminate.
    + intros cid' Hin. apply elem_of_nil in Hin. contradiction.
  - intros name cid Hl. exact (proj1 (Hsound name cid Hl)).
Defined.

(** A body that arrives in two chunks under a 1000-byte limit. *)
Lemma fetched_file_content_witness :
  let spec := urlUploadFile "a.bin" "https://example.com/a.bin" None in
  let srv := server (response [("content-length", "5")] [])
               (response [("content-type", "text/plain")] ["he"; "llo"]) in
  let file := mkFile "a.bin" (list_byte_of_string "hello") "text/plain" in
  (UrlFetch.fetchFileFromUrl spec (Some (policy 1000 0)) None srv).2 = inr file ∧
  ∃ vs, Spec.payload (map (λ chunk, ([], UrlFetch.Chunk (list_byte_of_string chunk)))
                        ["he"; "llo"]) = Some vs ∧
        file_bytes file = concat vs ∧
        Spec.file_size file ≤ 1000.
Proof.
  intros spec srv file.
  assert ((UrlFetch.fetchFileFromUrl spec (Some (policy 1000 0)) None srv).2 = inr file)
    as Hf by (vm_compute; reflexivity).
  split; [exact Hf|].
  destruct (fetched_file_content spec (Some (policy 1000 0)) None srv file Hf)
    as (url & hr & gr & s & vs & _ & _ & _ & Hg & _ & Hb & Hp & Hbytes & _ & Hlim).
  injection Hg as <-. injection Hb as <-.
  exists vs. split; [exact Hp|]. split; [exact Hbytes|].
  destruct (Hlim 1000 eq_refl) as [[Hnil|Hle] _]; [discriminate Hnil|exact Hle].
Defined.

(** The same call under a 5000 ms timeout: seven effects, in this order. *)
Lemma success_effects_witness :
  let spec := urlUploadFile "a.bin" "https://example.com/a.bin" None in
  let srv := server (response [] []) (response [] ["he"; "llo"]) in
  let r := UrlFetch.fetchFileFromUrl spec (Some (policy 1000 5000)) None srv in
  ∃ url vs,
    UrlFetch.validate spec (Some (policy 1000 5000)) = inr url ∧
    UrlFetch.trace r.1
    = Spec.success_trace (Some (policy 1000 5000)) url UrlFetch.Internal vs ∧
    UrlFetch.timer r.1 ≠ UrlFetch.Armed.
Proof.
  intros spec srv r.
  assert (r = (r.1, inr (mkFile "a.bin" (list_byte_of_string "hello")
                           "application/octet-stream"))) as Hr
    by (vm_compute; reflexivity).
  destruct (success_effects spec (Some (policy 1000 5000)) None srv r.1 _ Hr)
    as (url & vs & Hv & _ & Ht & Htimer).
  exists url, vs. exact (conj Hv (conj Ht Htimer)).
Defined.

(** A call that returned under a caller's signal and a timer: neither the
    signal nor, since the requests listen on the signal alone, the timer
    cancelled it. *)
Lemma success_means_uncancelled_witness :
  let spec := urlUploadFile "a.bin" "https://example.com/a.bin" None in
  let page := response [] ["hi"] in
  let slow := UrlFetch.mkServer [UrlFetch.TimerFires] (UrlFetch.Responds page)
                [] (UrlFetch.Responds page) in
  (UrlFetch.ExternalFires ∉ Spec.schedule slow) ∧
  Spec.calm (Some (policy 1000 5000)) (Some false) (Spec.schedule slow).
Proof.
  intros spec page slow.
  assert ((UrlFetch.fetchFileFromUrl spec (Some (policy 1000 5000)) (Some false) slow).2
          = inr (mkFile "a.bin" (list_byte_of_string "hi") "application/octet-stream"))
    as Hf by (vm_compute; reflexivity).
  destruct (success_means_uncancelled spec (Some (policy 1000 5000)) (Some false) slow _ Hf)
    as (_ & Hcalm & Hext & _).
  exact (conj (Hext (mk_is_Some _ _ eq_refl)) Hcalm).
Defined.

(** An environment that sets the port and two domains. *)
Lemma loadConfig_valid_witness :
  let env : gmap string string :=
    <["MCP_SERVER_PORT" := "8080"]>
      (<["ALLOWED_URL_DOMAINS" := "example.com, cdn.example.com ,"]> ∅) in
  ∃ cfg, Config.loadConfig (λ _, None) env = inr cfg ∧
         Config.port cfg = 8080 ∧
         Config.server_allowedUrlDomains cfg = Some ["example.com"; "cdn.example.com"] ∧
         0 ≤ Config.port cfg ≤ 65535 ∧
         (∀ s, s ∈ Config.server_allowedUrlSchemes cfg → s ∈ Config.validSchemes).
Proof.
  intros env.
  destruct (Config.loadConfig (λ _, None) env) as [e|cfg] eqn:El.
  { exfalso. vm_compute in El. discriminate El. }
  exists cfg. split; [reflexivity|].
  destruct (loadConfig_valid (λ _, None) env cfg El)
    as (Hport & _ & _ & _ & _ & _ & _ & Hschemes & _).
  assert (Config.loadConfig (λ _, None) env
          = inr (Config.mkServerConfig 30000 "stdio" 8080 "0.0.0.0" 104857600 (Some "/rest")
                   1073741824 ["https"; "http"] 300000 false
                   (Some ["example.com"; "cdn.example.com"]))) as Hc
    by (vm_compute; reflexivity).
  rewrite El in Hc. injection Hc as Hc.
  split; [by rewrite Hc|]. split; [by rewrite Hc|]. exact (conj Hport Hschemes).
Defined.

(** No parameter, an empty environment. *)
Lemma loadConfig_defaults_witness :
  Config.loadConfig (λ _, None) ∅ = inr Spec.default_config.
Proof.
  apply loadConfig_defaults.
  - vm_compute. reflexivity.
  - vm_compute. reflexivity.
  - intros k. reflexivity.
  - intros k _. apply lookup_empty.
Defined.

(** An environment that says [false] and lists no domain. *)
Lemma url_uploads_off_by_default_witness :
  let env : gmap string string :=
    <["ALLOW_ALL_URL_DOMAINS" := "false"]> (<["ALLOWED_URL_DOMAINS" := " , "]> ∅) in
  let spec := urlUploadFile "a.bin" "https://example.com/a.bin" None in
  let srv := server (response [] []) (response [] ["hi"]) in
  ∃ cfg, Config.loadConfig (λ _, None) env = inr cfg ∧
         let r := UrlFetch.fetchFileFromUrl spec (Config.toolUrlConfig (Some cfg)) None srv in
         UrlFetch.trace r.1 = [] ∧ r.2 = inl UrlFetch.NoDomainsAllowed.
Proof.
  intros env spec srv.
  destruct (Config.loadConfig (λ _, None) env) as [e|cfg] eqn:El.
  { exfalso. vm_compute in El. discriminate El. }
  exists cfg. split; [reflexivity|].
  assert (∀ v, env !! "ALLOW_ALL_URL_DOMAINS" = Some v → toLowerCase v ≠ "true") as Hall.
  { intros v Hv. vm_compute in Hv. injection Hv as <-. vm_compute. discriminate. }
  assert (∀ v, env !! "ALLOWED_URL_DOMAINS" = Some v → Config.list_of v = []) as Hdom.
  { intros v Hv. vm_compute in Hv. injection Hv as <-. vm_compute. reflexivity. }
  destruct (url_uploads_off_by_default (λ _, None) env cfg spec None srv El Hall Hdom)
    as (Ht & _ & e & He & Hno).
  split; [exact Ht|].
  assert (Config.server_allowedUrlSchemes cfg = ["https"; "http"]) as Hs.
  { assert (Config.loadConfig (λ _, None) env
            = inr (Config.mkServerConfig 30000 "stdio" 3001 "0.0.0.0" 104857600
                     (Some "/rest") 1073741824 ["https"; "http"] 300000 false (Some [])))
      as Hc by (vm_compute; reflexivity).
    rewrite El in Hc. injection Hc as Hc. by rewrite Hc. }
  rewrite He. f_equal. apply (Hno example_url).
  - vm_compute. reflexivity.
  - rewrite Hs. apply elem_of_cons. left. vm_compute. reflexivity.
Defined.

(** The parameter says 8080; the variable, which alone would be rejected
    as a port, is not looked at. *)
Lemma parameters_override_environment_witness :
  let params := λ k : string, if decide (k = "port") then Some "8080" else None in
  Config.loadConfig params (<["MCP_SERVER_PORT" := "99999"]> ∅) = Config.loadConfig params ∅ ∧
  Config.loadConfig (λ _, None) (<["MCP_SERVER_PORT" := "99999"]> ∅)
  = inl "Invalid port number".
Proof.
  intros params. split.
  - assert ("8080" ≠ "") as Hp by discriminate.
    exact (proj1 (parameters_override_environment params ∅ "8080" "99999" Hp) eq_refl).
  - vm_compute. reflexivity.
Defined.

(** A request with a URL and a MIME type, on a server configuration that
    allows every domain; and a request with file content and a URL, for
    which the servers are not asked: the outcome is that of the request
    without the URL when every server is unreachable. *)
Lemma tool_hands_over_witness :
  let storageConfig := Client.mkConfig (Some "key") (Some "proof:server") None in
  let cfg := Config.mkServerConfig 30000 "stdio" 3001 "0.0.0.0" 104857600 (Some "/rest")
               1000 ["https"] 5000 true None in
  let i := UploadTool.mkInput None (Some "https://example.com/a.bin") "a.bin"
             (Some "proof:request") None None (Some "text/plain") in
  let both := UploadTool.mkInput (Some "aGk=") (Some "https://example.com/a.bin") "a.bin"
                (Some "proof:request") None None (Some "text/plain") in
  let content := UploadTool.mkInput (Some "aGk=") None "a.bin"
                   (Some "proof:request") None None None in
  let reply := Client.mkReply [(Some "a.bin", "bafyfile")] (inr "bafyroot") in
  let b := UploadTool.mkBackend (inr 7%nat) None
             (λ _, server (response [] []) (response [("content-type", "image/png")] ["hi"]))
             reply in
  let offline := UploadTool.mkBackend (inr 7%nat) None
                   (λ _, UrlFetch.mkServer [] (UrlFetch.NetworkFails "TypeError" "fetch failed")
                           [] (UrlFetch.NetworkFails "TypeError" "fetch failed"))
                   reply in
  let file := mkFile "a.bin" (list_byte_of_string "hi") "text/plain" in
  let decoded := mkFile "a.bin" (list_byte_of_string "hi") "" in
  ((UploadTool.handler storageConfig (Some cfg) i b).1
   = [Client.StorageCreate "key"; Client.AddSpace 7 "proof:request";
      Client.UploadDirectory 7 [file] 3 false] ∧
   ∃ target, parseURL "https://example.com/a.bin" = Some target ∧
             Spec.permitted (Config.toolUrlConfig (Some cfg)) target) ∧
  ((UploadTool.handler storageConfig (Some cfg) both b).1
   = [Client.StorageCreate "key"; Client.AddSpace 7 "proof:request";
      Client.UploadDirectory 7 [decoded] 3 false] ∧
   UploadTool.handler storageConfig (Some cfg) content offline
   = UploadTool.handler storageConfig (Some cfg) both b).
Proof.
  intros storageConfig cfg i both content reply b offline file decoded.
  assert ((UploadTool.handler storageConfig (Some cfg) i b).1
          = [Client.StorageCreate "key"; Client.AddSpace 7 "proof:request";
             Client.UploadDirectory 7 [file] 3 false]) as Hcalls
    by (vm_compute; reflexivity).
  assert ((UploadTool.handler storageConfig (Some cfg) both b).1
          = [Client.StorageCreate "key"; Client.AddSpace 7 "proof:request";
             Client.UploadDirectory 7 [decoded] 3 false]) as Hcalls'
    by (vm_compute; reflexivity).
  assert (Client.UploadDirectory 7 [file] 3 false
          ∈ (UploadTool.handler storageConfig (Some cfg) i b).1) as Hin.
  { rewrite Hcalls. apply elem_of_cons. right. apply elem_of_cons. right.
    apply elem_of_cons. left. reflexivity. }
  assert (Client.UploadDirectory 7 [decoded] 3 false
          ∈ (UploadTool.handler storageConfig (Some cfg) both b).1) as Hin'.
  { rewrite Hcalls'. apply elem_of_cons. right. apply elem_of_cons. right.
    apply elem_of_cons. left. reflexivity. }
  destruct (tool_hands_over storageConfig (Some cfg) i b 7%nat [file] 3 false Hin)
    as [_ Hurl].
  destruct (Hurl eq_refl) as (_ & target & _ & _ & _ & Hp & Ha & _).
  destruct (tool_hands_over storageConfig (Some cfg) both b 7%nat [decoded] 3 false Hin')
    as [Hfile _].
  destruct (Hfile eq_refl) as [_ Hsame].
  split.
  - split; [exact Hcalls|]. exists target. exact (conj Hp Ha).
  - split; [exact Hcalls'|].
    exact (Hsame None None
             (λ _, UrlFetch.mkServer [] (UrlFetch.NetworkFails "TypeError" "fetch failed")
                     [] (UrlFetch.NetworkFails "TypeError" "fetch failed"))).
Defined.

(** A caller that aborts with [AbortSignal.timeout], whose reason is an
    [Error] named [TimeoutError], while the HEAD request is pending: the
    call fails with that reason, not with the timeout-or-aborted error.
    A caller that aborts with a string as the reason: the call fails with
    that value.  A caller that gives no reason: the timeout-or-aborted
    error. *)
Lemma abort_reporting_witness :
  let spec := urlUploadFile "a.bin" "https://example.com/a.bin" None in
  let page := response [] ["hi"] in
  let aborting := λ reason,
    UrlFetch.mkExchange [UrlFetch.ExternalFires] (UrlFetch.Responds page)
      [] (UrlFetch.Responds page) reason in
  let timeout := UrlFetch.ErrorInstance "TimeoutError"
                   "The operation was aborted due to timeout" in
  let text := UrlFetch.OtherValue "" "" in
  (UrlFetch.fetchFileFromUrl spec None (Some false) (aborting timeout)).2
  = inl (UrlFetch.Foreign "TimeoutError" "The operation was aborted due to timeout") ∧
  (UrlFetch.fetchFileFromUrl spec None (Some false) (aborting text)).2
  = inl (UrlFetch.NonError "" "") ∧
  (UrlFetch.fetchFileFromUrl spec None (Some false) (aborting UrlFetch.default_reason)).2
  = inl UrlFetch.TimeoutOrAborted.
Proof.
  intros spec page aborting timeout text.
  assert (UrlFetch.validate spec None = inr example_url) as Hv by (vm_compute; reflexivity).
  assert (UrlFetch.ExternalFires ∈ [UrlFetch.ExternalFires]) as Hin
    by (apply elem_of_cons; left; reflexivity).
  pose proof (abort_reporting spec None (Some false) (aborting timeout))
    as (_ & _ & Hduring & _).
  pose proof (abort_reporting spec None (Some false) (aborting text))
    as (_ & _ & Hduring' & _).
  pose proof (abort_reporting spec None (Some false) (aborting UrlFetch.default_reason))
    as (_ & _ & Hduring'' & _).
  exact (conj (Hduring example_url Hv eq_refl Hin)
           (conj (Hduring' example_url Hv eq_refl Hin)
                 (Hduring'' example_url Hv eq_refl Hin))).
Defined.

(** The timer fires while the HEAD request is pending. *)
Lemma tool_timeout_effective_witness :
  let storageConfig := Client.mkConfig (Some "key") (Some "proof:server") None in
  let cfg := Config.mkServerConfig 30000 "stdio" 3001 "0.0.0.0" 104857600 (Some "/rest")
               1000 ["https"] 5000 true None in
  let i := UploadTool.mkInput None (Some "https://example.com/a.bin") "a.bin"
             None None None None in
  let page := response [] ["hi"] in
  let slow := UrlFetch.mkServer [UrlFetch.TimerFires] (UrlFetch.Responds page)
                [] (UrlFetch.Responds page) in
  let b := UploadTool.mkBackend (inr 7%nat) None (λ _, slow)
             (Client.mkReply [] (inr "bafyroot")) in
  let r := UploadTool.handler storageConfig (Some cfg) i b in
  (∀ h fs n p, Client.UploadDirectory h fs n p ∉ r.1) ∧ ∃ e, r.2 = UploadTool.Caught e.
Proof.
  intros storageConfig cfg i page slow b.
  apply (tool_timeout_effective storageConfig cfg i b).
  - discriminate.
  - reflexivity.
  - apply elem_of_cons. left. reflexivity.
Defined.

(** Two chunks under a 1000-byte limit, a declared length of 5, a caller's
    signal that stays silent and a timer that fires: the file is returned. *)
Lemma fetch_returns_when_witness :
  let spec := urlUploadFile "a.bin" "https://example.com/a.bin" (Some "text/plain") in
  let head := response [("content-length", "5")] [] in
  let page := response [("content-type", "image/png")] ["he"; "llo"] in
  let slow := UrlFetch.mkServer [UrlFetch.TimerFires] (UrlFetch.Responds head)
                [] (UrlFetch.Responds page) in
  (UrlFetch.fetchFileFromUrl spec (Some (policy 1000 5000)) (Some false) slow).2
  = inr (mkFile "a.bin" (list_byte_of_string "hello") "text/plain").
Proof.
  intros spec head page slow.
  assert (UrlFetch.validate spec (Some (policy 1000 5000)) = inr example_url) as Hv
    by (vm_compute; reflexivity).
  assert (Spec.calm (Some (policy 1000 5000)) (Some false) (Spec.schedule slow)) as Hc.
  { repeat constructor. }
  assert (Spec.declared_within (Some (policy 1000 5000)) head) as Hd.
  { intros max cl size Hm Hcl Hp. vm_compute in Hm. injection Hm as <-.
    vm_compute in Hcl. injection Hcl as <-. vm_compute in Hp. injection Hp as <-.
    discriminate. }
  assert (∀ max, Spec.limit (Some (policy 1000 5000)) = Some max →
                 map list_byte_of_string ["he"; "llo"] = []
                 ∨ Spec.total_length (map list_byte_of_string ["he"; "llo"]) ≤ max) as Hfit.
  { intros max Hm. vm_compute in Hm. injection Hm as <-. right. discriminate. }
  exact (fetch_returns_when spec (Some (policy 1000 5000)) (Some false) slow example_url
           head page _ (map list_byte_of_string ["he"; "llo"])
           Hv ltac:(discriminate) Hc eq_refl eq_refl Hd eq_refl eq_refl eq_refl eq_refl Hfit).
Defined.
